(** * pyc3dserver: marker recovery and gap filling

    A shallow embedding of the five marker repair routines of
    [pyc3dserver.py] ([recover_marker_relative], [recover_marker_rigidbody],
    [fill_marker_gap_rigidbody], [fill_marker_gap_pattern],
    [fill_marker_gap_interp]) together with the accessors they call.

    Conventions of the embedding.
    - Coordinates and residuals are rationals ([Q]): every finite
      [float32] is a rational.  The pattern fill, whose six operations per
      coordinate are all single precision, rounds each result to binary32
      ([float32] below).  The other routines mix single and double
      precision with library calls; their arithmetic is exact, and what is
      proved of them is the formula the code evaluates.  Numeric
      equalities are stated with [==] ([Qeq]).
    - NaN is not a rational.  The one place where the routines produce it
      from finite data, the centroid of an empty cluster, is modelled by
      [None].
    - A numpy array of shape (n,3) is a [list V3], one of shape (n,) a list.
      In-place writes are list updates on the working copy.
    - Python exceptions are values of [result]; a strategy returns its result
      together with the C3D server state it leaves behind.
    - Library routines whose code is not part of the repository
      ([numpy.sqrt], [numpy.linalg.svd], scipy's spline, the contents of
      uninitialised numpy buffers) are Section variables. *)

From Stdlib Require Import QArith Qabs Qround ZArith Lia Bool Sorted.
From stdpp Require Import base list gmap strings.

Open Scope Q_scope.

(** ** Exceptions *)

Inductive exn := TypeError | IndexError | KeyError | ValueError.

Inductive result (A : Type) :=
  | Ok (a : A)
  | Raise (e : exn).
Arguments Ok {A} a.
Arguments Raise {A} e.

#[global] Instance result_ret : MRet result := fun _ a => Ok a.
#[global] Instance result_bind : MBind result := fun _ _ f m =>
  match m with
  | Ok a => f a
  | Raise e => Raise e
  end.

(** ** Vectors *)

Definition V3 : Type := Q * Q * Q.

Definition vadd (u v : V3) : V3 :=
  let '(a, b, c) := u in let '(x, y, z) := v in (a + x, b + y, c + z).
Definition vsub (u v : V3) : V3 :=
  let '(a, b, c) := u in let '(x, y, z) := v in (a - x, b - y, c - z).
Definition vscale (k : Q) (v : V3) : V3 :=
  let '(x, y, z) := v in (k * x, k * y, k * z).
Definition vmuls (v : V3) (k : Q) : V3 :=
  let '(x, y, z) := v in (x * k, y * k, z * k).
Definition vdivs (v : V3) (k : Q) : V3 :=
  let '(x, y, z) := v in (x / k, y / k, z / k).
Definition vzero : V3 := (0, 0, 0).

Definition veq (u v : V3) : Prop :=
  let '(a, b, c) := u in let '(x, y, z) := v in a == x /\ b == y /\ c == z.
Infix "=v=" := veq (at level 70, no associativity).

(** ** numpy helpers *)

(** [np.isclose(a, b)] with the default tolerances
    [rtol=1e-05], [atol=1e-08]: [|a - b| <= atol + rtol * |b|]. *)
Definition rtol : Q := 1 # 100000.
Definition atol : Q := 1 # 100000000.
Definition isclose (a b : Q) : bool :=
  Qle_bool (Qabs (a - b)) (atol + rtol * Qabs b).

(** [np.where(np.isclose(resid, -1), False, True)] *)
Definition valid_mask (resid : list Q) : list bool :=
  fmap (fun r => if isclose r (-1) then false else true) resid.

(** [np.count_nonzero(mask)] *)
Definition count_nonzero (mask : list bool) : nat :=
  length (filter (fun b => b = true) mask).

(** [np.any(mask)] *)
Definition np_any (mask : list bool) : bool := existsb (fun b => b) mask.

(** [np.logical_and], [np.logical_not] *)
Definition logical_and (m1 m2 : list bool) : list bool := zip_with andb m1 m2.
Definition logical_not (m : list bool) : list bool := fmap negb m.

(** [np.where(mask)[0]]: the indices at which the mask holds, ascending. *)
Fixpoint where_from (i : nat) (mask : list bool) : list nat :=
  match mask with
  | [] => []
  | b :: m => if b then i :: where_from (S i) m else where_from (S i) m
  end.
Definition np_where (mask : list bool) : list nat := where_from 0 mask.

(** [np.searchsorted(a, v)] (side left) on an ascending array: the number of
    leading elements smaller than [v]. *)
Fixpoint searchsorted (a : list nat) (v : nat) : nat :=
  match a with
  | [] => O
  | x :: a' => if (x <? v)%nat then S (searchsorted a' v) else O
  end.

(** Python subscript [a[i]] with an integer index: negative indices count
    from the end, and an index outside [-len, len) raises [IndexError]. *)
Definition py_get {A} (a : list A) (i : Z) : result A :=
  let n := Z.of_nat (length a) in
  let j := (if i <? 0 then i + n else i)%Z in
  if ((0 <=? j) && (j <? n))%Z then
    match a !! Z.to_nat j with
    | Some x => Ok x
    | None => Raise IndexError
    end
  else Raise IndexError.

(** [a[i]] for an index that came out of [np.where] (never negative). *)
Definition py_at {A} (a : list A) (i : nat) : result A :=
  py_get a (Z.of_nat i).

(** [a[i] = x] on the working copy. *)
Definition py_set {A} (a : list A) (i : nat) (x : A) : result (list A) :=
  if (i <? length a)%nat then Ok (<[i := x]> a) else Raise IndexError.

(** [np.float32(n)] of an integer. *)
Definition float_of_Z (n : Z) : Q := inject_Z n.

(** ** binary32

    A single-precision operation returns the binary32 number nearest to
    its exact result, ties to even; below [2^-126] the spacing is that of
    the subnormal numbers, [2^-149].  Results beyond the largest binary32
    number, which numpy turns into infinity, are outside the model. *)

(** [floor(log2 q)] for a positive [q] *)
Definition floor_log2 (q : Q) : Z :=
  let k := (Z.log2 (Qnum q) - Z.log2 (Z.pos (Qden q)))%Z in
  if Qle_bool (2 ^ k) q then k else (k - 1)%Z.

(** The integer nearest to [q], ties to the even one. *)
Definition round_half_even (q : Q) : Z :=
  let f := Qfloor q in
  match Qcompare (q - inject_Z f) (1 # 2) with
  | Lt => f
  | Gt => (f + 1)%Z
  | Eq => if Z.even f then f else (f + 1)%Z
  end.

(** Rounding to [prec] significant bits, with least exponent [emin]. *)
Definition round_binary (prec emin : Z) (q : Q) : Q :=
  match Qnum q with
  | Z0 => 0
  | _ =>
      let e := floor_log2 (Qabs q) in
      let ulp := 2 ^ Z.max (e - prec + 1) emin in
      Qred (inject_Z (round_half_even (q / ulp)) * ulp)
  end.

Definition float32 (q : Q) : Q := round_binary 24 (-149) q.

(** A row of three single-precision results. *)
Definition vround (v : V3) : V3 :=
  let '(x, y, z) := v in (float32 x, float32 y, float32 z).

(** ** The C3D server behind [itf]

    The COM automation object is external to the repository.  It is modelled
    by what the accessors below ask of it: the first and last video frame
    numbers, and per marker label one point record (coordinates, residual)
    per frame number.  [set_calls] counts the requests to write point data
    the object has served: [SetPointDataEx] for a column and [SetPointData]
    for a single value.  The server is taken to store real-valued points,
    so that what is written is what is read back, and the file to carry the
    POINT:LABELS and POINT:USED parameters, so that [get_marker_index]
    answers with an index or with -1. *)

Record C3D := mkC3D {
  video_first : Z;                       (* itf.GetVideoFrame(0) *)
  video_last : Z;                        (* itf.GetVideoFrame(1) *)
  points : gmap string (Z -> V3 * Q);    (* POINT:LABELS -> frame -> data *)
  set_calls : nat
}.

Definition get_first_frame (itf : C3D) : Z := video_first itf.
Definition get_last_frame (itf : C3D) : Z := video_last itf.
Definition get_num_frames (itf : C3D) : Z :=
  (get_last_frame itf - get_first_frame itf + 1)%Z.

(** [check_frame_range_valid(itf, None, None)] *)
Definition check_frame_range_valid (itf : C3D) : bool * Z * Z :=
  let first_fr := get_first_frame itf in
  let last_fr := get_last_frame itf in
  if negb (first_fr <? last_fr)%Z then (false, 0%Z, 0%Z)
  else (true, first_fr, last_fr).

(** The (n,4) array of [get_marker_data], as its two column groups. *)
Record mkr_data := mkData {
  coords : list V3;
  resid : list Q
}.

(** [get_marker_data(itf, mkr_name, blocked_nan=False)]; [None] is Python's
    [None]. *)
Definition get_marker_data (itf : C3D) (mkr_name : string) : option mkr_data :=
  match points itf !! mkr_name with
  | None => None
  | Some p =>
      let '(fr_check, start_fr, end_fr) := check_frame_range_valid itf in
      if negb fr_check then None
      else
        let n_frs := Z.to_nat (end_fr - start_fr + 1) in
        let frs := fmap (fun i => (start_fr + Z.of_nat i)%Z) (seq 0 n_frs) in
        Some (mkData (fmap (fun fr => fst (p fr)) frs)
                     (fmap (fun fr => snd (p fr)) frs))
  end.

(** The number of values equal to 1 in a column: after the array write,
    [update_marker_pos] and [update_marker_residual] write each of them
    once more, with [SetPointData]. *)
Definition count_ones (l : list Q) : nat :=
  length (filter (fun x => Qeq_bool x 1 = true) l).

Definition count_ones_xyz (mkr_coords : list V3) : nat :=
  (count_ones (fmap (fun v : V3 => fst (fst v)) mkr_coords)
   + count_ones (fmap (fun v : V3 => snd (fst v)) mkr_coords)
   + count_ones (fmap (fun v : V3 => snd v) mkr_coords))%nat.

(** [update_marker_pos(itf, mkr_name, mkr_coords)] on a file of real-valued
    points (a negative POINT:SCALE): the coordinates are handed over as
    they are.  The branch for integer files, which stores
    [round(coords/scale)] as 16-bit integers, is not modelled.
    [np.nan_to_num] is the identity on the rows of the model; the one NaN
    row the routines produce is replaced where it is written (see
    [nan_to_num] below). *)
Definition update_marker_pos (itf : C3D) (mkr_name : string)
    (mkr_coords : list V3) : C3D :=
  match points itf !! mkr_name with
  | None => itf
  | Some p =>
      let start_fr := get_first_frame itf in
      let n_frs := get_num_frames itf in
      if negb (Z.of_nat (length mkr_coords) =? n_frs)%Z then itf
      else
        let p' := fun fr =>
          match mkr_coords !! Z.to_nat (fr - start_fr) with
          | Some v => if (start_fr <=? fr)%Z then (v, snd (p fr)) else p fr
          | None => p fr
          end in
        mkC3D (video_first itf) (video_last itf)
              (<[mkr_name := p']> (points itf))
              (set_calls itf + 3 + count_ones_xyz mkr_coords)%nat
  end.

(** [update_marker_residual(itf, mkr_name, mkr_resid)] *)
Definition update_marker_residual (itf : C3D) (mkr_name : string)
    (mkr_resid : list Q) : C3D :=
  match points itf !! mkr_name with
  | None => itf
  | Some p =>
      let start_fr := get_first_frame itf in
      let n_frs := get_num_frames itf in
      if negb (Z.of_nat (length mkr_resid) =? n_frs)%Z then itf
      else
        let p' := fun fr =>
          match mkr_resid !! Z.to_nat (fr - start_fr) with
          | Some r => if (start_fr <=? fr)%Z then (fst (p fr), r) else p fr
          | None => p fr
          end in
        mkC3D (video_first itf) (video_last itf)
              (<[mkr_name := p']> (points itf))
              (set_calls itf + 1 + count_ones mkr_resid)%nat
  end.

(** ** Loops and slices *)

(** [for x in l: st = body(st, x)], stopping at the first exception. *)
Fixpoint for_each {S A} (body : S -> A -> result S) (l : list A) (st : S)
    : result S :=
  match l with
  | [] => Ok st
  | x :: l' => st' ← body st x; for_each body l' st'
  end.

(** [a[lo:hi]] for non-negative bounds. *)
Definition slice {A} (a : list A) (lo hi : nat) : list A :=
  take (hi - lo) (drop lo a).

(** The bracket selection shared by [fill_marker_gap_rigidbody] and
    [fill_marker_gap_pattern]: the three-way branch on
    [np.searchsorted(valid_frs, fr)]. *)
Definition bracket_frames (valid_frs : list nat) (fr : nat)
    : result (nat * nat) :=
  let search_idx := searchsorted valid_frs fr in
  let shape0 := length valid_frs in
  if (search_idx =? 0)%nat then
    fr0 ← py_get valid_frs 0;
    fr1 ← py_get valid_frs 1;
    Ok (fr0, fr1)
  else if (shape0 <=? search_idx)%nat then
    fr0 ← py_get valid_frs (Z.of_nat shape0 - 2);
    fr1 ← py_get valid_frs (Z.of_nat shape0 - 1);
    Ok (fr0, fr1)
  else
    fr0 ← py_get valid_frs (Z.of_nat search_idx - 1);
    fr1 ← py_get valid_frs (Z.of_nat search_idx);
    Ok (fr0, fr1).

(** [(x1 - x0) * np.float32(fr - fr0) / np.float32(fr1 - fr0) + x0],
    evaluated exactly: the rows blended by the rigid-body gap fill are
    double-precision results of matrix products. *)
Definition lerp (x0 x1 : V3) (fr0 fr1 fr : nat) : V3 :=
  vadd (vdivs (vmuls (vsub x1 x0)
                     (float_of_Z (Z.of_nat fr - Z.of_nat fr0)))
              (float_of_Z (Z.of_nat fr1 - Z.of_nat fr0)))
       x0.

(** The same expression on rows of a [float32] array, as the pattern fill
    evaluates it: subtraction, multiplication, division and addition each
    round to binary32. *)
Definition lerp32 (x0 x1 : V3) (fr0 fr1 fr : nat) : V3 :=
  vround
    (vadd (vround
             (vdivs (vround
                       (vmuls (vround (vsub x1 x0))
                              (float32 (inject_Z (Z.of_nat fr - Z.of_nat fr0)))))
                    (float32 (inject_Z (Z.of_nat fr1 - Z.of_nat fr0)))))
          x0).

(** The working copy of the target: coordinates, residuals, [b_updated]. *)
Definition work : Type := list V3 * list Q * bool.

(** Write-back and return value at the end of a successful repair. *)
Definition write_back (itf : C3D) (tgt_mkr_name : string)
    (tgt_mkr_coords : list V3) (tgt_mkr_resid : list Q)
    : result (bool * nat) * C3D :=
  let itf1 := update_marker_pos itf tgt_mkr_name tgt_mkr_coords in
  let itf2 := update_marker_residual itf1 tgt_mkr_name tgt_mkr_resid in
  (Ok (true, count_nonzero (valid_mask tgt_mkr_resid)), itf2).

(** The tail of the three gap fillers: write back if [b_updated]. *)
Definition finish (itf : C3D) (tgt_mkr_name : string) (n_tgt_mkr_valid_frs : nat)
    (r : result work) : result (bool * nat) * C3D :=
  match r with
  | Raise e => (Raise e, itf)
  | Ok (tgt_mkr_coords, tgt_mkr_resid, b_updated) =>
      if b_updated then write_back itf tgt_mkr_name tgt_mkr_coords tgt_mkr_resid
      else (Ok (false, n_tgt_mkr_valid_frs), itf)
  end.

(** ** Pattern (donor) gap fill *)

Definition pattern_body (dnr_mkr_coords : list V3) (dnr_mkr_valid_mask : list bool)
    (both_mkr_valid_frs : list nat) (st : work) (fr : nat) : result work :=
  let '(tgt_mkr_coords, tgt_mkr_resid, b_updated) := st in
  '(fr0, fr1) ← bracket_frames both_mkr_valid_frs fr;
  if (fr <=? fr0)%nat || (fr1 <=? fr)%nat then Ok st else
  m0 ← py_at dnr_mkr_valid_mask fr0;
  if negb m0 then Ok st else
  m1 ← py_at dnr_mkr_valid_mask fr1;
  if negb m1 then Ok st else
  if np_any (logical_not (slice dnr_mkr_valid_mask fr0 (fr1 + 1))) then Ok st else
  t1 ← py_at tgt_mkr_coords fr1;
  t0 ← py_at tgt_mkr_coords fr0;
  let v_tgt := lerp32 t0 t1 fr0 fr1 fr in
  d1 ← py_at dnr_mkr_coords fr1;
  d0 ← py_at dnr_mkr_coords fr0;
  let v_dnr := lerp32 d0 d1 fr0 fr1 fr in
  d ← py_at dnr_mkr_coords fr;
  let new_coords := vround (vadd (vround (vsub v_tgt v_dnr)) d) in
  tgt_mkr_coords' ← py_set tgt_mkr_coords fr new_coords;
  tgt_mkr_resid' ← py_set tgt_mkr_resid fr 0;
  Ok (tgt_mkr_coords', tgt_mkr_resid', true).

Definition fill_marker_gap_pattern (itf : C3D) (tgt_mkr_name dnr_mkr_name : string)
    : result (bool * nat) * C3D :=
  let n_total_frs := get_num_frames itf in
  match get_marker_data itf tgt_mkr_name with
  | None => (Raise TypeError, itf)
  | Some tgt_mkr_data =>
    let tgt_mkr_coords := coords tgt_mkr_data in
    let tgt_mkr_resid := resid tgt_mkr_data in
    let tgt_mkr_valid_mask := valid_mask tgt_mkr_resid in
    let n_tgt_mkr_valid_frs := count_nonzero tgt_mkr_valid_mask in
    if (n_tgt_mkr_valid_frs =? 0)%nat
       || (Z.of_nat n_tgt_mkr_valid_frs =? n_total_frs)%Z
    then (Ok (false, n_tgt_mkr_valid_frs), itf)
    else
    match get_marker_data itf dnr_mkr_name with
    | None => (Raise TypeError, itf)
    | Some dnr_mkr_data =>
      let dnr_mkr_coords := coords dnr_mkr_data in
      let dnr_mkr_valid_mask := valid_mask (resid dnr_mkr_data) in
      if negb (np_any dnr_mkr_valid_mask)
      then (Ok (false, n_tgt_mkr_valid_frs), itf)
      else
      let both_mkr_valid_mask := logical_and tgt_mkr_valid_mask dnr_mkr_valid_mask in
      if negb (np_any both_mkr_valid_mask)
      then (Ok (false, n_tgt_mkr_valid_frs), itf)
      else
      let tgt_mkr_invalid_frs := np_where (logical_not tgt_mkr_valid_mask) in
      let both_mkr_valid_frs := np_where both_mkr_valid_mask in
      finish itf tgt_mkr_name n_tgt_mkr_valid_frs
        (for_each (pattern_body dnr_mkr_coords dnr_mkr_valid_mask both_mkr_valid_frs)
                  tgt_mkr_invalid_frs
                  (tgt_mkr_coords, tgt_mkr_resid, false))
    end
  end.


(** ** 3x3 matrices (rows) *)

Definition M33 : Type := V3 * V3 * V3.

Definition dot3 (u v : V3) : Q :=
  let '(a, b, c) := u in let '(x, y, z) := v in a * x + b * y + c * z.

(** [np.cross(u, v)] *)
Definition cross (u v : V3) : V3 :=
  let '(a, b, c) := u in let '(x, y, z) := v in
  (b * z - c * y, c * x - a * z, a * y - b * x).

(** [M.T] *)
Definition mT (M : M33) : M33 :=
  let '((a, b, c), (d, e, f), (g, h, i)) := M in
  ((a, d, g), (b, e, h), (c, f, i)).

(** [np.dot(M, v)] *)
Definition mv (M : M33) (v : V3) : V3 :=
  let '(r0, r1, r2) := M in (dot3 r0 v, dot3 r1 v, dot3 r2 v).

(** [np.dot(v, M)]: the sum over the first index of [M] *)
Definition vm (v : V3) (M : M33) : V3 := mv (mT M) v.

(** [np.dot(A, B)] *)
Definition mm (A B : M33) : M33 :=
  let '(a0, a1, a2) := A in
  let '(c0, c1, c2) := mT B in
  ((dot3 a0 c0, dot3 a0 c1, dot3 a0 c2),
   (dot3 a1 c0, dot3 a1 c1, dot3 a1 c2),
   (dot3 a2 c0, dot3 a2 c1, dot3 a2 c2)).

(** [np.linalg.det(M)], computed exactly *)
Definition det3 (M : M33) : Q :=
  let '((a, b, c), (d, e, f), (g, h, i)) := M in
  a * (e * i - f * h) - b * (d * i - f * g) + c * (d * h - e * g).

(** [np.diag([a, b, c])] *)
Definition diag3 (a b c : Q) : M33 := ((a, 0, 0), (0, b, 0), (0, 0, c)).

Definition madd (A B : M33) : M33 :=
  let '(a0, a1, a2) := A in let '(b0, b1, b2) := B in
  (vadd a0 b0, vadd a1 b1, vadd a2 b2).
Definition mzero : M33 := (vzero, vzero, vzero).

(** The matrix [b a^T] *)
Definition outer (b a : V3) : M33 :=
  let '(x, y, z) := b in (vscale x a, vscale y a, vscale z a).

Definition meq (A B : M33) : Prop :=
  let '(a0, a1, a2) := A in let '(b0, b1, b2) := B in
  a0 =v= b0 /\ a1 =v= b1 /\ a2 =v= b2.
Infix "=m=" := meq (at level 70, no associativity).

Definition Qsum (l : list Q) : Q := foldr Qplus 0 l.
Definition vsum (l : list V3) : V3 := foldr vadd vzero l.
Definition msum (l : list M33) : M33 := foldr madd mzero l.

(** [np.mean(l)] of a one-dimensional array; [np.nanmean] coincides with it
    on the data handled here, which [get_marker_data] fetches with
    [blocked_nan=False] and which therefore holds no NaN. *)
Definition np_mean (l : list Q) : Q := Qsum l / inject_Z (Z.of_nat (length l)).
Definition np_nanmean (l : list Q) : Q := np_mean l.

(** [np.mean(A, axis=0)], [A.mean(0)] of an array with at least one row.
    Of an array without rows numpy's mean is a row of NaN; [RBT], the one
    caller that can meet it, tests for it. *)
Definition mean0 (A : list V3) : V3 :=
  vdivs (vsum A) (inject_Z (Z.of_nat (length A))).

(** [np.dot((B - np.mean(B, axis=0)).T, (A - np.mean(A, axis=0)))]: the sum
    over the points of the outer products of the centred coordinates. *)
Definition cross_covariance (A B : list V3) : M33 :=
  msum (zip_with outer (fmap (fun b => vsub b (mean0 B)) B)
                       (fmap (fun a => vsub a (mean0 A)) A)).

Definition I3 : M33 := diag3 1 1 1.

(** ** Python dictionaries and sorting *)

(** [d.update({k: v})] on an insertion-ordered dictionary. *)
Fixpoint dict_update (d : list (string * Q)) (k : string) (v : Q)
    : list (string * Q) :=
  match d with
  | [] => [(k, v)]
  | (k', v') :: d' =>
      if String.eqb k' k then (k', v) :: d'
      else (k', v') :: dict_update d' k v
  end.

(** [sorted(items, key=lambda kv: kv[1])]: stable, ascending. *)
Fixpoint insert_by_dist (x : string * Q) (s : list (string * Q))
    : list (string * Q) :=
  match s with
  | [] => [x]
  | y :: s' =>
      if Qle_bool (snd x) (snd y) then x :: y :: s'
      else y :: insert_by_dist x s'
  end.
Definition sorted_by_dist (items : list (string * Q)) : list (string * Q) :=
  foldr insert_by_dist [] items.

(** [np.abs(a - v).argmin()]: first index of the least distance. *)
Definition absdiff (x v : nat) : Z := Z.abs (Z.of_nat x - Z.of_nat v).
Fixpoint argmin_from (i : nat) (best : nat) (bestd : Z) (a : list nat) (v : nat)
    : nat :=
  match a with
  | [] => best
  | x :: a' =>
      if (absdiff x v <? bestd)%Z then argmin_from (S i) i (absdiff x v) a' v
      else argmin_from (S i) best bestd a' v
  end.
Definition argmin_absdiff (a : list nat) (v : nat) : nat :=
  match a with
  | [] => O
  | x :: a' => argmin_from 1 0 (absdiff x v) a' v
  end.

(** [a[mask] = values] and [a[mask] = c] (boolean mask assignment). *)
Fixpoint mask_assign {A} (a : list A) (mask : list bool) (values : list A)
    : list A :=
  match a, mask with
  | x :: a', b :: mask' =>
      if b then
        match values with
        | v :: values' => v :: mask_assign a' mask' values'
        | [] => x :: mask_assign a' mask' []
        end
      else x :: mask_assign a' mask' values
  | _, _ => a
  end.
Definition mask_fill {A} (a : list A) (mask : list bool) (c : A) : list A :=
  zip_with (fun x (b : bool) => if b then c else x) a mask.

(** [a[mask]] *)
Fixpoint mask_select {A} (a : list A) (mask : list bool) : list A :=
  match a, mask with
  | x :: a', b :: mask' =>
      if b then x :: mask_select a' mask' else mask_select a' mask'
  | _, _ => []
  end.

(** [a[idxs]] with an index array *)
Fixpoint gather {A} (a : list A) (idxs : list nat) : result (list A) :=
  match idxs with
  | [] => Ok []
  | i :: idxs' => x ← py_at a i; xs ← gather a idxs'; Ok (x :: xs)
  end.

(** ** Gaps: [np.diff], [np.split] *)

Fixpoint np_diff (a : list nat) : list Z :=
  match a with
  | x :: ((y :: _) as a') => (Z.of_nat y - Z.of_nat x)%Z :: np_diff a'
  | _ => []
  end.

(** [np.split(a, idxs)]: the slices between consecutive division points
    [0, idxs..., len(a)]. *)
Fixpoint split_from {A} (a : list A) (st : nat) (idxs : list nat)
    : list (list A) :=
  match idxs with
  | [] => [slice a st (length a)]
  | i :: idxs' => slice a st i :: split_from a i idxs'
  end.
Definition np_split {A} (a : list A) (idxs : list nat) : list (list A) :=
  split_from a 0 idxs.

(** [np.split(frs, np.where(np.diff(frs) != 1)[0] + 1)] *)
Definition invalid_gaps (frs : list nat) : list (list nat) :=
  np_split frs
    (map S (np_where (fmap (fun d => negb (d =? 1)%Z) (np_diff frs)))).

(** [gap.min()], [gap.max()] of a non-empty array *)
Definition np_min (a : list nat) : nat :=
  match a with [] => O | x :: a' => foldl Nat.min x a' end.
Definition np_max (a : list nat) : nat :=
  match a with [] => O | x :: a' => foldl Nat.max x a' end.

(** [range(start, stop, -1)] and [range(start, stop, 1)] *)
Definition range_down (start stop : Z) : list Z :=
  fmap (fun i => (start - Z.of_nat i)%Z) (seq 0 (Z.to_nat (start - stop))).
Definition range_up (start stop : Z) : list Z :=
  fmap (fun i => (start + Z.of_nat i)%Z) (seq 0 (Z.to_nat (stop - start))).

(** [[f(x) for x in l]], stopping at the first exception. *)
Fixpoint map_result {A B} (f : A -> result B) (l : list A) : result (list B) :=
  match l with
  | [] => Ok []
  | x :: l' => y ← f x; ys ← map_result f l'; Ok (y :: ys)
  end.

(** The cluster loop shared by the three cluster strategies: fetch every
    cluster marker and accumulate the conjunction of their validity masks.
    (The source also fills [dict_cl_mkr_valid], which it never reads.) *)
Definition cluster_fetch (itf : C3D) (n_total_frs : Z) (cl_mkr_names : list string)
    : result (gmap string (list V3) * list bool) :=
  for_each
    (fun '(dict_cl_mkr_coords, cl_mkr_valid_mask) mkr =>
       match get_marker_data itf mkr with
       | None => Raise TypeError
       | Some mkr_data =>
           Ok (<[mkr := coords mkr_data]> dict_cl_mkr_coords,
               logical_and cl_mkr_valid_mask (valid_mask (resid mkr_data)))
       end)
    cl_mkr_names
    (∅, replicate (Z.to_nat n_total_frs) true).

(** [dict_cl_mkr_coords[mkr]] *)
Definition dict_get {A} (d : gmap string A) (k : string) : result A :=
  match d !! k with
  | Some x => Ok x
  | None => Raise KeyError
  end.

Section Numpy.

(** [numpy.sqrt] on the non-negative sums of squares it is applied to. *)
Variable np_sqrt : Q -> Q.
(** Row [i] of the buffer that the [n]-th guarded [np.divide(..., where=...)]
    call of a frame construction allocates and leaves unwritten. *)
Variable np_uninit : nat -> nat -> V3.
(** [numpy.linalg.svd] of a 3x3 matrix: [(U, S, Vt)]. *)
Variable np_svd : M33 -> M33 * V3 * M33.
(** [InterpolatedUnivariateSpline(x, y, k=k, ext='const')]: the fitted
    function, or the exception raised by the constructor. *)
Variable spline : Z -> list nat -> list Q -> result (nat -> Q).

(** [np.linalg.norm] of one row *)
Definition norm (v : V3) : Q := np_sqrt (dot3 v v).

(** *** Selection of the three reference markers and frame construction *)

(** [dict_cl_mkr_dist] after the loop over [cl_mkr_names]. *)
Definition cl_mkr_dist (dict_cl_mkr_coords : gmap string (list V3))
    (tgt_mkr_coords : list V3) (cl_mkr_names : list string)
    : result (list (string * Q)) :=
  for_each
    (fun dict_cl_mkr_dist mkr_name =>
       c ← dict_get dict_cl_mkr_coords mkr_name;
       let vec_diff := zip_with vsub c tgt_mkr_coords in
       Ok (dict_update dict_cl_mkr_dist mkr_name
             (np_nanmean (fmap norm vec_diff))))
    cl_mkr_names [].

(** [p0, p1, p2]: coordinates of the three nearest cluster markers. *)
Definition nearest_three (dict_cl_mkr_coords : gmap string (list V3))
    (tgt_mkr_coords : list V3) (cl_mkr_names : list string)
    : result (list V3 * list V3 * list V3) :=
  dict_cl_mkr_dist ← cl_mkr_dist dict_cl_mkr_coords tgt_mkr_coords cl_mkr_names;
  let cl_mkr_dist_sorted := sorted_by_dist dict_cl_mkr_dist in
  kv0 ← py_get cl_mkr_dist_sorted 0;
  p0 ← dict_get dict_cl_mkr_coords (fst kv0);
  kv1 ← py_get cl_mkr_dist_sorted 1;
  p1 ← dict_get dict_cl_mkr_coords (fst kv1);
  kv2 ← py_get cl_mkr_dist_sorted 2;
  p2 ← dict_get dict_cl_mkr_coords (fst kv2);
  Ok (p0, p1, p2).

(** [np.divide(vec, vec_norm, where=(vec_norm != 0))] *)
Definition unit_rows (call : nat) (vec : list V3) : list V3 :=
  imap (fun i v => if Qeq_bool (norm v) 0 then np_uninit call i
                   else vdivs v (norm v)) vec.

(** [mat_rot]: per frame the matrix with columns [vec_x, vec_y, vec_z]. *)
Definition frame_rot (p0 p1 p2 : list V3) : list M33 :=
  let vec0 := zip_with vsub p1 p0 in
  let vec1 := zip_with vsub p2 p0 in
  let vec0_unit := unit_rows 0 vec0 in
  let vec1_unit := unit_rows 1 vec1 in
  let vec2 := zip_with cross vec0_unit vec1_unit in
  let vec2_unit := unit_rows 2 vec2 in
  let vec_z := vec2_unit in
  let vec_x := vec0_unit in
  let vec_y := zip_with cross vec_z vec_x in
  zip_with (fun x yz => mT (x, fst yz, snd yz)) vec_x (zip vec_y vec_z).

(** *** Relative recovery *)

(** The local offset used for frame [fr] (the branch on [search_idx]). *)
Definition relative_offset (all_mkr_valid_frs : list nat)
    (tgt_mkr_coords_rel : list V3) (fr : nat) : result V3 :=
  let search_idx := searchsorted all_mkr_valid_frs fr in
  if (length all_mkr_valid_frs <=? search_idx)%nat || (search_idx =? 0)%nat then
    let tgt_coords_rel_idx := argmin_absdiff all_mkr_valid_frs fr in
    py_at tgt_mkr_coords_rel tgt_coords_rel_idx
  else
    let idx1 := search_idx in
    let idx0 := (Z.of_nat search_idx - 1)%Z in
    fr1 ← py_at all_mkr_valid_frs idx1;
    fr0 ← py_get all_mkr_valid_frs idx0;
    let a := float_of_Z (Z.of_nat fr - Z.of_nat fr0) in
    let b := float_of_Z (Z.of_nat fr1 - Z.of_nat fr) in
    r0 ← py_get tgt_mkr_coords_rel idx0;
    r1 ← py_at tgt_mkr_coords_rel idx1;
    Ok (vdivs (vadd (vscale b r0) (vscale a r1)) (a + b)).

Definition relative_row (p0 : list V3) (mat_rot : list M33)
    (all_mkr_valid_frs : list nat) (tgt_mkr_coords_rel : list V3) (fr : nat)
    : result V3 :=
  tgt_coords_rel ← relative_offset all_mkr_valid_frs tgt_mkr_coords_rel fr;
  p ← py_at p0 fr;
  M ← py_at mat_rot fr;
  Ok (vadd p (mv M tgt_coords_rel)).

Definition recover_marker_relative (itf : C3D) (tgt_mkr_name : string)
    (cl_mkr_names : list string) : result (bool * nat) * C3D :=
  let n_total_frs := get_num_frames itf in
  match get_marker_data itf tgt_mkr_name with
  | None => (Raise TypeError, itf)
  | Some tgt_mkr_data =>
    let tgt_mkr_coords := coords tgt_mkr_data in
    let tgt_mkr_resid := resid tgt_mkr_data in
    let tgt_mkr_valid_mask := valid_mask tgt_mkr_resid in
    let n_tgt_mkr_valid_frs := count_nonzero tgt_mkr_valid_mask in
    if (n_tgt_mkr_valid_frs =? 0)%nat then (Ok (false, n_tgt_mkr_valid_frs), itf)
    else if (Z.of_nat n_tgt_mkr_valid_frs =? n_total_frs)%Z
    then (Ok (false, n_tgt_mkr_valid_frs), itf)
    else
    match cluster_fetch itf n_total_frs cl_mkr_names with
    | Raise e => (Raise e, itf)
    | Ok (dict_cl_mkr_coords, cl_mkr_valid_mask) =>
      let all_mkr_valid_mask := logical_and cl_mkr_valid_mask tgt_mkr_valid_mask in
      if negb (np_any all_mkr_valid_mask)
      then (Ok (false, n_tgt_mkr_valid_frs), itf)
      else
      let cl_mkr_only_valid_mask :=
        logical_and cl_mkr_valid_mask (logical_not tgt_mkr_valid_mask) in
      if negb (np_any cl_mkr_only_valid_mask)
      then (Ok (false, n_tgt_mkr_valid_frs), itf)
      else
      let all_mkr_valid_frs := np_where all_mkr_valid_mask in
      let cl_mkr_only_valid_frs := np_where cl_mkr_only_valid_mask in
      match
        '(p0, p1, p2) ← nearest_three dict_cl_mkr_coords tgt_mkr_coords cl_mkr_names;
        let mat_rot := frame_rot p0 p1 p2 in
        let tgt_mkr_coords_rel :=
          zip_with vm (mask_select (zip_with vsub tgt_mkr_coords p0) all_mkr_valid_mask)
                      (mask_select mat_rot all_mkr_valid_mask) in
        map_result (relative_row p0 mat_rot all_mkr_valid_frs tgt_mkr_coords_rel)
                   cl_mkr_only_valid_frs
      with
      | Raise e => (Raise e, itf)
      | Ok tgt_mkr_coords_recovered =>
          write_back itf tgt_mkr_name
            (mask_assign tgt_mkr_coords cl_mkr_only_valid_mask tgt_mkr_coords_recovered)
            (mask_fill tgt_mkr_resid cl_mkr_only_valid_mask 0)
      end
    end
  end.

(** *** Rigid-body recovery *)

Definition rigidbody_body (p0 : list V3) (mat_rot : list M33) (vec3 : list V3)
    (all_mkr_valid_frs : list nat) (st : list V3 * list Q) (fr : nat)
    : result (list V3 * list Q) :=
  let '(tgt_mkr_coords, tgt_mkr_resid) := st in
  let search_idx := searchsorted all_mkr_valid_frs fr in
  let shape0 := length all_mkr_valid_frs in
  vc ← (if (search_idx =? 0)%nat then
          fr0 ← py_get all_mkr_valid_frs 0;
          Mfr ← py_at mat_rot fr;
          Mfr0 ← py_at mat_rot fr0;
          let rot_fr0_to_fr := mm Mfr (mT Mfr0) in
          v0 ← py_at vec3 fr0;
          Ok (mv rot_fr0_to_fr v0)
        else if (shape0 <=? search_idx)%nat then
          fr1 ← py_get all_mkr_valid_frs (Z.of_nat shape0 - 1);
          Mfr ← py_at mat_rot fr;
          Mfr1 ← py_at mat_rot fr1;
          let rot_fr1_to_fr := mm Mfr (mT Mfr1) in
          v1 ← py_at vec3 fr1;
          Ok (mv rot_fr1_to_fr v1)
        else
          fr0 ← py_get all_mkr_valid_frs (Z.of_nat search_idx - 1);
          fr1 ← py_at all_mkr_valid_frs search_idx;
          Mfr ← py_at mat_rot fr;
          Mfr0 ← py_at mat_rot fr0;
          let rot_fr0_to_fr := mm Mfr (mT Mfr0) in
          Mfr1 ← py_at mat_rot fr1;
          let rot_fr1_to_fr := mm Mfr (mT Mfr1) in
          v0 ← py_at vec3 fr0;
          let vt_fr0 := mv rot_fr0_to_fr v0 in
          v1 ← py_at vec3 fr1;
          let vt_fr1 := mv rot_fr1_to_fr v1 in
          let a := float_of_Z (Z.of_nat fr - Z.of_nat fr0) in
          let b := float_of_Z (Z.of_nat fr1 - Z.of_nat fr) in
          Ok (vdivs (vadd (vscale b vt_fr0) (vscale a vt_fr1)) (a + b)));
  p ← py_at p0 fr;
  tgt_mkr_coords' ← py_set tgt_mkr_coords fr (vadd p vc);
  tgt_mkr_resid' ← py_set tgt_mkr_resid fr 0;
  Ok (tgt_mkr_coords', tgt_mkr_resid').

Definition recover_marker_rigidbody (itf : C3D) (tgt_mkr_name : string)
    (cl_mkr_names : list string) : result (bool * nat) * C3D :=
  let n_total_frs := get_num_frames itf in
  match get_marker_data itf tgt_mkr_name with
  | None => (Raise TypeError, itf)
  | Some tgt_mkr_data =>
    let tgt_mkr_coords := coords tgt_mkr_data in
    let tgt_mkr_resid := resid tgt_mkr_data in
    let tgt_mkr_valid_mask := valid_mask tgt_mkr_resid in
    let n_tgt_mkr_valid_frs := count_nonzero tgt_mkr_valid_mask in
    if (n_tgt_mkr_valid_frs =? 0)%nat then (Ok (false, n_tgt_mkr_valid_frs), itf)
    else if (Z.of_nat n_tgt_mkr_valid_frs =? n_total_frs)%Z
    then (Ok (false, n_tgt_mkr_valid_frs), itf)
    else
    match cluster_fetch itf n_total_frs cl_mkr_names with
    | Raise e => (Raise e, itf)
    | Ok (dict_cl_mkr_coords, cl_mkr_valid_mask) =>
      let all_mkr_valid_mask := logical_and cl_mkr_valid_mask tgt_mkr_valid_mask in
      if negb (np_any all_mkr_valid_mask)
      then (Ok (false, n_tgt_mkr_valid_frs), itf)
      else
      let cl_mkr_only_valid_mask :=
        logical_and cl_mkr_valid_mask (logical_not tgt_mkr_valid_mask) in
      if negb (np_any cl_mkr_only_valid_mask)
      then (Ok (false, n_tgt_mkr_valid_frs), itf)
      else
      let all_mkr_valid_frs := np_where all_mkr_valid_mask in
      let cl_mkr_only_valid_frs := np_where cl_mkr_only_valid_mask in
      match
        '(p0, p1, p2) ← nearest_three dict_cl_mkr_coords tgt_mkr_coords cl_mkr_names;
        let p3 := tgt_mkr_coords in
        let vec3 := zip_with vsub p3 p0 in
        let mat_rot := frame_rot p0 p1 p2 in
        for_each (rigidbody_body p0 mat_rot vec3 all_mkr_valid_frs)
                 cl_mkr_only_valid_frs (tgt_mkr_coords, tgt_mkr_resid)
      with
      | Raise e => (Raise e, itf)
      | Ok (tgt_mkr_coords', tgt_mkr_resid') =>
          write_back itf tgt_mkr_name tgt_mkr_coords' tgt_mkr_resid'
      end
    end
  end.

(** *** Rigid-body gap fill *)

(** The nested function [RBT(A, B)].  The mean of an array without rows
    is a row of NaN, and so is then the translation: [None].  The error
    outputs are not used by the caller. *)
Definition RBT (A B : list V3)
    : M33 * option V3 * list V3 * list Q * Q :=
  let C := cross_covariance A B in
  let '(U, _, Vt) := np_svd C in
  let R := mm U (mm (diag3 1 1 (det3 (mm U Vt))) Vt) in
  let L := if (length A =? 0)%nat || (length B =? 0)%nat then None
           else Some (vsub (mean0 B) (mv R (mean0 A))) in
  let err_vec :=
    zip_with (fun a b => vsub (vadd (mv R a) (default vzero L)) b) A B in
  let err_norm := fmap norm err_vec in
  let mean_err_norm := np_mean err_norm in
  (R, L, err_vec, err_norm, mean_err_norm).

(** [np.dot(R, p) + L]: a row of NaN when the translation is one. *)
Definition rbt_apply (R : M33) (L : option V3) (p : V3) : option V3 :=
  (fun L => vadd (mv R p) L) <$> L.

(** The blend of two rows, NaN when one of them is. *)
Definition lerp_rows (x0 x1 : option V3) (fr0 fr1 fr : nat) : option V3 :=
  match x0, x1 with
  | Some x0, Some x1 => Some (lerp x0 x1 fr0 fr1 fr)
  | _, _ => None
  end.

(** [np.nan_to_num] on a row: NaN becomes 0.  [update_marker_pos] applies
    it to every column before the write (line 1669).  The working copy is
    not read again at a frame the loop has written, so the model stores in
    the working copy what the file will hold. *)
Definition nan_to_num (v : option V3) : V3 := default vzero v.

(** The rows [dict_cl_mkr_coords[mkr][fr,:]] for [mkr] in [cl_mkr_names]. *)
Definition cluster_at (dict_cl_mkr_coords : gmap string (list V3))
    (cl_mkr_names : list string) (fr : nat) : result (list V3) :=
  map_result (fun mkr => c ← dict_get dict_cl_mkr_coords mkr; py_at c fr)
             cl_mkr_names.

Definition gap_rigidbody_body (dict_cl_mkr_coords : gmap string (list V3))
    (cl_mkr_names : list string) (cl_mkr_valid_mask : list bool)
    (all_mkr_valid_frs : list nat) (st : work) (fr : nat) : result work :=
  let '(tgt_mkr_coords, tgt_mkr_resid, b_updated) := st in
  '(fr0, fr1) ← bracket_frames all_mkr_valid_frs fr;
  if (fr <=? fr0)%nat || (fr1 <=? fr)%nat then Ok st else
  m0 ← py_at cl_mkr_valid_mask fr0;
  if negb m0 then Ok st else
  m1 ← py_at cl_mkr_valid_mask fr1;
  if negb m1 then Ok st else
  if np_any (logical_not (slice cl_mkr_valid_mask fr0 (fr1 + 1))) then Ok st else
  cl_mkr_coords_fr0 ← cluster_at dict_cl_mkr_coords cl_mkr_names fr0;
  cl_mkr_coords_fr1 ← cluster_at dict_cl_mkr_coords cl_mkr_names fr1;
  cl_mkr_coords_fr ← cluster_at dict_cl_mkr_coords cl_mkr_names fr;
  let '(rot_fr0, trans_fr0, _, _, _) := RBT cl_mkr_coords_fr0 cl_mkr_coords_fr in
  let '(rot_fr1, trans_fr1, _, _, _) := RBT cl_mkr_coords_fr1 cl_mkr_coords_fr in
  t0 ← py_at tgt_mkr_coords fr0;
  let tgt_mkr_coords_fr_fr0 := rbt_apply rot_fr0 trans_fr0 t0 in
  t1 ← py_at tgt_mkr_coords fr1;
  let tgt_mkr_coords_fr_fr1 := rbt_apply rot_fr1 trans_fr1 t1 in
  tgt_mkr_coords' ← py_set tgt_mkr_coords fr
    (nan_to_num
       (lerp_rows tgt_mkr_coords_fr_fr0 tgt_mkr_coords_fr_fr1 fr0 fr1 fr));
  tgt_mkr_resid' ← py_set tgt_mkr_resid fr 0;
  Ok (tgt_mkr_coords', tgt_mkr_resid', true).

Definition fill_marker_gap_rigidbody (itf : C3D) (tgt_mkr_name : string)
    (cl_mkr_names : list string) : result (bool * nat) * C3D :=
  let n_total_frs := get_num_frames itf in
  match get_marker_data itf tgt_mkr_name with
  | None => (Raise TypeError, itf)
  | Some tgt_mkr_data =>
    let tgt_mkr_coords := coords tgt_mkr_data in
    let tgt_mkr_resid := resid tgt_mkr_data in
    let tgt_mkr_valid_mask := valid_mask tgt_mkr_resid in
    let n_tgt_mkr_valid_frs := count_nonzero tgt_mkr_valid_mask in
    if (n_tgt_mkr_valid_frs =? 0)%nat then (Ok (false, n_tgt_mkr_valid_frs), itf)
    else if (Z.of_nat n_tgt_mkr_valid_frs =? n_total_frs)%Z
    then (Ok (false, n_tgt_mkr_valid_frs), itf)
    else
    match cluster_fetch itf n_total_frs cl_mkr_names with
    | Raise e => (Raise e, itf)
    | Ok (dict_cl_mkr_coords, cl_mkr_valid_mask) =>
      let all_mkr_valid_mask := logical_and cl_mkr_valid_mask tgt_mkr_valid_mask in
      if negb (np_any all_mkr_valid_mask)
      then (Ok (false, n_tgt_mkr_valid_frs), itf)
      else
      let cl_mkr_only_valid_mask :=
        logical_and cl_mkr_valid_mask (logical_not tgt_mkr_valid_mask) in
      if negb (np_any cl_mkr_only_valid_mask)
      then (Ok (false, n_tgt_mkr_valid_frs), itf)
      else
      let all_mkr_valid_frs := np_where all_mkr_valid_mask in
      let cl_mkr_only_valid_frs := np_where cl_mkr_only_valid_mask in
      finish itf tgt_mkr_name n_tgt_mkr_valid_frs
        (for_each (gap_rigidbody_body dict_cl_mkr_coords cl_mkr_names
                     cl_mkr_valid_mask all_mkr_valid_frs)
                  cl_mkr_only_valid_frs
                  (tgt_mkr_coords, tgt_mkr_resid, false))
    end
  end.

(** *** Spline gap fill *)

(** [itpl_cand_frs_mask] after the two marking loops and the conjunction
    with the validity mask.  The marked indices lie inside the array: the
    first loop stays below [gap.min()], the second is guarded by
    [i < n_total_frs]. *)
Definition mark (mask : list bool) (i : Z) : list bool :=
  <[Z.to_nat i := true]> mask.

Definition itpl_cand_frs_mask (n_total_frs : Z) (tgt_mkr_valid_mask : list bool)
    (search_span : Z) (gap : list nat) : list bool :=
  let gmin := Z.of_nat (np_min gap) in
  let gmax := Z.of_nat (np_max gap) in
  let mask0 := replicate (Z.to_nat n_total_frs) false in
  let mask1 :=
    foldl (fun m i => if (0 <=? i)%Z then mark m i else m) mask0
          (range_down (gmin - 1) (gmin - 1 - search_span)) in
  let mask2 :=
    foldl (fun m i => if (i <? n_total_frs)%Z then mark m i else m) mask1
          (range_up (gmax + 1) (gmax + 1 + search_span)) in
  logical_and mask2 tgt_mkr_valid_mask.

(** [np.int(np.ceil(gap.size/2)) + search_span_offset] *)
Definition search_span_of (gap : list nat) (search_span_offset : Z) : Z :=
  ((Z.of_nat (length gap) + 1) / 2 + search_span_offset)%Z.

Definition interp_body (n_total_frs : Z) (tgt_mkr_valid_mask : list bool)
    (k search_span_offset min_needed_frs : Z) (st : work) (gap : list nat)
    : result work :=
  let '(tgt_mkr_coords, tgt_mkr_resid, b_updated) := st in
  if (length gap =? 0)%nat then Ok st else
  if (np_min gap =? 0)%nat || (Z.of_nat (np_max gap) =? n_total_frs - 1)%Z
  then Ok st else
  let search_span := search_span_of gap search_span_offset in
  let cand_mask :=
    itpl_cand_frs_mask n_total_frs tgt_mkr_valid_mask search_span gap in
  if (Z.of_nat (count_nonzero cand_mask) <? min_needed_frs)%Z then Ok st else
  let itpl_cand_frs := np_where cand_mask in
  itpl_cand_coords ← gather tgt_mkr_coords itpl_cand_frs;
  fun_itpl_x ← spline k itpl_cand_frs (fmap (fun v => fst (fst v)) itpl_cand_coords);
  fun_itpl_y ← spline k itpl_cand_frs (fmap (fun v => snd (fst v)) itpl_cand_coords);
  fun_itpl_z ← spline k itpl_cand_frs (fmap (fun v => snd v) itpl_cand_coords);
  '(tgt_mkr_coords', tgt_mkr_resid') ←
    for_each
      (fun '(c, r) fr =>
         c' ← py_set c fr (fun_itpl_x fr, fun_itpl_y fr, fun_itpl_z fr);
         r' ← py_set r fr 0;
         Ok (c', r'))
      gap (tgt_mkr_coords, tgt_mkr_resid);
  Ok (tgt_mkr_coords', tgt_mkr_resid', true).

Definition fill_marker_gap_interp (itf : C3D) (tgt_mkr_name : string)
    (k search_span_offset min_needed_frs : Z) : result (bool * nat) * C3D :=
  let n_total_frs := get_num_frames itf in
  match get_marker_data itf tgt_mkr_name with
  | None => (Raise TypeError, itf)
  | Some tgt_mkr_data =>
    let tgt_mkr_coords := coords tgt_mkr_data in
    let tgt_mkr_resid := resid tgt_mkr_data in
    let tgt_mkr_valid_mask := valid_mask tgt_mkr_resid in
    let n_tgt_mkr_valid_frs := count_nonzero tgt_mkr_valid_mask in
    if (n_tgt_mkr_valid_frs =? 0)%nat
       || (Z.of_nat n_tgt_mkr_valid_frs =? n_total_frs)%Z
    then (Ok (false, n_tgt_mkr_valid_frs), itf)
    else
    let tgt_mkr_invalid_frs := np_where (logical_not tgt_mkr_valid_mask) in
    let tgt_mkr_invalid_gaps := invalid_gaps tgt_mkr_invalid_frs in
    finish itf tgt_mkr_name n_tgt_mkr_valid_frs
      (for_each (interp_body n_total_frs tgt_mkr_valid_mask k
                   search_span_offset min_needed_frs)
                tgt_mkr_invalid_gaps
                (tgt_mkr_coords, tgt_mkr_resid, false))
  end.

End Numpy.

(** ** Vocabulary of the statements *)

(** The two arrays a strategy works on. *)
Definition arrays : Type := list V3 * list Q.

Definition unchanged_at (i : nat) (a a' : arrays) : Prop :=
  a'.1 !! i = a.1 !! i /\ a'.2 !! i = a.2 !! i.

Definition same_shape (a a' : arrays) : Prop :=
  length a'.1 = length a.1 /\ length a'.2 = length a.2.

Definition work_arrays (st : work) : arrays := (st.1.1, st.1.2).

(** A loop body that keeps the shape of the arrays, writes only at the
    frames [W x] of its iteration, and sets the residual to 0 wherever it
    writes. *)
Definition local_body {S X} (arrs : S -> arrays) (W : X -> list nat)
    (body : S -> X -> result S) : Prop :=
  forall st x st', body st x = Ok st' ->
    same_shape (arrs st) (arrs st') /\
    forall i, (i ∉ W x -> unchanged_at i (arrs st) (arrs st')) /\
              (unchanged_at i (arrs st) (arrs st') \/ (arrs st').2 !! i = Some 0).

(** Frame [f] of a residual array is valid / invalid (blocked). *)
Definition valid_at (r : list Q) (f : nat) : Prop :=
  exists x, r !! f = Some x /\ isclose x (-1) = false.
Definition invalid_at (r : list Q) (f : nat) : Prop :=
  exists x, r !! f = Some x /\ isclose x (-1) = true.

(** Frame [f] was blocked in [d] and is valid in [d']. *)
Definition repaired (d d' : mkr_data) (f : nat) : Prop :=
  invalid_at (resid d) f /\ valid_at (resid d') f.

(** The frame effect promised to a caller: valid frames keep position and
    residual; a blocked frame is either left as it was or carries residual 0
    (and is then valid). *)
Definition frame_effect (d d' : mkr_data) : Prop :=
  length (coords d') = length (coords d) /\
  length (resid d') = length (resid d) /\
  forall f,
    (valid_at (resid d) f ->
       coords d' !! f = coords d !! f /\ resid d' !! f = resid d !! f) /\
    (invalid_at (resid d) f ->
       (resid d' !! f = Some 0 /\ valid_at (resid d') f) \/
       (coords d' !! f = coords d !! f /\ resid d' !! f = resid d !! f)).


(** Every marker of [cl_mkr_names] is valid at frame [g]. *)
Definition cluster_valid_at (itf : C3D) (cl_mkr_names : list string) (g : nat)
    : Prop :=
  forall mkr, mkr ∈ cl_mkr_names ->
    exists dm, get_marker_data itf mkr = Some dm /\ valid_at (resid dm) g.



(** What the gaps of an ascending, non-empty index array look like: they
    partition it into runs of consecutive frames, and a frame next to a
    member of a gap belongs to the same gap. *)
Record gaps_ok (frs : list nat) (gaps : list (list nat)) : Prop := {
  gaps_concat : concat gaps = frs;
  gaps_run : forall g, g ∈ gaps ->
               exists a len, (1 <= len)%nat /\ g = seq a len;
  gaps_head : exists g gs, gaps = g :: gs /\ head g = head frs;
  gaps_closed : forall g x y, g ∈ gaps -> x ∈ g -> y ∈ frs ->
                  (y = S x \/ x = S y) -> y ∈ g
}.

(** The iterations of the spline loop that leave the arrays alone, and the
    frames an iteration may write. *)
Definition interp_skips (n_total_frs : Z) (tgt_mkr_valid_mask : list bool)
    (search_span_offset min_needed_frs : Z) (gap : list nat) : bool :=
  (length gap =? 0)%nat
  || ((np_min gap =? 0)%nat || (Z.of_nat (np_max gap) =? n_total_frs - 1)%Z)
  || (Z.of_nat (count_nonzero
        (itpl_cand_frs_mask n_total_frs tgt_mkr_valid_mask
           (search_span_of gap search_span_offset) gap)) <? min_needed_frs)%Z.

Definition interp_writes (n_total_frs : Z) (tgt_mkr_valid_mask : list bool)
    (search_span_offset min_needed_frs : Z) (gap : list nat) : list nat :=
  if interp_skips n_total_frs tgt_mkr_valid_mask search_span_offset
       min_needed_frs gap
  then [] else gap.


(** [o] is the target's offset from the origin marker at frame [g],
    expressed in the local frame of [g]. *)
Definition local_offset (tgt_mkr_coords p0 : list V3) (mat_rot : list M33)
    (g : nat) (o : V3) : Prop :=
  exists t p M,
    tgt_mkr_coords !! g = Some t /\ p0 !! g = Some p /\
    mat_rot !! g = Some M /\ o = vm (vsub t p) M.

(** The offset interpolated between the anchors [f0 < f < f1], with weights
    [b/(a+b)] and [a/(a+b)] for [a = f - f0], [b = f1 - f]. *)
Definition weighted_offset (o0 o1 : V3) (f0 f1 f : nat) : V3 :=
  let a := float_of_Z (Z.of_nat f - Z.of_nat f0) in
  let b := float_of_Z (Z.of_nat f1 - Z.of_nat f) in
  vadd (vscale (b / (a + b)) o0) (vscale (a / (a + b)) o1).

(** Reading a marker where it is known to exist, and the value of a
    computation known to succeed. *)
Definition read (itf : C3D) (mkr_name : string) : mkr_data :=
  default (mkData [] []) (get_marker_data itf mkr_name).

(** Frame [f] of [d'] holds what the pattern fill writes for the target [d]
    and the donor [dd]: [f] lies strictly between the brackets [f0] and
    [f1], neighbouring frames at which target and donor are both valid; the
    donor is valid on all of [f0..f1]; the position is the donor's position
    at [f] plus the difference of the linear interpolations of target and
    donor between the brackets, every operation rounded to single
    precision.  The last clause gives the exact value of the same
    expression: the donor's position plus [c] whenever target minus donor
    is [c] at both brackets. *)
Definition pattern_filled (d dd d' : mkr_data) (f : nat) : Prop :=
  exists f0 f1 t0 t1 d0 d1 df v,
    (f0 < f < f1)%nat /\
    (valid_at (resid d) f0 /\ valid_at (resid dd) f0) /\
    (valid_at (resid d) f1 /\ valid_at (resid dd) f1) /\
    (forall g, (f0 < g < f1)%nat ->
       ~ (valid_at (resid d) g /\ valid_at (resid dd) g)) /\
    (forall g, (f0 <= g <= f1)%nat -> valid_at (resid dd) g) /\
    coords d !! f0 = Some t0 /\ coords d !! f1 = Some t1 /\
    coords dd !! f0 = Some d0 /\ coords dd !! f1 = Some d1 /\
    coords dd !! f = Some df /\
    coords d' !! f = Some v /\
    let a := inject_Z (Z.of_nat f - Z.of_nat f0) in
    let b := inject_Z (Z.of_nat f1 - Z.of_nat f0) in
    let v_tgt :=
      vround (vadd (vround (vdivs (vround (vmuls (vround (vsub t1 t0))
                                                 (float32 a)))
                                  (float32 b)))
                   t0) in
    let v_dnr :=
      vround (vadd (vround (vdivs (vround (vmuls (vround (vsub d1 d0))
                                                 (float32 a)))
                                  (float32 b)))
                   d0) in
    v = vround (vadd (vround (vsub v_tgt v_dnr)) df) /\
    forall c, vsub t0 d0 =v= c -> vsub t1 d1 =v= c ->
      vadd (vsub (vadd (vdivs (vmuls (vsub t1 t0) a) b) t0)
                 (vadd (vdivs (vmuls (vsub d1 d0) a) b) d0))
           df
      =v= vadd df c.



(** No frame of a run of blocked frames that reaches the first or the last
    frame differs between [d] and [d']. *)
Definition boundary_runs_kept (d d' : mkr_data) : Prop :=
  forall a b f,
    (forall x, (a <= x <= b)%nat -> invalid_at (resid d) x) ->
    a = 0%nat \/ S b = length (resid d) ->
    (a <= f <= b)%nat ->
    coords d' !! f = coords d !! f /\ resid d' !! f = resid d !! f.

(** Every gap the spline fill iterates over is a maximal run [a..b] of
    blocked frames; its candidate frames are the valid frames among the
    [ceil(size/2) + search_span_offset] frames before [a] and after [b];
    with fewer than [min_needed_frs] of them the gap is the same in [d']
    as in [d]. *)
Definition gap_policy (n_total_frs : Z) (search_span_offset min_needed_frs : Z)
    (d d' : mkr_data) : Prop :=
  forall g,
    g ∈ invalid_gaps (np_where (logical_not (valid_mask (resid d)))) ->
    g <> [] ->
    exists a b,
      (a <= b < length (resid d))%nat /\ g = seq a (S (b - a)) /\
      (forall x, (a <= x <= b)%nat -> invalid_at (resid d) x) /\
      (a = 0%nat \/ valid_at (resid d) (a - 1)) /\
      (S b = length (resid d) \/ valid_at (resid d) (S b)) /\
      let span := ((Z.of_nat (S (b - a)) + 1) / 2 + search_span_offset)%Z in
      let cand :=
        np_where (itpl_cand_frs_mask n_total_frs (valid_mask (resid d))
                    (search_span_of g search_span_offset) g) in
      search_span_of g search_span_offset = span /\
      (forall i, i ∈ cand <->
         valid_at (resid d) i /\
         ((Z.of_nat a - span <= Z.of_nat i < Z.of_nat a)%Z \/
          (Z.of_nat b < Z.of_nat i <= Z.of_nat b + span)%Z)) /\
      ((Z.of_nat (length cand) < min_needed_frs)%Z ->
       forall f, (a <= f <= b)%nat ->
         coords d' !! f = coords d !! f /\ resid d' !! f = resid d !! f).

(** What relative recovery does with frame [f], given the origin
    trajectory [p0] and the frame rotations [mat_rot]; anchors are the
    frames at which the target and every cluster marker are valid. *)
Definition relative_frame_spec (itf : C3D) (cl_mkr_names : list string)
    (d d' : mkr_data) (p0 : list V3) (mat_rot : list M33) (f : nat) : Prop :=
  let anchor g := valid_at (resid d) g /\ cluster_valid_at itf cl_mkr_names g in
  (invalid_at (resid d) f -> cluster_valid_at itf cl_mkr_names f ->
   exists p M o,
     p0 !! f = Some p /\ mat_rot !! f = Some M /\
     resid d' !! f = Some 0 /\
     coords d' !! f = Some (vadd p (mv M o)) /\
     ((exists f0 f1 o0 o1,
         (f0 < f < f1)%nat /\ anchor f0 /\ anchor f1 /\
         (forall g, (f0 < g < f1)%nat -> ~ anchor g) /\
         local_offset (coords d) p0 mat_rot f0 o0 /\
         local_offset (coords d) p0 mat_rot f1 o1 /\
         o =v= weighted_offset o0 o1 f0 f1 f) \/
      (((forall g, anchor g -> (f < g)%nat) \/
        (forall g, anchor g -> (g < f)%nat)) /\
       exists fa,
         anchor fa /\
         (forall g, anchor g -> (absdiff fa f <= absdiff g f)%Z) /\
         local_offset (coords d) p0 mat_rot fa o))) /\
  (~ cluster_valid_at itf cl_mkr_names f ->
   coords d' !! f = coords d !! f /\ resid d' !! f = resid d !! f).

(** The selection of [recover_marker_relative] and
    [recover_marker_rigidbody] up to the names of the three reference
    markers: [cl_mkr_dist_sorted[0][0]], [[1][0]], [[2][0]]. *)
Definition selected_names (np_sqrt : Q -> Q) (itf : C3D) (tgt_mkr_name : string)
    (cl_mkr_names : list string) : result (list string) :=
  match get_marker_data itf tgt_mkr_name with
  | None => Raise TypeError
  | Some tgt_mkr_data =>
      '(dict_cl_mkr_coords, _) ←
        cluster_fetch itf (get_num_frames itf) cl_mkr_names;
      dict_cl_mkr_dist ←
        cl_mkr_dist np_sqrt dict_cl_mkr_coords (coords tgt_mkr_data) cl_mkr_names;
      Ok (take 3 (fmap fst (sorted_by_dist dict_cl_mkr_dist)))
  end.

(** The selection as the specification words it: the mean distance of a
    cluster marker to the target is taken over the frames at which both are
    valid. *)
Definition mean_dist_common_valid (np_sqrt : Q -> Q) (mkr tgt : mkr_data) : Q :=
  np_mean
    (mask_select (fmap (norm np_sqrt) (zip_with vsub (coords mkr) (coords tgt)))
                 (logical_and (valid_mask (resid mkr)) (valid_mask (resid tgt)))).

Definition selected_names_common_valid (np_sqrt : Q -> Q) (itf : C3D)
    (tgt_mkr_name : string) (cl_mkr_names : list string) : result (list string) :=
  match get_marker_data itf tgt_mkr_name with
  | None => Raise TypeError
  | Some tgt_mkr_data =>
      dist ← for_each
        (fun dist mkr_name =>
           match get_marker_data itf mkr_name with
           | None => Raise TypeError
           | Some mkr_data =>
               Ok (dict_update dist mkr_name
                     (mean_dist_common_valid np_sqrt mkr_data tgt_mkr_data))
           end)
        cl_mkr_names [];
      Ok (take 3 (fmap fst (sorted_by_dist dist)))
  end.

(** ** Instances and example files

    Executable stand-ins for the library routines, exact on the inputs of
    the examples, and small C3D files. *)

(** Square root, exact on squares of rationals. *)
Definition q_sqrt (q : Q) : Q :=
  let r := Qred q in Z.sqrt (Qnum r) # Pos.sqrt (Qden r).

(** Unwritten buffer rows read as zero. *)
Definition zero_uninit (call i : nat) : V3 := vzero.

(** A singular value decomposition of a diagonal matrix whose entries are
    ordered by decreasing magnitude: [U] carries the signs, [Vt] is the
    identity. *)
Definition Qsgn (x : Q) : Q := if Qle_bool 0 x then 1 else -1.
Definition diag_svd (C : M33) : M33 * V3 * M33 :=
  let '((a, _, _), (_, b, _), (_, _, c)) := C in
  (diag3 (Qsgn a) (Qsgn b) (Qsgn c), (Qabs a, Qabs b, Qabs c), I3).

(** The interpolating spline of degree one: the piecewise linear
    interpolant of the knots, holding the edge values outside of them.
    Other degrees are not provided by this instance. *)
Fixpoint interp1 (x : list nat) (y : list Q) (fr : nat) : Q :=
  match x, y with
  | x0 :: ((x1 :: _) as x'), y0 :: ((y1 :: _) as y') =>
      if (fr <=? x0)%nat then y0
      else if (fr <=? x1)%nat then
        y0 + (y1 - y0) * float_of_Z (Z.of_nat fr - Z.of_nat x0)
                       / float_of_Z (Z.of_nat x1 - Z.of_nat x0)
      else interp1 x' y' fr
  | _, y0 :: _ => y0
  | _, _ => 0
  end.
Definition linear_spline (k : Z) (x : list nat) (y : list Q)
    : result (nat -> Q) :=
  if negb (k =? 1)%Z then Raise ValueError
  else if (length x <=? 1)%nat then Raise ValueError
  else Ok (interp1 x y).

(** A file whose first frame has number 1, from the rows of its markers. *)
Definition c3d_of (n : nat) (mkrs : list (string * list (V3 * Q))) : C3D :=
  mkC3D 1 (Z.of_nat n)
    (list_to_map
       (fmap (fun '(name, rows) =>
                (name, fun fr : Z => default (vzero, 0) (rows !! Z.to_nat (fr - 1))))
             mkrs))
    0.

(** Target blocked on two interior frames, donor valid throughout. *)
Definition file_pattern : C3D :=
  c3d_of 4
    [("T", [((1, 1, 1), 0); ((0, 0, 0), -1); ((0, 0, 0), -1); ((4, 4, 4), 0)]);
     ("D", [((0, 1, 1), 0); ((1, 5, 2), 0); ((2, 2, 7), 0); ((3, 4, 4), 0)])]%string.

(** The same brackets with a donor that moves by half a unit along x
    between them; target minus donor is (1, 0, 0) at both brackets. *)
Definition file_pattern_rounding : C3D :=
  c3d_of 4
    [("T", [((1, 0, 0), 0); ((0, 0, 0), -1); ((0, 0, 0), -1); ((3 # 2, 0, 0), 0)]);
     ("D", [((0, 0, 0), 0); ((0, 0, 0), 0); ((0, 0, 0), 0); ((1 # 2, 0, 0), 0)])]%string.

(** A file of one frame, at which the target is valid. *)
Definition file_one_frame : C3D :=
  c3d_of 1
    [("T", [((1, 1, 1), 0)]);
     ("D", [((0, 1, 1), 0)])]%string.

(** Target valid on every frame. *)
Definition file_all_valid : C3D :=
  c3d_of 3
    [("T", [((1, 1, 1), 0); ((2, 1, 1), 0); ((3, 1, 1), 0)]);
     ("D", [((0, 1, 1), 0); ((1, 5, 2), 0); ((2, 2, 7), 0)])]%string.

(** Target blocked on its first frame; one frame at which target and donor
    (or target and cluster) are both valid. *)
Definition file_one_anchor : C3D :=
  c3d_of 2
    [("T", [((0, 0, 0), -1); ((4, 4, 4), 0)]);
     ("D", [((0, 1, 1), 0); ((1, 5, 2), 0)])]%string.

(** Two interior gaps and one gap at each end. *)
Definition file_gaps : C3D :=
  c3d_of 10
    [("T", [((0, 0, 0), -1); ((1, 0, 0), 0); ((2, 0, 0), 0); ((0, 0, 0), -1);
            ((4, 0, 0), 0); ((5, 5, 0), 0); ((0, 0, 0), -1); ((7, 7, 0), 0);
            ((8, 8, 1), 0); ((0, 0, 0), -1)])]%string.

(** A cluster of three markers translating along x; the target rides
    along at offset (3, 4, 0) from "A" and is blocked on two interior
    frames, for which the file stores the position of "A". *)
Definition file_cluster3 : C3D :=
  c3d_of 4
    [("T", [((3, 4, 0), 0); ((1, 0, 0), -1); ((2, 0, 0), -1); ((6, 4, 0), 0)]);
     ("A", [((0, 0, 0), 0); ((1, 0, 0), 0); ((2, 0, 0), 0); ((3, 0, 0), 0)]);
     ("B", [((3, 0, 0), 0); ((4, 0, 0), 0); ((5, 0, 0), 0); ((6, 0, 0), 0)]);
     ("C", [((0, 4, 0), 0); ((1, 4, 0), 0); ((2, 4, 0), 0); ((3, 4, 0), 0)])]%string.

(** A planar cluster of four markers translating along x, with diagonal
    cross-covariance; target above it, blocked on two interior frames. *)
Definition file_cluster4 : C3D :=
  c3d_of 4
    [("T", [((0, 0, 5), 0); ((0, 0, 0), -1); ((0, 0, 0), -1); ((3, 0, 5), 0)]);
     ("P", [((2, 0, 0), 0); ((3, 0, 0), 0); ((4, 0, 0), 0); ((5, 0, 0), 0)]);
     ("Q", [((-2, 0, 0), 0); ((-1, 0, 0), 0); ((0, 0, 0), 0); ((1, 0, 0), 0)]);
     ("R", [((0, 1, 0), 0); ((1, 1, 0), 0); ((2, 1, 0), 0); ((3, 1, 0), 0)]);
     ("S", [((0, -1, 0), 0); ((1, -1, 0), 0); ((2, -1, 0), 0); ((3, -1, 0), 0)])]%string.


(** The target is valid at the origin on frame 0 and blocked on frame 1,
    where the file stores the origin for it.  Marker "A" is the nearest one
    where the target is valid and far away on the blocked frame. *)
Definition file_selection : C3D :=
  c3d_of 2
    [("T", [((0, 0, 0), 0); ((0, 0, 0), -1)]);
     ("A", [((1, 0, 0), 0); ((100, 0, 0), 0)]);
     ("B", [((2, 0, 0), 0); ((2, 0, 0), 0)]);
     ("C", [((0, 3, 0), 0); ((0, 3, 0), 0)]);
     ("D", [((0, 0, 4), 0); ((0, 0, 4), 0)])]%string.




(** * Vocabulary of the further properties *)

(** The state a run ends in: the one it was given, or the one after the
    write-back of the repaired arrays, and then it reports an update and
    the number of valid frames in what it wrote. *)
Definition ends_in (itf : C3D) (tgt : string) (run : result (bool * nat) * C3D)
    : Prop :=
  run.2 = itf /\ (forall n, run.1 <> Ok (true, n)) \/
  exists c r, run = write_back itf tgt c r.

(** The five repair routines run on the same file. *)
Definition strategy_runs (np_sqrt : Q -> Q) (np_uninit : nat -> nat -> V3)
    (np_svd : M33 -> M33 * V3 * M33)
    (spline : Z -> list nat -> list Q -> result (nat -> Q))
    (itf : C3D) (tgt_mkr_name : string) (cl_mkr_names : list string)
    (dnr_mkr_name : string) (k search_span_offset min_needed_frs : Z)
    : list (result (bool * nat) * C3D) :=
  [recover_marker_relative np_sqrt np_uninit itf tgt_mkr_name cl_mkr_names;
   recover_marker_rigidbody np_sqrt np_uninit itf tgt_mkr_name cl_mkr_names;
   fill_marker_gap_rigidbody np_sqrt np_svd itf tgt_mkr_name cl_mkr_names;
   fill_marker_gap_pattern itf tgt_mkr_name dnr_mkr_name;
   fill_marker_gap_interp spline itf tgt_mkr_name k search_span_offset
     min_needed_frs].

(** What a run reports about the target [d] it read, [d'] being the
    target read back afterwards: the number of valid frames of [d'];
    with [updated = True] the frame effect holds and some blocked frame
    now carries residual 0, with [updated = False] nothing has changed. *)
Definition reports (d d' : mkr_data) (updated : bool) (n : nat) : Prop :=
  n = count_nonzero (valid_mask (resid d')) /\
  if updated then
    frame_effect d d' /\
    exists f, invalid_at (resid d) f /\ resid d' !! f = Some 0
  else d' = d.

(** [v] is the target's offset from the origin marker at the anchor [g],
    carried over to frame [f] by the rotation [M_f M_g^T] between the two
    local frames. *)
Definition carried_offset (tgt_mkr_coords p0 : list V3) (mat_rot : list M33)
    (f g : nat) (v : V3) : Prop :=
  exists t p Mf Mg,
    tgt_mkr_coords !! g = Some t /\ p0 !! g = Some p /\
    mat_rot !! f = Some Mf /\ mat_rot !! g = Some Mg /\
    v = mv (mm Mf (mT Mg)) (vsub t p).

(** What rigid-body recovery does with frame [f], given the origin
    trajectory [p0] and the frame rotations [mat_rot]; anchors are the
    frames at which the target and every cluster marker are valid.  A
    blocked frame at which the whole cluster is valid gets residual 0 and
    the position [p0 + vc]: with an anchor on either side, [vc] is the
    mean of the offsets carried over from the neighbouring anchors
    [f0 < f < f1], weighted by [b/(a+b)] and [a/(a+b)]; before the first
    anchor (after the last one) it is the offset carried over from it. *)
Definition rigidbody_frame_spec (itf : C3D) (cl_mkr_names : list string)
    (d d' : mkr_data) (p0 : list V3) (mat_rot : list M33) (f : nat) : Prop :=
  let anchor g := valid_at (resid d) g /\ cluster_valid_at itf cl_mkr_names g in
  (invalid_at (resid d) f -> cluster_valid_at itf cl_mkr_names f ->
   exists p vc,
     p0 !! f = Some p /\
     resid d' !! f = Some 0 /\
     coords d' !! f = Some (vadd p vc) /\
     ((exists f0 f1 v0 v1,
         (f0 < f < f1)%nat /\ anchor f0 /\ anchor f1 /\
         (forall g, (f0 < g < f1)%nat -> ~ anchor g) /\
         carried_offset (coords d) p0 mat_rot f f0 v0 /\
         carried_offset (coords d) p0 mat_rot f f1 v1 /\
         vc =v= weighted_offset v0 v1 f0 f1 f) \/
      (exists fa,
         anchor fa /\
         (((f < fa)%nat /\ forall g, anchor g -> (fa <= g)%nat) \/
          ((fa < f)%nat /\ forall g, anchor g -> (g <= fa)%nat)) /\
         carried_offset (coords d) p0 mat_rot f fa vc))) /\
  (~ cluster_valid_at itf cl_mkr_names f ->
   coords d' !! f = coords d !! f /\ resid d' !! f = resid d !! f).

(** * The accessors in full

    The model of the repair routines reads a marker through a map from
    labels to trajectories and takes the optional arguments of the
    accessors at their defaults.  The module below embeds the accessors
    with their arguments and with the queries they put to the server: the
    items of POINT:LABELS, the count POINT:USED, the point data by point
    index and the frame range.

    Conventions.
    - [None] in a result is Python's [None]; a row of coordinates [None]
      is a row of NaN.
    - Python's [False] in the place of a frame number is the integer 0,
      for Python's comparisons and arithmetic and for the server alike.
    - The server answers every point-data request for an integer point
      index with one sample per requested frame.  What the automation
      layer does with an index [None] is not fixed by the repository; it
      is the field [point_none] (an answer or an error). *)
Module Itf.

(** An accessor returns, raises a Python exception, or fails in the
    automation layer. *)
Inductive outcome (A : Type) :=
  | Return (a : A)
  | Throw (e : exn)
  | ComError.
Arguments Return {A} a.
Arguments Throw {A} e.
Arguments ComError {A}.

#[global] Instance outcome_ret : MRet outcome := fun _ a => Return a.
#[global] Instance outcome_bind : MBind outcome := fun _ _ f m =>
  match m with
  | Return a => f a
  | Throw e => Throw e
  | ComError => ComError
  end.

Record t := mk {
  video_frame_first : Z;                 (* itf.GetVideoFrame(0) *)
  video_frame_last : Z;                  (* itf.GetVideoFrame(1) *)
  point_labels : option (list string);   (* items of POINT:LABELS, if present *)
  point_used : option Z;                 (* item 0 of POINT:USED, if present *)
  point : Z -> Z -> V3 * Q;              (* point index -> frame -> data *)
  point_none : outcome (Z -> V3 * Q)     (* the answer to an index None *)
}.

Definition get_first_frame (itf : t) : Z := video_frame_first itf.
Definition get_last_frame (itf : t) : Z := video_frame_last itf.
Definition get_num_frames (itf : t) : Z :=
  (get_last_frame itf - get_first_frame itf + 1)%Z.

(** [check_frame_range_valid(itf, start_frame, end_frame)]: [None] stands
    for the answer [(False, None, None)], [Some (a, b)] for
    [(True, a, b)]. *)
Definition check_frame_range_valid (itf : t) (start_frame end_frame : option Z)
    : option (Z * Z) :=
  let first_fr := get_first_frame itf in
  let last_fr := get_last_frame itf in
  match
    match start_frame with
    | None => Some first_fr
    | Some start_frame =>
        if (start_frame <? first_fr)%Z then None else Some start_frame
    end
  with
  | None => None
  | Some start_fr =>
      match
        match end_frame with
        | None => Some last_fr
        | Some end_frame =>
            if (last_fr <? end_frame)%Z then None else Some end_frame
        end
      with
      | None => None
      | Some end_fr =>
          if negb (start_fr <? end_fr)%Z then None else Some (start_fr, end_fr)
      end
  end.

(** The loop [for i in range(n_pt_labels): if i < n_pt_used: ...] of
    [get_marker_names], from index [i] on. *)
Fixpoint names_from (i : Z) (labels : list string) (n_pt_used : Z)
    : list string :=
  match labels with
  | [] => []
  | l :: labels' =>
      if (i <? n_pt_used)%Z then l :: names_from (i + 1) labels' n_pt_used
      else names_from (i + 1) labels' n_pt_used
  end.

Definition get_marker_names (itf : t) : option (list string) :=
  match point_labels itf with
  | None => None
  | Some labels =>
      let n_pt_labels := Z.of_nat (length labels) in
      if (n_pt_labels <? 1)%Z then None else
      match point_used itf with
      | None => None
      | Some n_pt_used =>
          if (n_pt_used <? 1)%Z then None
          else Some (names_from 0 labels n_pt_used)
      end
  end.

(** The search loop of [get_marker_index], from index [i] on: the first
    index below [n_pt_used] whose label is [mkr_name], else -1. *)
Fixpoint index_from (i : Z) (labels : list string) (n_pt_used : Z)
    (mkr_name : string) : Z :=
  match labels with
  | [] => -1
  | tgt_name :: labels' =>
      if (i <? n_pt_used)%Z && String.eqb tgt_name mkr_name then i
      else index_from (i + 1) labels' n_pt_used mkr_name
  end.

Definition get_marker_index (itf : t) (mkr_name : string) : option Z :=
  match point_labels itf with
  | None => None
  | Some labels =>
      let n_pt_labels := Z.of_nat (length labels) in
      if (n_pt_labels <? 1)%Z then None else
      match point_used itf with
      | None => None
      | Some n_pt_used =>
          if (n_pt_used <? 1)%Z then None
          else Some (index_from 0 labels n_pt_used mkr_name)
      end
  end.

(** The (n,4) array of [get_marker_data]: coordinate rows, NaN rows as
    [None], and the residual column. *)
Record rows := mkRows {
  pos : list (option V3);
  res : list Q
}.

(** The answer of [GetPointDataEx] / [GetPointResidualEx] for the index
    the wrapper passes. *)
Definition point_of (itf : t) (mkr_idx : option Z) : outcome (Z -> V3 * Q) :=
  match mkr_idx with
  | Some i => Return (point itf i)
  | None => point_none itf
  end.

(** [mkr_data[mkr_null_masks, 0:3] = np.nan] *)
Definition blocked_to_nan (xyz : list V3) (resid : list Q) : list (option V3) :=
  zip_with (fun v r => if isclose r (-1) then None else Some v) xyz resid.

Definition get_marker_data (itf : t) (mkr_name : string) (blocked_nan : bool)
    (start_frame end_frame : option Z) : outcome (option rows) :=
  let mkr_idx := get_marker_index itf mkr_name in
  if decide (mkr_idx = Some (-1)%Z) then Return None else
  match check_frame_range_valid itf start_frame end_frame with
  | None => Return None
  | Some (start_fr, end_fr) =>
      let n_frs := (end_fr - start_fr + 1)%Z in
      p ← point_of itf mkr_idx;
      let frs := (fun i => (start_fr + Z.of_nat i)%Z) <$> seq 0 (Z.to_nat n_frs) in
      let xyz := (fun fr => (p fr).1) <$> frs in
      let resid := (fun fr => (p fr).2) <$> frs in
      Return (Some (mkRows (if blocked_nan then blocked_to_nan xyz resid
                            else Some <$> xyz)
                           resid))
  end.

(** [for x in l: st = body(st, x)] in [outcome]. *)
Fixpoint for_each {S A} (body : S -> A -> outcome S) (l : list A) (st : S)
    : outcome S :=
  match l with
  | [] => Return st
  | x :: l' => st' ← body st x; for_each body l' st'
  end.

(** One cell of a float array: [None] is NaN. *)
Definition cell : Type := option Q.

(** The three cells of a coordinate row. *)
Definition cells (v : option V3) : cell * cell * cell :=
  match v with
  | Some (x, y, z) => (Some x, Some y, Some z)
  | None => (None, None, None)
  end.

(** [row[c0:c0+3] = v] *)
Definition set_row (row : list cell) (c0 : nat) (v : option V3) : list cell :=
  let '(x, y, z) := cells v in
  <[(c0 + 2)%nat := z]> (<[(c0 + 1)%nat := y]> (<[c0 := x]> row)).

(** Assignment of [data], of shape (k, 3), to a slice of [arr] that
    takes three cells of each of its [n] rows ([arr[:, c0:c0+3] = data],
    [arr[:, idx, 0:3] = data]); [upd] writes one row.  [data] must have
    [n] rows, or one row, which is then written to every row of [arr]; any
    other shape cannot be broadcast and raises [ValueError]. *)
Definition assign_rows {R} (upd : R -> option V3 -> R) (arr : list R)
    (data : list (option V3)) : outcome (list R) :=
  if (length data =? length arr)%nat then Return (zip_with upd arr data)
  else
    match data with
    | [v] => Return ((fun row => upd row v) <$> arr)
    | _ => Throw ValueError
    end.

(** [enumerate(l)] *)
Definition enumerate {A} (l : list A) : list (nat * A) := imap pair l.

(** The body shared by [get_all_marker_pos_arr2d] and
    [get_all_marker_pos_arr3d], with [msg] at its default [False]: an
    array of zeros with one row [row0] per frame, filled marker by marker
    with [upd idx].  The call
    [get_marker_data(itf, mkr_name, blocked_nan, msg)] passes [msg] in the
    position of [start_frame]. *)
Definition all_marker_pos {R} (row0 : nat -> R)
    (upd : nat -> R -> option V3 -> R) (itf : t) (blocked_nan : bool)
    : outcome (list R) :=
  let msg := 0%Z in
  match get_marker_names itf with
  | None => Throw TypeError
  | Some mkr_names =>
      let n_frs := get_num_frames itf in
      if (n_frs <? 0)%Z then Throw ValueError else
      let mkr_coords_all :=
        replicate (Z.to_nat n_frs) (row0 (length mkr_names)) in
      for_each
        (fun mkr_coords_all '(idx, mkr_name) =>
           mkr_data ← get_marker_data itf mkr_name blocked_nan (Some msg) None;
           match mkr_data with
           | None => Throw TypeError
           | Some mkr_data => assign_rows (upd idx) mkr_coords_all (pos mkr_data)
           end)
        (enumerate mkr_names) mkr_coords_all
  end.

(** [get_all_marker_pos_arr2d]: shape (n, m*3),
    [mkr_coords_all[:, 3*idx+0:3*idx+3] = mkr_data[:, 0:3]]. *)
Definition get_all_marker_pos_arr2d (itf : t) (blocked_nan : bool)
    : outcome (list (list cell)) :=
  all_marker_pos (fun m => replicate (m * 3)%nat (Some 0))
                 (fun idx row v => set_row row (3 * idx)%nat v)
                 itf blocked_nan.

(** [get_all_marker_pos_arr3d]: shape (n, m, 3),
    [mkr_coords_all[:, idx, 0:3] = mkr_coords[:, 0:3]]. *)
Definition get_all_marker_pos_arr3d (itf : t) (blocked_nan : bool)
    : outcome (list (list (option V3))) :=
  all_marker_pos (fun m => replicate m (Some vzero))
                 (fun idx row v => <[idx := v]> row)
                 itf blocked_nan.

End Itf.

(** ** Vocabulary for the accessors *)

(** [i] is the first position of [mkr_name] among [mkr_names]. *)
Definition first_position (mkr_names : list string) (mkr_name : string)
    (i : nat) : Prop :=
  mkr_names !! i = Some mkr_name /\
  forall j, (j < i)%nat -> mkr_names !! j <> Some mkr_name.

(** The coordinate row read for a sample: NaN if [blocked_nan] is set and
    the residual is (close to) -1. *)
Definition masked (blocked_nan : bool) (sample : V3 * Q) : option V3 :=
  if blocked_nan && isclose sample.2 (-1) then None else Some sample.1.

(** The three cells of a coordinate row, as a list. *)
Definition cell_list (v : option V3) : list Itf.cell :=
  let '(x, y, z) := Itf.cells v in [x; y; z].

(** ** Vocabulary for the spline fill *)

(** The gap [g] of the target [d] is filled in [d']: the three splines
    of degree [k] through the candidate frames of [g] and the coordinates
    that [d] has there exist, and every frame of [g] carries residual 0
    and their values. *)
Definition gap_filled (spline : Z -> list nat -> list Q -> result (nat -> Q))
    (n_total_frs k search_span_offset : Z) (d d' : mkr_data) (g : list nat)
    : Prop :=
  let itpl_cand_frs :=
    np_where (itpl_cand_frs_mask n_total_frs (valid_mask (resid d))
                (search_span_of g search_span_offset) g) in
  exists itpl_cand_coords fun_itpl_x fun_itpl_y fun_itpl_z,
    gather (coords d) itpl_cand_frs = Ok itpl_cand_coords /\
    spline k itpl_cand_frs ((fun v : V3 => v.1.1) <$> itpl_cand_coords)
      = Ok fun_itpl_x /\
    spline k itpl_cand_frs ((fun v : V3 => v.1.2) <$> itpl_cand_coords)
      = Ok fun_itpl_y /\
    spline k itpl_cand_frs ((fun v : V3 => v.2) <$> itpl_cand_coords)
      = Ok fun_itpl_z /\
    forall f, f ∈ g ->
      resid d' !! f = Some 0 /\
      coords d' !! f = Some (fun_itpl_x f, fun_itpl_y f, fun_itpl_z f).

(** ** Example servers

    A server whose frames are numbered from [first_fr], from the rows of
    its points. *)
Definition server_of (first_fr : Z) (n : nat) (labels : list string)
    (n_pt_used : Z) (pts : list (list (V3 * Q))) : Itf.t :=
  Itf.mk first_fr (first_fr + Z.of_nat n - 1) (Some labels) (Some n_pt_used)
    (fun i fr =>
       default (vzero, 0)
         (pts !! Z.to_nat i ≫= fun rows => rows !! Z.to_nat (fr - first_fr)))
    Itf.ComError.

(** Three points over three frames; the third repeats the label of the
    first, which is blocked on its second frame. *)
Definition three_points : list (list (V3 * Q)) :=
  [[((1, 1, 1), 0); ((0, 0, 0), -1); ((3, 3, 3), 0)];
   [((0, 1, 1), 0); ((1, 5, 2), 0); ((2, 2, 7), 0)];
   [((9, 9, 9), 0); ((8, 8, 8), 0); ((7, 7, 7), 0)]].

Definition server_from_one : Itf.t :=
  server_of 1 3 ["T"; "D"; "T"]%string 3 three_points.
Definition server_from_zero : Itf.t :=
  server_of 0 3 ["T"; "D"; "T"]%string 3 three_points.
Definition server_from_minus_one : Itf.t :=
  server_of (-1) 3 ["T"; "D"; "T"]%string 3 three_points.

(** The rows an accessor returned, if it returned any. *)
Definition rows_or_empty (o : Itf.outcome (option Itf.rows)) : Itf.rows :=
  match o with
  | Itf.Return (Some d) => d
  | _ => Itf.mkRows [] []
  end.

(** ** The file a labelled server stands for

    The model of the repair routines reads a marker by its label.  For a
    server that names its markers the record of a label is the point at
    the first position of the label among the names, which is the point
    [get_marker_index] finds. *)
Definition file_of (s : Itf.t) : option C3D :=
  match Itf.get_marker_names s with
  | None => None
  | Some mkr_names =>
      Some (mkC3D (Itf.get_first_frame s) (Itf.get_last_frame s)
              (list_to_map
                 (imap (fun i mkr_name => (mkr_name, Itf.point s (Z.of_nat i)))
                       mkr_names))
              0)
  end.

(** The array of [get_marker_data] without NaN rows. *)
Definition rows_of (d : mkr_data) : Itf.rows :=
  Itf.mkRows (Some <$> coords d) (resid d).

(** * Properties *)

(** ** The accessors *)

Lemma get_marker_data_Some itf name d :
  get_marker_data itf name = Some d ->
  (2 <= get_num_frames itf)%Z /\
  length (coords d) = Z.to_nat (get_num_frames itf) /\
  length (resid d) = Z.to_nat (get_num_frames itf).
Proof.
  unfold get_marker_data, check_frame_range_valid, get_num_frames,
    get_first_frame, get_last_frame.
  destruct (points itf !! name) as [p|]; [|discriminate].
  destruct (video_first itf <? video_last itf)%Z eqn:Hlt; simpl; [|discriminate].
  intros [= <-]. simpl. rewrite !length_fmap, !length_seq.
  apply Z.ltb_lt in Hlt. repeat split; lia.
Qed.

(** ** Validity masks *)

Lemma length_valid_mask r : length (valid_mask r) = length r.
Proof. unfold valid_mask. apply length_fmap. Qed.

Lemma count_nonzero_le mask : (count_nonzero mask <= length mask)%nat.
Proof. unfold count_nonzero. apply length_filter. Qed.

Lemma count_all_valid r :
  Forall (fun x => isclose x (-1) = false) r ->
  count_nonzero (valid_mask r) = length r.
Proof.
  unfold count_nonzero, valid_mask.
  induction 1 as [|x r Hx _ IH]; [reflexivity|].
  rewrite fmap_cons, Hx, filter_cons_True by reflexivity. simpl. now rewrite IH.
Qed.

Lemma count_all_invalid r :
  Forall (fun x => isclose x (-1) = true) r ->
  count_nonzero (valid_mask r) = 0%nat.
Proof.
  unfold count_nonzero, valid_mask.
  induction 1 as [|x r Hx _ IH]; [reflexivity|].
  rewrite fmap_cons, Hx, filter_cons_False by discriminate. exact IH.
Qed.

(** The guard that opens every strategy fires on a degenerate target. *)
Lemma degenerate_guard itf name d :
  get_marker_data itf name = Some d ->
  Forall (fun x => isclose x (-1) = false) (resid d) \/
  Forall (fun x => isclose x (-1) = true) (resid d) ->
  let n := count_nonzero (valid_mask (resid d)) in
  (n =? 0)%nat = true \/
  ((n =? 0)%nat = false /\ (Z.of_nat n =? get_num_frames itf)%Z = true).
Proof.
  intros Hget Hdeg n. subst n.
  destruct (get_marker_data_Some _ _ _ Hget) as (Hn & _ & Hlen).
  destruct Hdeg as [Hv|Hi].
  - right. rewrite (count_all_valid _ Hv), Hlen. split.
    + apply Nat.eqb_neq. lia.
    + apply Z.eqb_eq. lia.
  - left. now rewrite (count_all_invalid _ Hi).
Qed.

Section DegenerateTargets.

Variable np_sqrt : Q -> Q.
Variable np_uninit : nat -> nat -> V3.
Variable np_svd : M33 -> M33 * V3 * M33.
Variable spline : Z -> list nat -> list Q -> result (nat -> Q).

(** C1. On a target trajectory of two frames or more, as [get_marker_data]
    returns it, whose frames are all valid, or all invalid, each of the
    five strategies returns [(False, n)] with [n] the number of valid
    frames, and hands back the server state it was given: no update
    request is issued and the stored trajectory is the one read. *)
Theorem degenerate_target_is_noop itf tgt_mkr_name d
    (cl_mkr_names : list string) (dnr_mkr_name : string)
    (k search_span_offset min_needed_frs : Z) :
  get_marker_data itf tgt_mkr_name = Some d ->
  Forall (fun x => isclose x (-1) = false) (resid d) \/
  Forall (fun x => isclose x (-1) = true) (resid d) ->
  let n := count_nonzero (valid_mask (resid d)) in
  recover_marker_relative np_sqrt np_uninit itf tgt_mkr_name cl_mkr_names
    = (Ok (false, n), itf) /\
  recover_marker_rigidbody np_sqrt np_uninit itf tgt_mkr_name cl_mkr_names
    = (Ok (false, n), itf) /\
  fill_marker_gap_rigidbody np_sqrt np_svd itf tgt_mkr_name cl_mkr_names
    = (Ok (false, n), itf) /\
  fill_marker_gap_pattern itf tgt_mkr_name dnr_mkr_name
    = (Ok (false, n), itf) /\
  fill_marker_gap_interp spline itf tgt_mkr_name k search_span_offset
      min_needed_frs
    = (Ok (false, n), itf).
Proof.
  intros Hget Hdeg n.
  pose proof (degenerate_guard _ _ _ Hget Hdeg) as Hg. fold n in Hg.
  unfold recover_marker_relative, recover_marker_rigidbody,
    fill_marker_gap_rigidbody, fill_marker_gap_pattern, fill_marker_gap_interp.
  rewrite Hget. fold n.
  destruct Hg as [H0|[H0 HN]]; rewrite H0; [|rewrite HN]; simpl; auto.
Qed.

End DegenerateTargets.

(** ** Masks and index arrays *)

Lemma elem_of_where_from i mask x :
  x ∈ where_from i mask <-> exists j, x = (i + j)%nat /\ mask !! j = Some true.
Proof.
  revert i. induction mask as [|b m IH]; intros i; simpl.
  - split; [intros H; inversion H | intros (j & _ & H); discriminate].
  - assert (Hrest : x ∈ where_from (S i) m <->
              exists j, x = (i + S j)%nat /\ m !! j = Some true).
    { rewrite IH. split; intros (j & -> & Hj); exists j; split; auto; lia. }
    destruct b.
    + rewrite elem_of_cons, Hrest. split.
      * intros [->|(j & -> & Hj)]; [exists 0%nat | exists (S j)]; simpl; split; auto; lia.
      * intros ([|j] & -> & Hj); [left; lia | right; exists j; auto].
    + rewrite Hrest. split.
      * intros (j & -> & Hj). exists (S j). auto.
      * intros ([|j] & -> & Hj); [discriminate | exists j; auto].
Qed.

Lemma elem_of_np_where mask x :
  x ∈ np_where mask <-> mask !! x = Some true.
Proof.
  unfold np_where. rewrite elem_of_where_from. split.
  - intros (j & -> & Hj). exact Hj.
  - intros H. exists x. auto.
Qed.

Lemma np_where_lt mask x : x ∈ np_where mask -> (x < length mask)%nat.
Proof. rewrite elem_of_np_where. apply lookup_lt_Some. Qed.

Lemma where_from_sorted i mask : StronglySorted lt (where_from i mask).
Proof.
  revert i. induction mask as [|b m IH]; intros i; simpl; [constructor|].
  destruct b; [|apply IH].
  constructor; [apply IH|].
  apply Forall_forall. intros x Hx.
  apply elem_of_where_from in Hx as (j & -> & _). lia.
Qed.

Lemma np_where_sorted mask : StronglySorted lt (np_where mask).
Proof. apply where_from_sorted. Qed.

Lemma sorted_lt_NoDup (l : list nat) : StronglySorted lt l -> NoDup l.
Proof.
  induction 1 as [|x l _ IH Hx]; constructor; auto.
  intros Hin. rewrite Forall_forall in Hx. specialize (Hx _ Hin). lia.
Qed.

Lemma np_where_NoDup mask : NoDup (np_where mask).
Proof. apply sorted_lt_NoDup, np_where_sorted. Qed.

Lemma sorted_lt_lookup (l : list nat) i j x y :
  StronglySorted lt l -> l !! i = Some x -> l !! j = Some y ->
  (i < j)%nat -> (x < y)%nat.
Proof.
  intros Hs. revert i j. induction Hs as [|a l _ IH Ha]; intros i j Hi Hj Hij.
  - discriminate.
  - destruct j as [|j]; [lia|]. simpl in Hj. destruct i as [|i].
    + simpl in Hi. injection Hi as <-. rewrite Forall_forall in Ha.
      apply Ha. eapply list_elem_of_lookup_2; eauto.
    + simpl in Hi. eapply IH; eauto. lia.
Qed.

Lemma logical_and_true m1 m2 i :
  logical_and m1 m2 !! i = Some true <->
  m1 !! i = Some true /\ m2 !! i = Some true.
Proof.
  unfold logical_and. rewrite lookup_zip_with.
  destruct (m1 !! i) as [[]|], (m2 !! i) as [[]|]; simpl; intuition congruence.
Qed.

Lemma length_logical_and m1 m2 :
  length (logical_and m1 m2) = Nat.min (length m1) (length m2).
Proof. apply length_zip_with. Qed.

Lemma logical_not_true m i :
  logical_not m !! i = Some true <-> m !! i = Some false.
Proof.
  unfold logical_not. rewrite list_lookup_fmap.
  destruct (m !! i) as [[]|]; simpl; intuition congruence.
Qed.

Lemma valid_mask_lookup r i :
  valid_mask r !! i = (fun x => negb (isclose x (-1))) <$> r !! i.
Proof.
  unfold valid_mask. rewrite list_lookup_fmap.
  destruct (r !! i) as [x|]; simpl; [|reflexivity].
  now destruct (isclose x (-1)).
Qed.

Lemma np_any_true mask :
  np_any mask = true <-> exists i, mask !! i = Some true.
Proof.
  unfold np_any. rewrite existsb_exists. split.
  - intros (b & Hin & ->). apply list_elem_of_In, list_elem_of_lookup in Hin. exact Hin.
  - intros (i & Hi). exists true. split; [|reflexivity].
    apply list_elem_of_In. eapply list_elem_of_lookup_2; eauto.
Qed.

Lemma np_any_false mask :
  np_any mask = false <-> forall i, mask !! i <> Some true.
Proof.
  rewrite <- not_true_iff_false, np_any_true. split.
  - intros H i Hi. apply H. eauto.
  - intros H (i & Hi). exact (H i Hi).
Qed.

Lemma lookup_slice {A} (a : list A) lo hi i :
  slice a lo hi !! i = if decide (i < hi - lo)%nat then a !! (lo + i)%nat else None.
Proof.
  unfold slice. case_decide.
  - rewrite lookup_take_lt by assumption. apply lookup_drop.
  - apply lookup_take_ge. lia.
Qed.

(** No [False] entry in [mask[lo:hi+1]]: the mask holds on all of
    [lo..hi] that lies inside the array. *)
Lemma span_all_true mask lo hi :
  np_any (logical_not (slice mask lo (hi + 1))) = false ->
  forall g, (lo <= g <= hi)%nat -> (g < length mask)%nat -> mask !! g = Some true.
Proof.
  intros Hany g Hg Hlen. rewrite np_any_false in Hany.
  specialize (Hany (g - lo)%nat). rewrite logical_not_true, lookup_slice in Hany.
  case_decide; [|lia]. replace (lo + (g - lo))%nat with g in Hany by lia.
  destruct (lookup_lt_is_Some_2 mask g Hlen) as [[] Hb]; congruence.
Qed.

(** ** Python subscripts *)

Lemma py_get_nat {A} (a : list A) (i : nat) :
  py_get a (Z.of_nat i) = match a !! i with Some x => Ok x | None => Raise IndexError end.
Proof.
  unfold py_get. destruct (Z.ltb_spec (Z.of_nat i) 0); [lia|].
  rewrite Nat2Z.id.
  destruct (Z.leb_spec 0 (Z.of_nat i)); [|lia]. simpl.
  destruct (Z.ltb_spec (Z.of_nat i) (Z.of_nat (length a))); [reflexivity|].
  rewrite lookup_ge_None_2 by lia. reflexivity.
Qed.

Lemma py_at_Ok {A} (a : list A) i x : py_at a i = Ok x <-> a !! i = Some x.
Proof.
  unfold py_at. rewrite py_get_nat.
  destruct (a !! i); split; intros H; inversion H; reflexivity.
Qed.

Lemma py_get_Ok_nonneg {A} (a : list A) (i : Z) x :
  (0 <= i)%Z -> py_get a i = Ok x -> a !! Z.to_nat i = Some x.
Proof.
  intros Hi. rewrite <- (Z2Nat.id i) at 1 by assumption.
  rewrite py_get_nat. destruct (a !! Z.to_nat i); intros H; inversion H; reflexivity.
Qed.

Lemma py_get_Ok_elem {A} (a : list A) (i : Z) x : py_get a i = Ok x -> x ∈ a.
Proof.
  unfold py_get. destruct (_ && _); [|discriminate].
  destruct (a !! _) eqn:E; [|discriminate]. intros [= <-].
  eapply list_elem_of_lookup_2; eauto.
Qed.

Lemma py_set_Ok {A} (a : list A) i x a' :
  py_set a i x = Ok a' <-> (i < length a)%nat /\ a' = <[i := x]> a.
Proof.
  unfold py_set. destruct (Nat.ltb_spec i (length a)); split.
  - intros [= <-]. auto.
  - intros [_ ->]. reflexivity.
  - discriminate.
  - intros [? _]. lia.
Qed.

(** ** Loops *)

Lemma for_each_app {S A} (body : S -> A -> result S) l1 l2 st :
  for_each body (l1 ++ l2) st =
  match for_each body l1 st with
  | Ok st1 => for_each body l2 st1
  | Raise e => Raise e
  end.
Proof.
  revert st. induction l1 as [|x l1 IH]; intros st; simpl; [reflexivity|].
  destruct (body st x); simpl; [apply IH | reflexivity].
Qed.

Lemma for_each_inv {S A} (body : S -> A -> result S) (I : S -> Prop) l st0 stf :
  (forall st x st', I st -> x ∈ l -> body st x = Ok st' -> I st') ->
  I st0 -> for_each body l st0 = Ok stf -> I stf.
Proof.
  revert st0. induction l as [|x l IH]; intros st0 Hstep H0; simpl.
  - intros [= <-]. exact H0.
  - destruct (body st0 x) as [st1|] eqn:E; simpl; [|discriminate].
    apply IH.
    + intros st y st' HI Hy. apply Hstep; [exact HI | now right].
    + eapply Hstep; eauto. now left.
Qed.

Lemma map_result_Ok {A B} (f : A -> result B) l ys :
  map_result f l = Ok ys ->
  length ys = length l /\
  forall k x, l !! k = Some x -> exists y, ys !! k = Some y /\ f x = Ok y.
Proof.
  revert ys. induction l as [|x l IH]; intros ys; simpl.
  - intros [= <-]. split; [reflexivity|]. intros k y H. discriminate.
  - destruct (f x) as [y|] eqn:Ey; simpl; [|discriminate].
    destruct (map_result f l) as [ys'|]; simpl; [|discriminate].
    intros [= <-]. destruct (IH _ eq_refl) as [Hlen Hk]. split; [simpl; lia|].
    intros [|k] z Hz; simpl in *.
    + injection Hz as <-. eauto.
    + apply Hk, Hz.
Qed.

(** Inversion of one step of a computation in [result] that ended in
    [Ok]. *)
Ltac ok_step H :=
  unfold mbind, result_bind in H;
  lazymatch type of H with
  | (match ?m with Ok _ => _ | Raise _ => _ end) = Ok _ =>
      let E := fresh "E" in destruct m eqn:E; [|discriminate H]
  | (if ?c then _ else _) = Ok _ =>
      let E := fresh "E" in destruct c eqn:E
  | (let '(_, _) := ?p in _) = Ok _ => destruct p
  end.

(** The same, leaving destructuring lets alone. *)
Ltac ok_bind H :=
  unfold mbind, result_bind in H;
  lazymatch type of H with
  | (match ?m with Ok _ => _ | Raise _ => _ end) = Ok _ =>
      let E := fresh "E" in destruct m eqn:E; [|discriminate H]
  | (if ?c then _ else _) = Ok _ =>
      let E := fresh "E" in destruct c eqn:E
  end.

(** ** Write-back *)

Lemma fmap_seq_lookup {A} (f : nat -> A) (c : list A) n :
  length c = n -> (forall i x, c !! i = Some x -> f i = x) ->
  f <$> seq 0 n = c.
Proof.
  intros Hlen Hf. apply list_eq. intros i.
  rewrite list_lookup_fmap. destruct (c !! i) as [x|] eqn:E.
  - rewrite lookup_seq_lt by (apply lookup_lt_Some in E; lia). simpl.
    f_equal. apply Hf, E.
  - rewrite lookup_seq_ge by (apply lookup_ge_None in E; lia). reflexivity.
Qed.

Lemma get_after_write_back itf name d c r :
  get_marker_data itf name = Some d ->
  length c = length (coords d) -> length r = length (resid d) ->
  get_marker_data (write_back itf name c r).2 name = Some (mkData c r).
Proof.
  intros Hget Hc Hr.
  destruct (get_marker_data_Some _ _ _ Hget) as (Hn & Hlc & Hlr).
  unfold get_marker_data in Hget.
  destruct (points itf !! name) as [p|] eqn:Hp; [|discriminate]. clear Hget.
  unfold write_back, update_marker_pos. cbn [snd]. rewrite Hp.
  assert (Hc' : (Z.of_nat (length c) =? get_num_frames itf)%Z = true)
    by (apply Z.eqb_eq; lia).
  rewrite Hc'. cbn [negb].
  unfold update_marker_residual. cbn [points]. rewrite lookup_insert_eq.
  unfold get_num_frames, get_first_frame, get_last_frame in *.
  cbn [video_first video_last points set_calls].
  assert (Hr' : (Z.of_nat (length r) =? video_last itf - video_first itf + 1)%Z = true)
    by (apply Z.eqb_eq; lia).
  rewrite Hr'. cbn [negb].
  unfold get_marker_data, check_frame_range_valid, get_first_frame, get_last_frame.
  cbn [video_first video_last points]. rewrite lookup_insert_eq.
  destruct (Z.ltb_spec (video_first itf) (video_last itf)); [|lia]. cbn [negb].
  f_equal. rewrite <- !list_fmap_compose. f_equal.
  - apply fmap_seq_lookup; [lia|]. intros i x Hi. simpl.
    replace (Z.to_nat (video_first itf + Z.of_nat i - video_first itf)) with i by lia.
    apply lookup_lt_Some in Hi as Hlt.
    destruct (lookup_lt_is_Some_2 r i ltac:(lia)) as [y Hy]. rewrite Hy, Hi.
    destruct (Z.leb_spec (video_first itf) (video_first itf + Z.of_nat i)); [reflexivity|lia].
  - apply fmap_seq_lookup; [lia|]. intros i x Hi. simpl.
    replace (Z.to_nat (video_first itf + Z.of_nat i - video_first itf)) with i by lia.
    rewrite Hi.
    destruct (Z.leb_spec (video_first itf) (video_first itf + Z.of_nat i)); [reflexivity|lia].
Qed.

(** ** Loops that write frame by frame *)

Lemma unchanged_at_refl i a : unchanged_at i a a.
Proof. split; reflexivity. Qed.

Lemma unchanged_at_trans i a b c :
  unchanged_at i a b -> unchanged_at i b c -> unchanged_at i a c.
Proof. intros [H1 H2] [H3 H4]. split; congruence. Qed.

Lemma same_shape_refl a : same_shape a a.
Proof. split; reflexivity. Qed.

Lemma same_shape_trans a b c : same_shape a b -> same_shape b c -> same_shape a c.
Proof. intros [H1 H2] [H3 H4]. split; congruence. Qed.

Lemma for_each_local {S X} (arrs : S -> arrays) (W : X -> list nat)
    (body : S -> X -> result S) l st0 stf :
  local_body arrs W body ->
  for_each body l st0 = Ok stf ->
  same_shape (arrs st0) (arrs stf) /\
  forall i, ((forall x, x ∈ l -> i ∉ W x) -> unchanged_at i (arrs st0) (arrs stf)) /\
            (unchanged_at i (arrs st0) (arrs stf) \/ (arrs stf).2 !! i = Some 0).
Proof.
  intros Hloc. revert st0. induction l as [|x l IH]; intros st0; simpl.
  - intros [= <-]. split; [apply same_shape_refl|].
    intros i. split; [intros _|left]; apply unchanged_at_refl.
  - destruct (body st0 x) as [st1|] eqn:E; simpl; [|discriminate].
    intros Hrest. destruct (Hloc _ _ _ E) as [Hs1 H1].
    destruct (IH _ Hrest) as [Hs2 H2].
    split; [eapply same_shape_trans; eauto|].
    intros i. destruct (H1 i) as [H1a H1b]. destruct (H2 i) as [H2a H2b]. split.
    + intros Hout. eapply unchanged_at_trans.
      * apply H1a, Hout. now left.
      * apply H2a. intros y Hy. apply Hout. now right.
    + destruct H2b as [Hu|H0]; [|now right].
      destruct H1b as [Hu1|H01].
      * left. eapply unchanged_at_trans; eauto.
      * right. destruct Hu as [_ Hu]. now rewrite Hu.
Qed.

(** One write [coords[fr] = v; resid[fr] = 0] is local to [fr]. *)
Lemma write_frame_local (c : list V3) (r : list Q) fr v c' r' :
  py_set c fr v = Ok c' -> py_set r fr 0 = Ok r' ->
  same_shape (c, r) (c', r') /\
  forall i, (i ∉ [fr] -> unchanged_at i (c, r) (c', r')) /\
            (unchanged_at i (c, r) (c', r') \/ (c', r').2 !! i = Some 0).
Proof.
  intros Hc Hr. apply py_set_Ok in Hc as [Hlc ->]. apply py_set_Ok in Hr as [Hlr ->].
  split; [split; simpl; apply length_insert|].
  intros i. destruct (decide (i = fr)) as [->|Hne].
  - split; [intros Hn; exfalso; apply Hn; now left|].
    right. simpl. now apply list_lookup_insert_eq.
  - assert (unchanged_at i (c, r) (<[fr:=v]> c, <[fr:=0]> r))
      by (split; simpl; apply list_lookup_insert_ne; congruence).
    auto.
Qed.

Lemma skip_local (a : arrays) (w : list nat) :
  same_shape a a /\
  forall i, (i ∉ w -> unchanged_at i a a) /\
            (unchanged_at i a a \/ a.2 !! i = Some 0).
Proof.
  split; [apply same_shape_refl|]. intros i. split; [intros _|left]; apply unchanged_at_refl.
Qed.

Lemma pattern_body_local dc dm bf :
  local_body work_arrays (fun fr => [fr]) (pattern_body dc dm bf).
Proof.
  intros [[c r] b] fr st' H. unfold pattern_body in H.
  repeat (ok_step H; try (injection H as <-; apply skip_local)).
  injection H as <-. unfold work_arrays; simpl. eapply write_frame_local; eauto.
Qed.

Lemma valid_mask_false r f : valid_mask r !! f = Some false <-> invalid_at r f.
Proof.
  rewrite valid_mask_lookup. unfold invalid_at. destruct (r !! f) as [x|]; simpl.
  - destruct (isclose x (-1)) eqn:E; simpl; split.
    + intros _. eauto.
    + reflexivity.
    + discriminate.
    + intros (y & [= <-] & Hy). congruence.
  - split; [discriminate | intros (y & H & _); discriminate].
Qed.

Lemma valid_mask_true r f : valid_mask r !! f = Some true <-> valid_at r f.
Proof.
  rewrite valid_mask_lookup. unfold valid_at. destruct (r !! f) as [x|]; simpl.
  - destruct (isclose x (-1)) eqn:E; simpl; split.
    + discriminate.
    + intros (y & [= <-] & Hy). congruence.
    + intros _. eauto.
    + reflexivity.
  - split; [discriminate | intros (y & H & _); discriminate].
Qed.

Lemma valid_invalid_excl r f : valid_at r f -> invalid_at r f -> False.
Proof. intros (x & Hx & Hv) (y & Hy & Hi). congruence. Qed.

Lemma zero_is_valid (r : list Q) f : r !! f = Some 0 -> valid_at r f.
Proof. intros H. exists 0. split; [exact H | reflexivity]. Qed.

(** A loop of local bodies over blocked frames has the promised frame
    effect. *)
Lemma loop_frame_effect {S X} (arrs : S -> arrays) (W : X -> list nat)
    (body : S -> X -> result S) l st0 stf :
  local_body arrs W body ->
  (forall x i, x ∈ l -> i ∈ W x -> invalid_at (arrs st0).2 i) ->
  for_each body l st0 = Ok stf ->
  frame_effect (mkData (arrs st0).1 (arrs st0).2) (mkData (arrs stf).1 (arrs stf).2).
Proof.
  intros Hloc Hinv Hrun.
  destruct (for_each_local _ _ _ _ _ _ Hloc Hrun) as [[Hs1 Hs2] Hi].
  split; [exact Hs1|]. split; [exact Hs2|]. simpl.
  intros f. destruct (Hi f) as [Hout Hdich]. split.
  - intros Hv. apply Hout. intros x Hx Hf.
    eapply valid_invalid_excl; eauto.
  - intros _. destruct Hdich as [Hu|H0].
    + right. exact Hu.
    + left. split; [exact H0 | now apply zero_is_valid].
Qed.

Lemma frame_effect_refl d : frame_effect d d.
Proof. split; [reflexivity|]. split; [reflexivity|]. intros f. split; auto. Qed.

Lemma gap_rigidbody_body_local np_sqrt np_svd dict names cm af :
  local_body work_arrays (fun fr => [fr])
    (gap_rigidbody_body np_sqrt np_svd dict names cm af).
Proof.
  intros [[c r] b] fr st' H. unfold gap_rigidbody_body in H.
  repeat (ok_step H; try (injection H as <-; apply skip_local)).
  injection H as <-. unfold work_arrays; simpl. eapply write_frame_local; eauto.
Qed.

Lemma rigidbody_body_local p0 mat_rot vec3 af :
  local_body (fun st : arrays => st) (fun fr => [fr])
    (rigidbody_body p0 mat_rot vec3 af).
Proof.
  intros [c r] fr st' H. unfold rigidbody_body in H.
  ok_step H. clear E. repeat ok_step H.
  injection H as <-. eapply write_frame_local; eauto.
Qed.

Lemma write_frames_local (f : nat -> V3) :
  local_body (fun st : arrays => st) (fun fr => [fr])
    (fun '(c, r) fr => c' ← py_set c fr (f fr); r' ← py_set r fr 0; Ok (c', r')).
Proof.
  intros [c r] fr st' H. repeat ok_step H.
  injection H as <-. eapply write_frame_local; eauto.
Qed.

Lemma interp_body_local spline n vm k off minf :
  local_body work_arrays (fun gap => gap) (interp_body spline n vm k off minf).
Proof.
  intros [[c r] b] gap st' H. unfold interp_body in H.
  repeat (ok_step H; try (injection H as <-; apply skip_local)).
  injection H as <-. unfold work_arrays; simpl.
  match goal with
  | E : for_each _ gap (c, r) = Ok _ |- _ =>
      destruct (for_each_local _ _ _ _ _ _ (write_frames_local _) E) as [Hs Hi]
  end.
  split; [exact Hs|]. intros i. destruct (Hi i) as [Hout Hd]. split; [|exact Hd].
  intros Hni. apply Hout. intros x Hx Hix. apply list_elem_of_singleton in Hix.
  now subst.
Qed.

(** ** The cluster loop *)

Lemma cluster_fetch_from itf :
  forall names (dict0 : gmap string (list V3)) (mask0 : list bool)
         (dict : gmap string (list V3)) (mask : list bool),
    for_each
      (fun '(dc, cm) mkr =>
         match get_marker_data itf mkr with
         | None => Raise TypeError
         | Some mkr_data =>
             Ok (<[mkr := coords mkr_data]> dc,
                 logical_and cm (valid_mask (resid mkr_data)))
         end) names (dict0, mask0) = Ok (dict, mask) ->
    length mask0 = Z.to_nat (get_num_frames itf) ->
    length mask = Z.to_nat (get_num_frames itf) /\
    (forall mkr, mkr ∈ names ->
       exists dm, get_marker_data itf mkr = Some dm /\ dict !! mkr = Some (coords dm)) /\
    (forall mkr, mkr ∉ names -> dict !! mkr = dict0 !! mkr) /\
    (forall g, mask !! g = Some true <->
       mask0 !! g = Some true /\
       forall mkr, mkr ∈ names ->
         exists dm, get_marker_data itf mkr = Some dm /\ valid_at (resid dm) g).
Proof.
  set (N := Z.to_nat (get_num_frames itf)).
  induction names as [|m names IH]; intros dict0 mask0 dict mask; simpl.
  - intros [= <- <-] Hlen. split; [exact Hlen|]. split; [intros mkr H; inversion H|].
    split; [reflexivity|]. intros g.
    split; [intros H; split; [exact H|intros mkr Hm; inversion Hm]|tauto].
  - destruct (get_marker_data itf m) as [dm|] eqn:Em; simpl; [|discriminate].
    intros Hrun Hlen.
    destruct (get_marker_data_Some _ _ _ Em) as (_ & _ & Hlr).
    apply IH in Hrun as (Hl & Hd & Hnd & Hm).
    2:{ rewrite length_logical_and, length_valid_mask. fold N in Hlr. lia. }
    split; [exact Hl|]. split; [|split].
    + intros mkr Hin. destruct (decide (mkr ∈ names)) as [Hn|Hn]; [now apply Hd|].
      apply elem_of_cons in Hin as [->|Hin]; [|contradiction].
      exists dm. split; [exact Em|]. rewrite (Hnd _ Hn). apply lookup_insert_eq.
    + intros mkr Hn. rewrite not_elem_of_cons in Hn. destruct Hn as [Hne Hn].
      rewrite (Hnd _ Hn). now apply lookup_insert_ne.
    + intros g. rewrite Hm, logical_and_true, valid_mask_true. split.
      * intros [[H0 Hv] Hall]. split; [exact H0|].
        intros mkr Hin. apply elem_of_cons in Hin as [->|Hin]; eauto.
      * intros [H0 Hall]. split; [split; [exact H0|]|].
        -- destruct (Hall m) as (dm' & Hdm' & Hv); [now left|]. congruence.
        -- intros mkr Hin. apply Hall. now right.
Qed.

Lemma cluster_fetch_spec itf names dict mask :
  cluster_fetch itf (get_num_frames itf) names = Ok (dict, mask) ->
  length mask = Z.to_nat (get_num_frames itf) /\
  (forall mkr, mkr ∈ names ->
     exists dm, get_marker_data itf mkr = Some dm /\ dict !! mkr = Some (coords dm)) /\
  (forall g, mask !! g = Some true <->
     (g < Z.to_nat (get_num_frames itf))%nat /\
     forall mkr, mkr ∈ names ->
       exists dm, get_marker_data itf mkr = Some dm /\ valid_at (resid dm) g).
Proof.
  unfold cluster_fetch. intros Hrun.
  apply cluster_fetch_from in Hrun as (Hl & Hd & _ & Hm); [|apply length_replicate].
  split; [exact Hl|]. split; [exact Hd|].
  intros g. rewrite Hm. split; intros [H1 H2]; (split; [|exact H2]).
  - apply lookup_lt_Some in H1. now rewrite length_replicate in H1.
  - now apply lookup_replicate_2.
Qed.

(** The dictionary holds cluster markers only. *)
Lemma cluster_fetch_dict itf names dict mask mkr c :
  cluster_fetch itf (get_num_frames itf) names = Ok (dict, mask) ->
  dict !! mkr = Some c ->
  mkr ∈ names /\ exists dm, get_marker_data itf mkr = Some dm /\ c = coords dm.
Proof.
  unfold cluster_fetch. intros Hrun Hc.
  apply cluster_fetch_from in Hrun as (_ & Hd & Hnd & _); [|apply length_replicate].
  destruct (decide (mkr ∈ names)) as [Hin|Hn].
  - split; [exact Hin|]. destruct (Hd _ Hin) as (dm & Hdm & Hdict).
    exists dm. split; [exact Hdm | congruence].
  - rewrite (Hnd _ Hn), lookup_empty in Hc. discriminate.
Qed.

(** ** Boolean-mask assignment *)

Lemma length_mask_assign {A} (a : list A) mask values :
  length (mask_assign a mask values) = length a.
Proof.
  revert mask values. induction a as [|x a IH]; intros [|b mask] values; simpl; try reflexivity.
  destruct b; [destruct values|]; simpl; now rewrite IH.
Qed.

Lemma mask_assign_outside {A} (a : list A) mask values i :
  mask !! i <> Some true -> mask_assign a mask values !! i = a !! i.
Proof.
  revert mask values i. induction a as [|x a IH]; intros [|b mask] values i Hi; simpl; try reflexivity.
  destruct i as [|i]; simpl in *.
  - destruct b; [congruence|reflexivity].
  - destruct b; [destruct values|]; simpl; now apply IH.
Qed.

Lemma mask_fill_lookup {A} (a : list A) mask c i :
  length mask = length a ->
  mask_fill a mask c !! i =
  if decide (mask !! i = Some true) then (fun _ => c) <$> a !! i else a !! i.
Proof.
  intros Hlen. unfold mask_fill. rewrite lookup_zip_with.
  destruct (a !! i) as [x|] eqn:Ea; simpl.
  - destruct (lookup_lt_is_Some_2 mask i) as [b Hb].
    { apply lookup_lt_Some in Ea. lia. }
    rewrite Hb. simpl. destruct b; case_decide; congruence.
  - case_decide; reflexivity.
Qed.

Lemma length_mask_fill {A} (a : list A) mask c :
  length mask = length a -> length (mask_fill a mask c) = length a.
Proof. intros H. unfold mask_fill. rewrite length_zip_with. lia. Qed.

Lemma mask_write_frame_effect c r mask values :
  length mask = length r ->
  (forall i, mask !! i = Some true -> invalid_at r i) ->
  frame_effect (mkData c r)
    (mkData (mask_assign c mask values) (mask_fill r mask 0)).
Proof.
  intros Hlen Hinv. split; [apply length_mask_assign|].
  split; [now apply length_mask_fill|]. simpl. intros f.
  assert (Hout : mask !! f <> Some true ->
            mask_assign c mask values !! f = c !! f /\ mask_fill r mask 0 !! f = r !! f).
  { intros Hn. split; [now apply mask_assign_outside|].
    rewrite mask_fill_lookup by assumption. now rewrite decide_False. }
  split.
  - intros Hv. apply Hout. intros Hm. eapply valid_invalid_excl; eauto.
  - intros (x & Hx & _). destruct (decide (mask !! f = Some true)) as [Hm|Hm].
    + left. assert (H0 : mask_fill r mask 0 !! f = Some 0).
      { rewrite mask_fill_lookup by assumption. rewrite decide_True by assumption.
        now rewrite Hx. }
      split; [exact H0 | now apply zero_is_valid].
    + right. now apply Hout.
Qed.

(** ** Frame effect of the strategies *)

Lemma finish_updated itf name n0 rw m itf' :
  finish itf name n0 rw = (Ok (true, m), itf') ->
  exists c r, rw = Ok (c, r, true) /\ itf' = (write_back itf name c r).2.
Proof.
  unfold finish. destruct rw as [[[c r] b]|e]; [|discriminate].
  destruct b; [|discriminate]. unfold write_back. intros [= <- <-]. eauto.
Qed.

Lemma finish_cases itf name n0 rw res itf' :
  finish itf name n0 rw = (res, itf') ->
  itf' = itf \/ exists m, res = Ok (true, m).
Proof.
  unfold finish, write_back. destruct rw as [[[c r] [|]]|e]; intros [= <- <-]; eauto.
Qed.

Lemma cl_only_invalid r (cm : list bool) x :
  x ∈ np_where (logical_and cm (logical_not (valid_mask r))) -> invalid_at r x.
Proof.
  rewrite elem_of_np_where, logical_and_true, logical_not_true, valid_mask_false.
  tauto.
Qed.

Lemma written_back itf name d c r :
  get_marker_data itf name = Some d ->
  frame_effect d (mkData c r) ->
  exists d', get_marker_data (write_back itf name c r).2 name = Some d' /\
             frame_effect d d'.
Proof.
  intros Hget Hfe. exists (mkData c r). split; [|exact Hfe].
  destruct Hfe as (Hc & Hr & _). now apply (get_after_write_back _ _ d).
Qed.

Lemma pattern_frame_effect itf tgt dnr m itf' d :
  fill_marker_gap_pattern itf tgt dnr = (Ok (true, m), itf') ->
  get_marker_data itf tgt = Some d ->
  exists d', get_marker_data itf' tgt = Some d' /\ frame_effect d d'.
Proof.
  unfold fill_marker_gap_pattern. intros H Hget. rewrite Hget in H.
  destruct (_ || _); [discriminate|].
  destruct (get_marker_data itf dnr) as [dd|]; [|discriminate].
  destruct (negb _); [discriminate|]. destruct (negb _); [discriminate|].
  apply finish_updated in H as (c & r & Hrun & ->).
  apply written_back; [exact Hget|]. destruct d as [c0 r0].
  refine (loop_frame_effect work_arrays _ _ _ (c0, r0, false) (c, r, true)
            (pattern_body_local _ _ _) _ Hrun).
  intros x i Hx Hi. apply list_elem_of_singleton in Hi as ->. simpl in *.
  now apply elem_of_np_where, logical_not_true, valid_mask_false in Hx.
Qed.

Lemma gap_rigidbody_frame_effect np_sqrt np_svd itf tgt cl m itf' d :
  fill_marker_gap_rigidbody np_sqrt np_svd itf tgt cl = (Ok (true, m), itf') ->
  get_marker_data itf tgt = Some d ->
  exists d', get_marker_data itf' tgt = Some d' /\ frame_effect d d'.
Proof.
  unfold fill_marker_gap_rigidbody. intros H Hget. rewrite Hget in H.
  destruct (_ =? _)%nat; [discriminate|]. destruct (_ =? _)%Z; [discriminate|].
  destruct (cluster_fetch _ _ _) as [[dict cm]|]; [|discriminate].
  destruct (negb _); [discriminate|]. destruct (negb _); [discriminate|].
  apply finish_updated in H as (c & r & Hrun & ->).
  apply written_back; [exact Hget|]. destruct d as [c0 r0].
  refine (loop_frame_effect work_arrays _ _ _ (c0, r0, false) (c, r, true)
            (gap_rigidbody_body_local _ _ _ _ _ _) _ Hrun).
  intros x i Hx Hi. apply list_elem_of_singleton in Hi as ->. simpl in *.
  eapply cl_only_invalid; eauto.
Qed.

Lemma rigidbody_frame_effect np_sqrt np_uninit itf tgt cl m itf' d :
  recover_marker_rigidbody np_sqrt np_uninit itf tgt cl = (Ok (true, m), itf') ->
  get_marker_data itf tgt = Some d ->
  exists d', get_marker_data itf' tgt = Some d' /\ frame_effect d d'.
Proof.
  unfold recover_marker_rigidbody. intros H Hget. rewrite Hget in H.
  destruct (_ =? _)%nat; [discriminate|]. destruct (_ =? _)%Z; [discriminate|].
  destruct (cluster_fetch _ _ _) as [[dict cm]|]; [|discriminate].
  destruct (negb _); [discriminate|]. destruct (negb _); [discriminate|].
  destruct (nearest_three _ _ _ _) as [[[p0 p1] p2]|]; [|discriminate].
  unfold mbind, result_bind in H.
  destruct (for_each _ _ _) as [[c r]|] eqn:Hrun; [|discriminate].
  unfold write_back in H. injection H as _ <-.
  apply written_back; [exact Hget|]. destruct d as [c0 r0].
  refine (loop_frame_effect (fun st : arrays => st) _ _ _ (c0, r0) (c, r)
            (rigidbody_body_local _ _ _ _) _ Hrun).
  intros x i Hx Hi. apply list_elem_of_singleton in Hi as ->. simpl in *.
  eapply cl_only_invalid; eauto.
Qed.

Lemma relative_frame_effect np_sqrt np_uninit itf tgt cl m itf' d :
  recover_marker_relative np_sqrt np_uninit itf tgt cl = (Ok (true, m), itf') ->
  get_marker_data itf tgt = Some d ->
  exists d', get_marker_data itf' tgt = Some d' /\ frame_effect d d'.
Proof.
  unfold recover_marker_relative. intros H Hget. rewrite Hget in H.
  destruct (get_marker_data_Some _ _ _ Hget) as (_ & Hlc & Hlr).
  destruct (_ =? _)%nat; [discriminate|]. destruct (_ =? _)%Z; [discriminate|].
  destruct (cluster_fetch _ _ _) as [[dict cm]|] eqn:Hcf; [|discriminate].
  apply cluster_fetch_spec in Hcf as (Hlm & _ & _).
  destruct (negb _); [discriminate|]. destruct (negb _); [discriminate|].
  destruct (nearest_three _ _ _ _) as [[[p0 p1] p2]|]; [|discriminate].
  unfold mbind, result_bind in H.
  destruct (map_result _ _) as [rec|] eqn:Hrun; [|discriminate].
  unfold write_back in H. injection H as _ <-.
  apply written_back; [exact Hget|]. destruct d as [c0 r0]. simpl in *.
  apply mask_write_frame_effect.
  - rewrite length_logical_and. unfold logical_not.
    rewrite length_fmap, length_valid_mask. lia.
  - intros i Hi. apply logical_and_true in Hi as [_ Hi].
    now apply logical_not_true, valid_mask_false in Hi.
Qed.

(** ** Gaps *)

Lemma elem_of_slice {A} (a : list A) lo hi x : x ∈ slice a lo hi -> x ∈ a.
Proof.
  unfold slice. intros H. apply subseteq_take in H. now apply subseteq_drop in H.
Qed.

Lemma elem_of_split_from {A} (a : list A) st idxs g x :
  g ∈ split_from a st idxs -> x ∈ g -> x ∈ a.
Proof.
  revert st. induction idxs as [|i idxs IH]; intros st; simpl.
  - intros Hg Hx. apply list_elem_of_singleton in Hg as ->. eapply elem_of_slice; eauto.
  - intros Hg Hx. apply elem_of_cons in Hg as [->|Hg]; [eapply elem_of_slice; eauto|].
    eapply IH; eauto.
Qed.

Lemma elem_of_invalid_gaps frs g x :
  g ∈ invalid_gaps frs -> x ∈ g -> x ∈ frs.
Proof. unfold invalid_gaps, np_split. apply elem_of_split_from. Qed.

Lemma interp_frame_effect spline itf tgt k off minf m itf' d :
  fill_marker_gap_interp spline itf tgt k off minf = (Ok (true, m), itf') ->
  get_marker_data itf tgt = Some d ->
  exists d', get_marker_data itf' tgt = Some d' /\ frame_effect d d'.
Proof.
  unfold fill_marker_gap_interp. intros H Hget. rewrite Hget in H.
  destruct (_ || _); [discriminate|].
  apply finish_updated in H as (c & r & Hrun & ->).
  apply written_back; [exact Hget|]. destruct d as [c0 r0].
  refine (loop_frame_effect work_arrays _ _ _ (c0, r0, false) (c, r, true)
            (interp_body_local _ _ _ _ _ _) _ Hrun).
  intros g i Hg Hi. simpl in *.
  pose proof (elem_of_invalid_gaps _ _ _ Hg Hi) as Hin.
  now apply elem_of_np_where, logical_not_true, valid_mask_false in Hin.
Qed.

(** C9. Whenever one of the five strategies returns [updated = True], the
    trajectory read back for the target relates to the one read before the
    call as follows: every frame that was valid keeps its position and its
    residual; every blocked frame either carries residual 0 afterwards, and
    is then valid, or keeps its original position and residual and is
    still blocked. *)
Theorem updated_frame_effect np_sqrt np_uninit np_svd spline
    itf tgt_mkr_name (cl_mkr_names : list string) (dnr_mkr_name : string)
    (k search_span_offset min_needed_frs : Z) d n itf' :
  get_marker_data itf tgt_mkr_name = Some d ->
  recover_marker_relative np_sqrt np_uninit itf tgt_mkr_name cl_mkr_names
    = (Ok (true, n), itf') \/
  recover_marker_rigidbody np_sqrt np_uninit itf tgt_mkr_name cl_mkr_names
    = (Ok (true, n), itf') \/
  fill_marker_gap_rigidbody np_sqrt np_svd itf tgt_mkr_name cl_mkr_names
    = (Ok (true, n), itf') \/
  fill_marker_gap_pattern itf tgt_mkr_name dnr_mkr_name
    = (Ok (true, n), itf') \/
  fill_marker_gap_interp spline itf tgt_mkr_name k search_span_offset
      min_needed_frs
    = (Ok (true, n), itf') ->
  exists d', get_marker_data itf' tgt_mkr_name = Some d' /\ frame_effect d d'.
Proof.
  intros Hget [H|[H|[H|[H|H]]]].
  - eapply relative_frame_effect; eauto.
  - eapply rigidbody_frame_effect; eauto.
  - eapply gap_rigidbody_frame_effect; eauto.
  - eapply pattern_frame_effect; eauto.
  - eapply interp_frame_effect; eauto.
Qed.

(** ** Binary search and brackets *)

Lemma searchsorted_le a v : (searchsorted a v <= length a)%nat.
Proof. induction a as [|x a IH]; simpl; [lia|]. destruct (x <? v)%nat; simpl; lia. Qed.

Lemma searchsorted_before a v j x :
  (j < searchsorted a v)%nat -> a !! j = Some x -> (x < v)%nat.
Proof.
  revert j. induction a as [|y a IH]; intros j; simpl; [lia|].
  destruct (Nat.ltb_spec y v); [|lia].
  destruct j as [|j]; simpl.
  - intros _ [= <-]. assumption.
  - intros Hj. apply IH. lia.
Qed.

Lemma searchsorted_at a v x :
  a !! searchsorted a v = Some x -> (v <= x)%nat.
Proof.
  induction a as [|y a IH]; simpl; [discriminate|].
  destruct (Nat.ltb_spec y v); simpl; [exact IH|].
  intros [= <-]. assumption.
Qed.

(** On an ascending array the count of smaller leading elements is the
    count of all smaller elements. *)
Lemma searchsorted_after a v j x :
  StronglySorted lt a ->
  (searchsorted a v <= j)%nat -> a !! j = Some x -> (v <= x)%nat.
Proof.
  intros Hs Hj Hx.
  destruct (decide (searchsorted a v = j)) as [<-|Hne]; [now apply (searchsorted_at a)|].
  destruct (lookup_lt_is_Some_2 a (searchsorted a v)) as [y Hy].
  { apply lookup_lt_Some in Hx. lia. }
  pose proof (searchsorted_at _ _ _ Hy).
  pose proof (sorted_lt_lookup _ _ _ _ _ Hs Hy Hx ltac:(lia)). lia.
Qed.

(** A bracket that really encloses the frame is a pair of neighbours of the
    index array. *)
Lemma bracket_frames_inner a fr f0 f1 :
  bracket_frames a fr = Ok (f0, f1) ->
  (f0 < fr)%nat -> (fr < f1)%nat ->
  exists j, a !! j = Some f0 /\ a !! S j = Some f1.
Proof.
  unfold bracket_frames. intros H H0 H1.
  destruct (Nat.eqb_spec (searchsorted a fr) 0) as [Hk|Hk].
  - repeat ok_step H. injection H as -> ->.
    apply (py_get_Ok_nonneg _ 0%Z) in E; [|lia]. simpl in E.
    assert (fr <= f0)%nat; [|lia].
    apply (searchsorted_at a). now rewrite Hk.
  - destruct (Nat.leb_spec (length a) (searchsorted a fr)) as [Hge|Hlt].
    + repeat ok_step H. injection H as -> ->.
      pose proof (searchsorted_le a fr).
      destruct a as [|x a]; [simpl in Hk; lia|].
      apply py_get_Ok_nonneg in E0; [|simpl length; lia].
      assert (f1 < fr)%nat; [|lia].
      eapply searchsorted_before; [|exact E0]. simpl length in *. lia.
    + repeat ok_step H. injection H as -> ->.
      apply py_get_Ok_nonneg in E; [|lia].
      apply py_get_Ok_nonneg in E0; [|lia].
      exists (Z.to_nat (Z.of_nat (searchsorted a fr) - 1)). split; [exact E|].
      replace (S (Z.to_nat (Z.of_nat (searchsorted a fr) - 1)))
        with (Z.to_nat (Z.of_nat (searchsorted a fr))) by lia.
      exact E0.
Qed.

Lemma sorted_lt_lookup_inv (l : list nat) i j x y :
  StronglySorted lt l -> l !! i = Some x -> l !! j = Some y ->
  (x < y)%nat -> (i < j)%nat.
Proof.
  intros Hs Hi Hj Hxy. destruct (Nat.lt_trichotomy i j) as [H|[->|H]]; [exact H| |].
  - rewrite Hi in Hj. injection Hj as ->. lia.
  - pose proof (sorted_lt_lookup _ _ _ _ _ Hs Hj Hi H). lia.
Qed.

(** Neighbours in [np.where(mask)[0]] are frames at which the mask holds,
    with no such frame strictly between them. *)
Lemma np_where_neighbours mask j a b :
  np_where mask !! j = Some a -> np_where mask !! S j = Some b ->
  (a < b)%nat /\ mask !! a = Some true /\ mask !! b = Some true /\
  forall g, (a < g < b)%nat -> mask !! g <> Some true.
Proof.
  intros Ha Hb. pose proof (np_where_sorted mask) as Hs.
  split; [eapply sorted_lt_lookup; eauto|].
  split; [apply elem_of_np_where; eapply list_elem_of_lookup_2; eauto|].
  split; [apply elem_of_np_where; eapply list_elem_of_lookup_2; eauto|].
  intros g [Hag Hgb] Hg. apply elem_of_np_where, list_elem_of_lookup in Hg as [k Hk].
  pose proof (sorted_lt_lookup_inv _ _ _ _ _ Hs Ha Hk Hag).
  pose proof (sorted_lt_lookup_inv _ _ _ _ _ Hs Hk Hb Hgb). lia.
Qed.

(** ** The iteration that handled a given frame *)

Lemma for_each_at {S} (arrs : S -> arrays) (body : S -> nat -> result S)
    l st0 stf f :
  local_body arrs (fun fr => [fr]) body ->
  NoDup l -> f ∈ l ->
  for_each body l st0 = Ok stf ->
  exists st1 st2,
    body st1 f = Ok st2 /\
    (forall i, i ∉ l -> unchanged_at i (arrs st0) (arrs st1)) /\
    unchanged_at f (arrs st0) (arrs st1) /\
    unchanged_at f (arrs st2) (arrs stf).
Proof.
  intros Hloc Hnd Hin Hrun.
  apply list_elem_of_split in Hin as (l1 & l2 & ->).
  apply NoDup_app in Hnd as (_ & Hdisj & Hnd2). apply NoDup_cons in Hnd2 as [Hf2 _].
  rewrite for_each_app in Hrun.
  destruct (for_each body l1 st0) as [st1|] eqn:E1; [|discriminate].
  simpl in Hrun. destruct (body st1 f) as [st2|] eqn:E2; [|discriminate].
  simpl in Hrun. exists st1, st2. split; [exact E2|].
  destruct (for_each_local _ _ _ _ _ _ Hloc E1) as [_ H1].
  destruct (for_each_local _ _ _ _ _ _ Hloc Hrun) as [_ H2].
  split; [|split].
  - intros i Hi. apply (H1 i). intros x Hx Hix. apply list_elem_of_singleton in Hix as ->.
    apply Hi. apply elem_of_app. now left.
  - apply (H1 f). intros x Hx Hfx. apply list_elem_of_singleton in Hfx as ->.
    apply (Hdisj x Hx). now left.
  - apply (H2 f). intros x Hx Hfx. apply list_elem_of_singleton in Hfx as ->.
    contradiction.
Qed.

(** ** Vector equalities *)

Lemma veq_refl v : v =v= v.
Proof. destruct v as [[a b] c]. simpl. repeat split; reflexivity. Qed.

Lemma veq_sym u v : u =v= v -> v =v= u.
Proof.
  destruct u as [[a b] c], v as [[x y] z]. simpl.
  intros (H1 & H2 & H3). repeat split; symmetry; assumption.
Qed.

Lemma veq_trans u v w : u =v= v -> v =v= w -> u =v= w.
Proof.
  destruct u as [[a b] c], v as [[x y] z], w as [[p q] r]. simpl.
  intros (H1 & H2 & H3) (H4 & H5 & H6).
  repeat split; etransitivity; eassumption.
Qed.

Lemma lerp_offset t0 t1 d0 d1 df c f0 f1 f :
  vsub t0 d0 =v= c -> vsub t1 d1 =v= c ->
  vadd (vsub (lerp t0 t1 f0 f1 f) (lerp d0 d1 f0 f1 f)) df =v= vadd df c.
Proof.
  destruct t0 as [[a0 b0] c0], t1 as [[a1 b1] c1], d0 as [[x0 y0] z0],
    d1 as [[x1 y1] z1], df as [[p q] r], c as [[u v] w].
  unfold lerp. simpl. unfold Qdiv.
  intros (H1 & H2 & H3) (H4 & H5 & H6).
  assert (Ha0 : a0 == x0 + u) by (rewrite <- H1; ring).
  assert (Hb0 : b0 == y0 + v) by (rewrite <- H2; ring).
  assert (Hc0 : c0 == z0 + w) by (rewrite <- H3; ring).
  assert (Ha1 : a1 == x1 + u) by (rewrite <- H4; ring).
  assert (Hb1 : b1 == y1 + v) by (rewrite <- H5; ring).
  assert (Hc1 : c1 == z1 + w) by (rewrite <- H6; ring).
  rewrite Ha0, Hb0, Hc0, Ha1, Hb1, Hc1. repeat split; ring.
Qed.

Lemma vadd_comm u v : vadd u v =v= vadd v u.
Proof.
  destruct u as [[a b] c], v as [[x y] z]. simpl. repeat split; ring.
Qed.

(** ** Pattern gap fill: the written value *)

Lemma pattern_body_inv dc dm bf c r b fr st' :
  pattern_body dc dm bf (c, r, b) fr = Ok st' ->
  st' = (c, r, b) \/
  exists f0 f1 t0 t1 d0 d1 df,
    bracket_frames bf fr = Ok (f0, f1) /\ (f0 < fr < f1)%nat /\
    np_any (logical_not (slice dm f0 (f1 + 1))) = false /\
    c !! f0 = Some t0 /\ c !! f1 = Some t1 /\
    dc !! f0 = Some d0 /\ dc !! f1 = Some d1 /\ dc !! fr = Some df /\
    (fr < length c)%nat /\ (fr < length r)%nat /\
    st' = (<[fr := vround (vadd (vround (vsub (lerp32 t0 t1 f0 f1 fr)
                                               (lerp32 d0 d1 f0 f1 fr)))
                                df)]> c,
           <[fr := 0]> r, true).
Proof.
  intros H. unfold pattern_body in H.
  repeat (ok_step H; try (injection H as <-; now left)).
  injection H as <-. right.
  apply orb_false_iff in E0 as [H0 H1].
  apply Nat.leb_gt in H0, H1.
  repeat match goal with
  | E : py_at _ _ = Ok _ |- _ => apply py_at_Ok in E
  | E : py_set _ _ _ = Ok _ |- _ => apply py_set_Ok in E as [? ->]
  end.
  do 7 eexists. repeat (split; [eassumption || lia || reflexivity|]). reflexivity.
Qed.

Lemma pattern_outcome itf tgt dnr res itf' :
  fill_marker_gap_pattern itf tgt dnr = (res, itf') ->
  itf' = itf \/ exists m, res = Ok (true, m).
Proof.
  unfold fill_marker_gap_pattern.
  destruct (get_marker_data itf tgt); [|intros [= <- <-]; now left].
  destruct (_ || _); [intros [= <- <-]; now left|].
  destruct (get_marker_data itf dnr); [|intros [= <- <-]; now left].
  destruct (negb _); [intros [= <- <-]; now left|].
  destruct (negb _); [intros [= <- <-]; now left|].
  apply finish_cases.
Qed.

Lemma repaired_irrefl d f : ~ repaired d d f.
Proof. intros [Hi Hv]. eapply valid_invalid_excl; eauto. Qed.

Lemma pattern_fill_value_updated itf tgt_mkr_name dnr_mkr_name n itf' d dd d' f :
  fill_marker_gap_pattern itf tgt_mkr_name dnr_mkr_name = (Ok (true, n), itf') ->
  get_marker_data itf tgt_mkr_name = Some d ->
  get_marker_data itf dnr_mkr_name = Some dd ->
  get_marker_data itf' tgt_mkr_name = Some d' ->
  repaired d d' f ->
  pattern_filled d dd d' f.
Proof.
  unfold fill_marker_gap_pattern, pattern_filled. intros H Hget Hdnr Hget' [Hinv Hval].
  rewrite Hget, Hdnr in H.
  destruct (_ || _); [discriminate|].
  destruct (negb _); [discriminate|]. destruct (negb _); [discriminate|].
  apply finish_updated in H as (c & r & Hrun & ->).
  set (r0 := resid d) in *. set (c0 := coords d) in *.
  set (body := pattern_body _ _ _) in Hrun.
  pose proof (pattern_body_local (coords dd) (valid_mask (resid dd))
    (np_where (logical_and (valid_mask r0) (valid_mask (resid dd))))) as Hloc.
  fold body in Hloc.
  destruct (for_each_local _ _ _ _ _ _ Hloc Hrun) as [[Hs1 Hs2] _].
  unfold work_arrays in Hs1, Hs2; cbn [fst snd] in Hs1, Hs2.
  rewrite (get_after_write_back _ _ _ c r Hget Hs1 Hs2) in Hget'.
  injection Hget' as <-. cbn [coords resid] in *.
  assert (Hin : f ∈ np_where (logical_not (valid_mask r0))).
  { now apply elem_of_np_where, logical_not_true, valid_mask_false. }
  destruct (for_each_at _ _ _ _ _ _ Hloc (np_where_NoDup _) Hin Hrun)
    as ([[c1 r1] b1] & st2 & Hbody & Hout & [Hf1c Hf1r] & [Hf2c Hf2r]).
  unfold work_arrays in *; cbn [fst snd] in *.
  apply pattern_body_inv in Hbody as [->|Hw].
  { exfalso. cbn [fst snd] in *. apply (valid_invalid_excl r0 f); [|exact Hinv].
    destruct Hval as (x & Hx & Hv). exists x. split; [congruence|exact Hv]. }
  destruct Hw as (f0 & f1 & t0 & t1 & d0 & d1 & df & Hbr & Hord & Hspan & Ht0 & Ht1
                  & Hd0 & Hd1 & Hdf & Hlc & Hlr & ->).
  cbn [fst snd] in *.
  destruct (bracket_frames_inner _ _ _ _ Hbr) as (j & Hj0 & Hj1); [lia..|].
  destruct (np_where_neighbours _ _ _ _ Hj0 Hj1) as (_ & Hm0 & Hm1 & Hbetween).
  apply logical_and_true in Hm0 as [Hm0t Hm0d], Hm1 as [Hm1t Hm1d].
  assert (Hanchor : forall g, valid_at r0 g -> c1 !! g = c0 !! g).
  { intros g Hg. apply (Hout g). intros Hgin.
    apply elem_of_np_where, logical_not_true, valid_mask_false in Hgin.
    eapply valid_invalid_excl; eauto. }
  apply valid_mask_true in Hm0t as Hv0, Hm1t as Hv1.
  exists f0, f1, t0, t1, d0, d1, df,
    (vround (vadd (vround (vsub (lerp32 t0 t1 f0 f1 f) (lerp32 d0 d1 f0 f1 f)))
                  df)).
  split; [exact Hord|].
  split; [split; [exact Hv0 | now apply valid_mask_true]|].
  split; [split; [exact Hv1 | now apply valid_mask_true]|].
  split.
  { intros g Hg [Hgt Hgd]. apply (Hbetween g Hg).
    apply logical_and_true. split; now apply valid_mask_true. }
  split.
  { intros g Hg. apply valid_mask_true. apply (span_all_true _ _ _ Hspan g Hg).
    apply lookup_lt_Some in Hm1d. lia. }
  split; [rewrite <- Hanchor by exact Hv0; exact Ht0|].
  split; [rewrite <- Hanchor by exact Hv1; exact Ht1|].
  split; [exact Hd0|]. split; [exact Hd1|]. split; [exact Hdf|].
  split; [rewrite Hf2c; now apply list_lookup_insert_eq|].
  cbv zeta. split; [reflexivity|].
  intros cc H0 H1. exact (lerp_offset t0 t1 d0 d1 df cc f0 f1 f H0 H1).
Qed.

(** C3. A frame repaired by [fill_marker_gap_pattern] lies strictly between
    its brackets [f0 < f < f1], the neighbouring frames at which target and
    donor are both valid, and the donor is valid on all of [f0..f1].  The
    position written is the donor's position at [f] plus the difference of
    the linear interpolations of target and donor between the brackets,
    evaluated in single precision: each subtraction, multiplication,
    division and addition rounds to binary32.  The exact value of that
    expression is the donor's position plus [c] whenever target minus
    donor is one vector [c] at both brackets; the position written is its
    rounded evaluation. *)
Theorem pattern_fill_value itf tgt_mkr_name dnr_mkr_name res itf' d dd d' f :
  fill_marker_gap_pattern itf tgt_mkr_name dnr_mkr_name = (res, itf') ->
  get_marker_data itf tgt_mkr_name = Some d ->
  get_marker_data itf dnr_mkr_name = Some dd ->
  get_marker_data itf' tgt_mkr_name = Some d' ->
  repaired d d' f ->
  pattern_filled d dd d' f.
Proof.
  intros Hrun Hget Hdnr Hget' Hrep.
  destruct (pattern_outcome _ _ _ _ _ Hrun) as [->|[n ->]].
  - exfalso. rewrite Hget in Hget'. injection Hget' as <-.
    exact (repaired_irrefl _ _ Hrep).
  - eapply pattern_fill_value_updated; eauto.
Qed.

(** ** Rigid-body gap fill: the written value *)









(** ** Gaps as runs of consecutive frames *)

Lemma where_from_S i mask : where_from (S i) mask = S <$> where_from i mask.
Proof.
  revert i. induction mask as [|b m IH]; intros i; simpl; [reflexivity|].
  destruct b; simpl; now rewrite IH.
Qed.

Lemma slice_cons_S {A} (x : A) a st i :
  slice (x :: a) (S st) (S i) = slice a st i.
Proof. reflexivity. Qed.

Lemma split_from_cons_S {A} (x : A) a st idxs :
  split_from (x :: a) (S st) (S <$> idxs) = split_from a st idxs.
Proof.
  revert st. induction idxs as [|i idxs IH]; intros st; simpl; [reflexivity|].
  now rewrite IH.
Qed.

Lemma slice_0_S {A} (x : A) a i : slice (x :: a) 0 (S i) = x :: slice a 0 i.
Proof. unfold slice. simpl. now rewrite !Nat.sub_0_r. Qed.

Lemma split_from_cons_0 {A} (x : A) a idxs :
  split_from (x :: a) 0 (S <$> idxs) =
  match split_from a 0 idxs with
  | g :: gs => (x :: g) :: gs
  | [] => []
  end.
Proof.
  destruct idxs as [|i idxs]; simpl.
  - now rewrite slice_0_S.
  - now rewrite slice_0_S, split_from_cons_S.
Qed.

(** The recursive reading of [invalid_gaps]: a frame joins the gap of its
    successor exactly when the two are consecutive. *)
Lemma invalid_gaps_cons x y l :
  invalid_gaps (x :: y :: l) =
  if (Z.of_nat y - Z.of_nat x =? 1)%Z then
    match invalid_gaps (y :: l) with
    | g :: gs => (x :: g) :: gs
    | [] => []
    end
  else [x] :: invalid_gaps (y :: l).
Proof.
  unfold invalid_gaps, np_split, np_where.
  change (np_diff (x :: y :: l)) with ((Z.of_nat y - Z.of_nat x)%Z :: np_diff (y :: l)).
  rewrite fmap_cons. cbn [where_from].
  destruct (Z.of_nat y - Z.of_nat x =? 1)%Z; cbn [negb].
  - rewrite where_from_S. apply split_from_cons_0.
  - rewrite where_from_S, fmap_cons. cbn [split_from].
    change (slice (x :: y :: l) 0 1) with [x].
    now rewrite split_from_cons_S.
Qed.

Lemma invalid_gaps_single x : invalid_gaps [x] = [[x]].
Proof. reflexivity. Qed.

Lemma elem_of_concat {A} (L : list (list A)) x :
  x ∈ concat L <-> exists g, x ∈ g /\ g ∈ L.
Proof.
  induction L as [|h L IH]; simpl.
  - split; [intros H; inversion H | intros (g & _ & H); inversion H].
  - rewrite elem_of_app, IH. split.
    + intros [H|(g & Hx & Hg)]; [exists h; split; [exact H | now left]|].
      exists g. split; [exact Hx | now right].
    + intros (g & Hx & Hg). apply elem_of_cons in Hg as [->|Hg]; [now left|].
      right. eauto.
Qed.

Lemma NoDup_concat_unique {A} (L : list (list A)) g g' x :
  NoDup (concat L) -> g ∈ L -> g' ∈ L -> x ∈ g -> x ∈ g' -> g = g'.
Proof.
  induction L as [|h L IH]; simpl; intros Hnd Hg Hg' Hx Hx'; [inversion Hg|].
  apply NoDup_app in Hnd as (_ & Hdisj & Hnd).
  apply elem_of_cons in Hg as [->|Hg], Hg' as [->|Hg']; auto.
  - exfalso. apply (Hdisj x Hx). apply elem_of_concat. eauto.
  - exfalso. apply (Hdisj x Hx'). apply elem_of_concat. eauto.
Qed.

Lemma sorted_lt_head_le (x : nat) l y :
  StronglySorted lt (x :: l) -> y ∈ x :: l -> (x <= y)%nat.
Proof.
  intros Hs Hy. apply StronglySorted_inv in Hs as [_ Hall].
  apply elem_of_cons in Hy as [->|Hy]; [lia|].
  rewrite Forall_forall in Hall. specialize (Hall _ Hy). lia.
Qed.

Lemma invalid_gaps_ok frs :
  frs <> [] -> StronglySorted lt frs -> gaps_ok frs (invalid_gaps frs).
Proof.
  induction frs as [|x frs IH]; [congruence|]. intros _ Hs.
  destruct frs as [|y l].
  { rewrite invalid_gaps_single. split.
    - reflexivity.
    - intros g Hg. apply list_elem_of_singleton in Hg as ->. exists x, 1%nat. split; [lia|reflexivity].
    - exists [x], []. split; reflexivity.
    - intros g a b Hg Ha Hb _. apply list_elem_of_singleton in Hg as ->. exact Hb. }
  pose proof (StronglySorted_inv Hs) as [Hs' Hall].
  specialize (IH ltac:(congruence) Hs').
  destruct IH as [Hcat Hrun (g0 & gs & Hg0 & Hhd) Hclosed].
  assert (Hxy : (x < y)%nat) by (rewrite Forall_forall in Hall; apply Hall; now left).
  assert (Hnd : NoDup (concat (invalid_gaps (y :: l)))).
  { rewrite Hcat. now apply sorted_lt_NoDup. }
  assert (Hy0 : y ∈ g0).
  { destruct g0 as [|z g0]; simpl in Hhd; [discriminate|]. injection Hhd as ->. now left. }
  rewrite invalid_gaps_cons. rewrite Hg0 in *.
  destruct (Z.eqb_spec (Z.of_nat y - Z.of_nat x) 1) as [Hadj|Hadj].
  - split.
    + simpl. simpl in Hcat. now rewrite Hcat.
    + intros g Hg. apply elem_of_cons in Hg as [->|Hg].
      * destruct (Hrun g0) as (a & len & Hlen & Ha); [now left|].
        subst g0. destruct len as [|len]; [lia|]. simpl in Hhd. injection Hhd as ->.
        exists x, (S (S len)). split; [lia|].
        replace y with (S x) by lia. reflexivity.
      * apply Hrun. now right.
    + exists (x :: g0), gs. split; reflexivity.
    + intros g a b Hg Ha Hb Hab. apply elem_of_cons in Hg as [->|Hg].
      * apply elem_of_cons in Hb as [->|Hb]; [now left|]. right.
        apply elem_of_cons in Ha as [->|Ha].
        -- assert (b = y); [|now subst].
           pose proof (sorted_lt_head_le _ _ _ Hs' Hb). lia.
        -- apply (Hclosed g0 a b); auto. now left.
      * assert (Ha' : a ∈ y :: l).
        { rewrite <- Hcat. apply elem_of_concat. exists g. split; [exact Ha | now right]. }
        apply elem_of_cons in Hb as [->|Hb].
        -- exfalso. pose proof (sorted_lt_head_le _ _ _ Hs' Ha').
           assert (a = y) by lia. subst a.
           assert (g = g0); [|subst g].
           { eapply (NoDup_concat_unique _ g g0 y); eauto; [now right | now left]. }
           apply NoDup_app in Hnd as (_ & Hdisj & _).
           apply (Hdisj y Hy0). apply elem_of_concat. eauto.
        -- apply (Hclosed g a b); auto. now right.
  - split.
    + simpl. simpl in Hcat. now rewrite Hcat.
    + intros g Hg. apply elem_of_cons in Hg as [->|Hg].
      * exists x, 1%nat. split; [lia|reflexivity].
      * apply Hrun. exact Hg.
    + exists [x], (g0 :: gs). split; reflexivity.
    + intros g a b Hg Ha Hb Hab. apply elem_of_cons in Hg as [->|Hg].
      * apply list_elem_of_singleton in Ha as ->.
        apply elem_of_cons in Hb as [->|Hb]; [now left|]. exfalso.
        pose proof (sorted_lt_head_le _ _ _ Hs' Hb). lia.
      * assert (Ha' : a ∈ y :: l).
        { rewrite <- Hcat. apply elem_of_concat. eauto. }
        apply elem_of_cons in Hb as [->|Hb].
        -- exfalso. pose proof (sorted_lt_head_le _ _ _ Hs' Ha'). lia.
        -- apply (Hclosed g a b); auto.
Qed.

(** ** The candidate window of the spline fill *)

Lemma foldl_min_le x l : (forall y, y ∈ l -> (x <= y)%nat) -> foldl Nat.min x l = x.
Proof.
  revert x. induction l as [|y l IH]; intros x H; simpl; [reflexivity|].
  rewrite Nat.min_l by (apply H; now left). apply IH. intros z Hz. apply H. now right.
Qed.

Lemma np_min_seq a n : np_min (seq a (S n)) = a.
Proof.
  simpl. apply foldl_min_le. intros y Hy. apply elem_of_seq in Hy. lia.
Qed.

Lemma foldl_max_seq x a n : (x < a)%nat \/ n = 0%nat ->
  foldl Nat.max x (seq a n) = (if n is 0 then x else a + n - 1)%nat.
Proof.
  revert x a. induction n as [|n IH]; intros x a H; simpl; [reflexivity|].
  rewrite IH.
  - destruct n; lia.
  - destruct n; [now right|]. left. lia.
Qed.

Lemma np_max_seq a n : np_max (seq a (S n)) = (a + n)%nat.
Proof.
  simpl. rewrite foldl_max_seq.
  - destruct n; lia.
  - destruct n; [now right|]. left. lia.
Qed.

Lemma count_nonzero_where mask : count_nonzero mask = length (np_where mask).
Proof.
  unfold count_nonzero, np_where. generalize 0%nat.
  induction mask as [|b m IH]; intros i; simpl; [reflexivity|].
  destruct b.
  - rewrite filter_cons_True by reflexivity. simpl. now rewrite (IH (S i)).
  - rewrite filter_cons_False by discriminate. apply IH.
Qed.

Lemma elem_of_range_down s e i : i ∈ range_down s e <-> (e < i <= s)%Z.
Proof.
  unfold range_down. rewrite list_elem_of_fmap. split.
  - intros (j & -> & Hj). apply elem_of_seq in Hj. lia.
  - intros H. exists (Z.to_nat (s - i)). split; [lia|]. apply elem_of_seq. lia.
Qed.

Lemma elem_of_range_up s e i : i ∈ range_up s e <-> (s <= i < e)%Z.
Proof.
  unfold range_up. rewrite list_elem_of_fmap. split.
  - intros (j & -> & Hj). apply elem_of_seq in Hj. lia.
  - intros H. exists (Z.to_nat (i - s)). split; [lia|]. apply elem_of_seq. lia.
Qed.

Lemma marks_lookup (P : Z -> bool) l mask j :
  foldl (fun m i => if P i then mark m i else m) mask l !! j = Some true <->
  mask !! j = Some true \/
  ((j < length mask)%nat /\ exists i, i ∈ l /\ P i = true /\ Z.to_nat i = j).
Proof.
  revert mask. induction l as [|i l IH]; intros mask; simpl.
  - split; [auto|]. intros [H|(_ & i & Hi & _)]; [exact H | inversion Hi].
  - rewrite IH. destruct (P i) eqn:HP.
    + unfold mark. rewrite length_insert. split.
      * intros [H|(Hlt & i' & Hi' & HP' & Hj)].
        -- destruct (decide (Z.to_nat i = j)) as [<-|Hne].
           ++ right. split; [now apply lookup_lt_Some in H; rewrite length_insert in H|].
              exists i. split; [now left|auto].
           ++ left. now rewrite list_lookup_insert_ne in H.
        -- right. split; [exact Hlt|]. exists i'. split; [now right|auto].
      * intros [H|(Hlt & i' & Hi' & HP' & Hj)].
        -- left. destruct (decide (Z.to_nat i = j)) as [<-|Hne].
           ++ apply list_lookup_insert_eq. now apply lookup_lt_Some in H.
           ++ now rewrite list_lookup_insert_ne.
        -- apply elem_of_cons in Hi' as [->|Hi'].
           ++ left. subst j. now apply list_lookup_insert_eq.
           ++ right. split; [exact Hlt|]. eauto.
    + split.
      * intros [H|(Hlt & i' & Hi' & HP' & Hj)]; [now left|].
        right. split; [exact Hlt|]. exists i'. split; [now right|auto].
      * intros [H|(Hlt & i' & Hi' & HP' & Hj)]; [now left|].
        apply elem_of_cons in Hi' as [->|Hi']; [congruence|].
        right. split; [exact Hlt|]. eauto.
Qed.

Lemma marks_lookup_length (P : Z -> bool) l mask :
  length (foldl (fun m i => if P i then mark m i else m) mask l) = length mask.
Proof.
  revert mask. induction l as [|i l IH]; intros mask; simpl; [reflexivity|].
  rewrite IH. destruct (P i); [apply length_insert | reflexivity].
Qed.

(** The candidate frames of a gap [a..b]: the valid frames among the
    [search_span] frames before [a] and the [search_span] frames after
    [b], inside the trajectory. *)
Lemma itpl_cand_frs_mask_spec n_total_frs vmask span a n j :
  (0 <= n_total_frs)%Z ->
  itpl_cand_frs_mask n_total_frs vmask span (seq a (S n)) !! j = Some true <->
  vmask !! j = Some true /\ (Z.of_nat j < n_total_frs)%Z /\
  ((Z.of_nat a - span <= Z.of_nat j < Z.of_nat a)%Z \/
   (Z.of_nat (a + n) < Z.of_nat j <= Z.of_nat (a + n) + span)%Z).
Proof.
  intros HN. unfold itpl_cand_frs_mask.
  rewrite np_min_seq, np_max_seq, logical_and_true, !marks_lookup.
  rewrite length_replicate.
  assert (Hrep : replicate (Z.to_nat n_total_frs) false !! j = Some true <-> False).
  { split; [|tauto]. intros H. apply lookup_replicate in H as [H _]. discriminate. }
  rewrite Hrep. split.
  - intros [[[[]|(Hlt & i & Hi & HP & Hj)]|(Hlt & i & Hi & HP & Hj)] Hv];
      (split; [exact Hv|]).
    + apply elem_of_range_down in Hi. apply Z.leb_le in HP. split; lia.
    + rewrite marks_lookup_length in Hlt.
      apply elem_of_range_up in Hi. apply Z.ltb_lt in HP. split; lia.
  - intros (Hv & Hlt & [Hw|Hw]); (split; [|exact Hv]).
    + left. right. split; [lia|]. exists (Z.of_nat j).
      rewrite elem_of_range_down, Z.leb_le. split; [lia|]. split; lia.
    + right. split; [rewrite marks_lookup_length, length_replicate; lia|].
      exists (Z.of_nat j).
      rewrite elem_of_range_up, Z.ltb_lt. split; [lia|]. split; lia.
Qed.

(** ** Spline gap fill: which gaps are filled *)

Lemma interp_body_skip spline n vm k off minf st g :
  interp_skips n vm off minf g = true ->
  interp_body spline n vm k off minf st g = Ok st.
Proof.
  unfold interp_skips, interp_body. destruct st as [[c r] b]. intros H.
  destruct (length g =? 0)%nat; [reflexivity|]. simpl in H.
  destruct ((np_min g =? 0)%nat || _); [reflexivity|]. simpl in H.
  rewrite H. reflexivity.
Qed.

Lemma interp_body_local_eff spline n vm k off minf :
  local_body work_arrays (interp_writes n vm off minf)
    (interp_body spline n vm k off minf).
Proof.
  intros st g st' H. unfold interp_writes.
  destruct (interp_skips n vm off minf g) eqn:Hs.
  - rewrite interp_body_skip in H by exact Hs. injection H as <-. apply skip_local.
  - eapply interp_body_local; eauto.
Qed.

Lemma interp_loop_unchanged spline n vm k off minf gaps st0 stf f :
  for_each (interp_body spline n vm k off minf) gaps st0 = Ok stf ->
  (forall g, g ∈ gaps -> f ∈ g -> interp_skips n vm off minf g = true) ->
  unchanged_at f (work_arrays st0) (work_arrays stf).
Proof.
  intros Hrun Hskip.
  destruct (for_each_local _ _ _ _ _ _ (interp_body_local_eff _ _ _ _ _ _) Hrun)
    as [_ Hi].
  apply (Hi f). intros g Hg. unfold interp_writes.
  destruct (interp_skips n vm off minf g) eqn:Hs; [inversion 1|].
  intros Hf. rewrite (Hskip g Hg Hf) in Hs. discriminate.
Qed.

(** Whatever the outcome, the trajectory read back afterwards agrees with
    the original at every frame whose gap the loop skips. *)
Lemma interp_outcome spline itf tgt k off minf res itf' d :
  fill_marker_gap_interp spline itf tgt k off minf = (res, itf') ->
  get_marker_data itf tgt = Some d ->
  exists d', get_marker_data itf' tgt = Some d' /\
    forall f,
      (forall g, g ∈ invalid_gaps (np_where (logical_not (valid_mask (resid d)))) ->
                 f ∈ g ->
                 interp_skips (get_num_frames itf) (valid_mask (resid d)) off minf g
                 = true) ->
      coords d' !! f = coords d !! f /\ resid d' !! f = resid d !! f.
Proof.
  unfold fill_marker_gap_interp. intros H Hget. rewrite Hget in H.
  destruct (_ || _).
  { injection H as _ <-. exists d. split; [exact Hget|]. auto. }
  unfold finish in H.
  destruct (for_each _ _ _) as [[[c r] b]|e] eqn:Hrun.
  2:{ injection H as _ <-. exists d. split; [exact Hget|]. auto. }
  destruct b.
  2:{ injection H as _ <-. exists d. split; [exact Hget|]. auto. }
  unfold write_back in H. injection H as _ <-.
  destruct (for_each_local _ _ _ _ _ _ (interp_body_local _ _ _ _ _ _) Hrun)
    as [[Hs1 Hs2] _].
  unfold work_arrays in Hs1, Hs2; cbn [fst snd] in Hs1, Hs2.
  exists (mkData c r). split.
  - apply (get_after_write_back _ _ d); assumption.
  - intros f Hskip. apply (interp_loop_unchanged _ _ _ _ _ _ _ _ _ f Hrun Hskip).
Qed.

Lemma invalid_frames_sorted r :
  StronglySorted lt (np_where (logical_not (valid_mask r))).
Proof. apply np_where_sorted. Qed.

Lemma elem_of_invalid_frames r x :
  x ∈ np_where (logical_not (valid_mask r)) <-> invalid_at r x.
Proof. now rewrite elem_of_np_where, logical_not_true, valid_mask_false. Qed.

Lemma valid_or_invalid r x :
  (x < length r)%nat -> valid_at r x \/ invalid_at r x.
Proof.
  intros H. destruct (lookup_lt_is_Some_2 r x H) as [y Hy].
  unfold valid_at, invalid_at. destruct (isclose y (-1)) eqn:E; eauto.
Qed.

(** A run of blocked frames lies inside one gap. *)
Lemma run_in_gap frs gaps g a b f :
  gaps_ok frs gaps -> g ∈ gaps -> f ∈ g -> (a <= f <= b)%nat ->
  (forall x, (a <= x <= b)%nat -> x ∈ frs) ->
  forall x, (a <= x <= b)%nat -> x ∈ g.
Proof.
  intros Hok Hg Hf Hab Hrun.
  assert (Hup : forall k, (f + k <= b)%nat -> (f + k)%nat ∈ g).
  { induction k as [|k IH]; intros Hk.
    - now rewrite Nat.add_0_r.
    - apply (gaps_closed _ _ Hok g (f + k)%nat (f + S k)%nat Hg);
        [apply IH; lia | apply Hrun; lia | left; lia]. }
  assert (Hdown : forall k, (a <= f - k)%nat -> (f - k)%nat ∈ g).
  { induction k as [|k IH]; intros Hk.
    - now rewrite Nat.sub_0_r.
    - destruct (decide (f - k = 0)%nat) as [H0|H0].
      + replace (f - S k)%nat with (f - k)%nat by lia. apply IH. lia.
      + apply (gaps_closed _ _ Hok g (f - k)%nat (f - S k)%nat Hg);
          [apply IH; lia | apply Hrun; lia | right; lia]. }
  intros x Hx. destruct (decide (f <= x)%nat).
  - replace x with (f + (x - f))%nat by lia. apply Hup. lia.
  - replace x with (f - (f - x))%nat by lia. apply Hdown. lia.
Qed.

Lemma skips_boundary n vm off minf a len :
  a = 0%nat \/ (Z.of_nat (a + len) = n - 1)%Z ->
  interp_skips n vm off minf (seq a (S len)) = true.
Proof.
  intros H. unfold interp_skips. rewrite np_min_seq, np_max_seq.
  destruct H as [->|H].
  - simpl. reflexivity.
  - apply Z.eqb_eq in H. rewrite H. rewrite orb_true_r. reflexivity.
Qed.

Lemma skips_few_candidates n vm off minf g :
  (Z.of_nat (length (np_where (itpl_cand_frs_mask n vm (search_span_of g off) g)))
   < minf)%Z ->
  interp_skips n vm off minf g = true.
Proof.
  intros H. unfold interp_skips. rewrite count_nonzero_where.
  apply Z.ltb_lt in H. rewrite H. apply orb_true_r.
Qed.

(** C4. [fill_marker_gap_interp] never changes a frame of a run of blocked
    frames that reaches frame 0 or the last frame, whatever [k],
    [search_span_offset] and [min_needed_frs] are.  Every gap it iterates
    over is a maximal run [a..b] of blocked frames; its candidate frames
    are the valid frames among the [ceil(size/2) + search_span_offset]
    frames before [a] and after [b] (those inside the trajectory), and when
    they number fewer than [min_needed_frs] the gap is left as it was. *)
Theorem interp_gap_policy spline itf tgt_mkr_name k search_span_offset
    min_needed_frs res itf' d :
  fill_marker_gap_interp spline itf tgt_mkr_name k search_span_offset
    min_needed_frs = (res, itf') ->
  get_marker_data itf tgt_mkr_name = Some d ->
  exists d', get_marker_data itf' tgt_mkr_name = Some d' /\
    boundary_runs_kept d d' /\
    gap_policy (get_num_frames itf) search_span_offset min_needed_frs d d'.
Proof.
  unfold boundary_runs_kept, gap_policy. intros Hrun Hget.
  set (N := length (resid d)).
  destruct (get_marker_data_Some _ _ _ Hget) as (HN2 & _ & HlenN). fold N in HlenN.
  destruct (interp_outcome _ _ _ _ _ _ _ _ _ Hrun Hget) as (d' & Hget' & Hskip).
  set (frs := np_where (logical_not (valid_mask (resid d)))) in *.
  assert (Hfrs : forall x, x ∈ frs <-> invalid_at (resid d) x)
    by apply elem_of_invalid_frames.
  assert (Hlt : forall x, invalid_at (resid d) x -> (x < N)%nat).
  { intros x (y & Hy & _). now apply lookup_lt_Some in Hy. }
  assert (Hok : frs <> [] -> gaps_ok frs (invalid_gaps frs)).
  { intros Hne. apply invalid_gaps_ok; [exact Hne | apply np_where_sorted]. }
  assert (Huniq : forall g g' x, frs <> [] -> g ∈ invalid_gaps frs ->
            g' ∈ invalid_gaps frs -> x ∈ g -> x ∈ g' -> g = g').
  { intros g g' x Hne. apply NoDup_concat_unique.
    rewrite (gaps_concat _ _ (Hok Hne)). apply np_where_NoDup. }
  exists d'. split; [exact Hget'|]. split.
  - intros a b f Hinv Hbd Hf. apply Hskip. intros g Hg Hfg.
    assert (Hne : frs <> []).
    { intros E. assert (Hin : f ∈ frs) by (apply Hfrs, Hinv; lia).
      rewrite E in Hin. inversion Hin. }
    destruct (gaps_run _ _ (Hok Hne) g Hg) as (a' & len & Hlen & ->).
    destruct len as [|len]; [lia|].
    pose proof (run_in_gap _ _ _ a b f (Hok Hne) Hg Hfg Hf
                  (fun x Hx => proj2 (Hfrs x) (Hinv x Hx))) as Hall.
    apply skips_boundary. destruct Hbd as [->|Hb].
    + left. specialize (Hall 0%nat ltac:(lia)). apply elem_of_seq in Hall. lia.
    + right. specialize (Hall b ltac:(lia)). apply elem_of_seq in Hall.
      assert (Hlast : (a' + len)%nat ∈ frs).
      { eapply elem_of_invalid_gaps; [exact Hg|]. apply elem_of_seq. lia. }
      apply Hfrs, Hlt in Hlast. lia.
  - intros g Hg Hgne.
    assert (Hne : frs <> []).
    { intros E. rewrite E in Hg. apply list_elem_of_singleton in Hg. contradiction. }
    destruct (gaps_run _ _ (Hok Hne) g Hg) as (a & len & Hlen & ->).
    destruct len as [|len]; [lia|].
    assert (Hmem : forall x, (a <= x <= a + len)%nat -> invalid_at (resid d) x).
    { intros x Hx. apply Hfrs. eapply elem_of_invalid_gaps; [exact Hg|].
      apply elem_of_seq. lia. }
    exists a, (a + len)%nat.
    replace (a + len - a)%nat with len by lia.
    split; [split; [lia | apply Hlt, Hmem; lia]|].
    split; [reflexivity|]. split; [exact Hmem|].
    split; [|split].
    { destruct a as [|a]; [now left|]. right.
      replace (S a - 1)%nat with a by lia.
      destruct (valid_or_invalid (resid d) a) as [Hv|Hi]; [|exact Hv|].
      { pose proof (Hlt _ (Hmem (S a) ltac:(lia))). unfold N in *. lia. }
      exfalso. apply Hfrs in Hi.
      pose proof (gaps_closed _ _ (Hok Hne) _ (S a) a Hg) as Hc.
      specialize (Hc ltac:(apply elem_of_seq; lia) Hi ltac:(now right)).
      apply elem_of_seq in Hc. lia. }
    { destruct (decide (S (a + len) = N)) as [HE|HE]; [now left|]. right.
      destruct (valid_or_invalid (resid d) (S (a + len))) as [Hv|Hi]; [|exact Hv|].
      { pose proof (Hlt _ (Hmem (a + len)%nat ltac:(lia))). unfold N in *. lia. }
      exfalso. apply Hfrs in Hi.
      pose proof (gaps_closed _ _ (Hok Hne) _ (a + len)%nat (S (a + len)) Hg) as Hc.
      specialize (Hc ltac:(apply elem_of_seq; lia) Hi ltac:(now left)).
      apply elem_of_seq in Hc. lia. }
    cbv zeta. split; [|split].
    + unfold search_span_of. now rewrite length_seq.
    + intros i. rewrite elem_of_np_where, itpl_cand_frs_mask_spec by lia.
      rewrite valid_mask_true. unfold search_span_of. rewrite length_seq.
      split.
      * intros (Hv & _ & Hw). split; [exact Hv|]. exact Hw.
      * intros (Hv & Hw). split; [exact Hv|]. split; [|exact Hw].
        destruct Hv as (y & Hy & _). apply lookup_lt_Some in Hy. lia.
    + intros Hfew f Hf. apply Hskip. intros g' Hg' Hfg'.
      assert (g' = seq a (S len)) as ->.
      { apply (Huniq _ _ f Hne Hg' Hg Hfg'). apply elem_of_seq. lia. }
      now apply skips_few_candidates.
Qed.

(** ** Spline gap fill: the fit sees original data only *)

Lemma gather_ext {A} (c1 c0 : list A) l :
  (forall i, i ∈ l -> c1 !! i = c0 !! i) -> gather c1 l = gather c0 l.
Proof.
  induction l as [|i l IH]; intros H; simpl; [reflexivity|].
  unfold py_at. rewrite !py_get_nat, (H i) by now left.
  rewrite IH; [reflexivity|]. intros j Hj. apply H. now right.
Qed.

Lemma cand_valid n r span g i :
  i ∈ np_where (itpl_cand_frs_mask n (valid_mask r) span g) -> valid_at r i.
Proof.
  unfold itpl_cand_frs_mask.
  rewrite elem_of_np_where, logical_and_true, valid_mask_true. tauto.
Qed.


(** ** Rigid fit: the rotation is proper *)

Ltac destruct_M M :=
  let a := fresh "a" in let b := fresh "b" in let c := fresh "c" in
  let d := fresh "d" in let e := fresh "e" in let f := fresh "f" in
  let g := fresh "g" in let h := fresh "h" in let i := fresh "i" in
  destruct M as [[[[a b] c] [[d e] f]] [[g h] i]].


Lemma meq_sym A B : A =m= B -> B =m= A.
Proof.
  destruct_M A. destruct_M B. simpl. intros H.
  decompose [and] H. repeat split; symmetry; assumption.
Qed.
















(** ** Relative recovery: the written value *)

Lemma where_from_ge i mask x : x ∈ where_from i mask -> (i <= x)%nat.
Proof. rewrite elem_of_where_from. intros (j & -> & _). lia. Qed.

Lemma mask_select_lookup_from {A} (a : list A) mask i0 k x :
  mask_select a mask !! k = Some x ->
  exists j, where_from i0 mask !! k = Some (i0 + j)%nat /\ a !! j = Some x.
Proof.
  revert mask i0 k. induction a as [|y a IH]; intros [|b mask] i0 k; simpl;
    try discriminate.
  destruct b.
  - destruct k as [|k]; simpl.
    + intros [= <-]. exists 0%nat. split; [f_equal; lia | reflexivity].
    + intros H. destruct (IH mask (S i0) k H) as (j & Hj & Ha).
      exists (S j). split; [rewrite Hj; f_equal; lia | exact Ha].
  - intros H. destruct (IH mask (S i0) k H) as (j & Hj & Ha).
    exists (S j). split; [rewrite Hj; f_equal; lia | exact Ha].
Qed.

Lemma mask_select_lookup {A} (a : list A) mask k x :
  mask_select a mask !! k = Some x ->
  exists g, np_where mask !! k = Some g /\ a !! g = Some x.
Proof. intros H. apply (mask_select_lookup_from a mask 0) in H. exact H. Qed.

Lemma mask_assign_lookup_from {A} (a : list A) mask values i0 k j v :
  where_from i0 mask !! k = Some (i0 + j)%nat ->
  values !! k = Some v -> (j < length a)%nat ->
  mask_assign a mask values !! j = Some v.
Proof.
  revert mask values i0 k j.
  induction a as [|x a IH]; intros [|b mask] values i0 k j; simpl; try discriminate;
    try (intros; lia).
  destruct b.
  - destruct k as [|k]; simpl.
    + intros [= H]. assert (j = 0%nat) as -> by lia.
      destruct values as [|v0 values]; simpl; [discriminate|]. now intros [= ->].
    + intros Hw Hv Hj.
      assert (Hge : (S i0 <= i0 + j)%nat).
      { eapply where_from_ge, list_elem_of_lookup_2; eauto. }
      destruct j as [|j]; [lia|].
      destruct values as [|v0 values]; simpl in *; [discriminate|].
      apply (IH mask values (S i0) k j); [rewrite Hw; f_equal; lia | exact Hv | lia].
  - intros Hw Hv Hj.
    assert (Hge : (S i0 <= i0 + j)%nat).
    { eapply where_from_ge, list_elem_of_lookup_2; eauto. }
    destruct j as [|j]; [lia|]. simpl.
    apply (IH mask values (S i0) k j); [rewrite Hw; f_equal; lia | exact Hv | lia].
Qed.

Lemma mask_assign_lookup {A} (a : list A) mask values k g v :
  np_where mask !! k = Some g -> values !! k = Some v -> (g < length a)%nat ->
  mask_assign a mask values !! g = Some v.
Proof. intros H. now apply (mask_assign_lookup_from a mask values 0 k g). Qed.

Lemma argmin_from_spec i best bestd l v :
  let r := argmin_from i best bestd l v in
  (r = best /\ forall y, y ∈ l -> (bestd <= absdiff y v)%Z) \/
  (exists j x, r = (i + j)%nat /\ l !! j = Some x /\ (absdiff x v < bestd)%Z /\
               forall y, y ∈ l -> (absdiff x v <= absdiff y v)%Z).
Proof.
  revert i best bestd. induction l as [|x l IH]; intros i best bestd; simpl.
  - left. split; [reflexivity|]. intros y Hy. inversion Hy.
  - destruct (Z.ltb_spec (absdiff x v) bestd) as [Hlt|Hge].
    + destruct (IH (S i) i (absdiff x v)) as [[Hr Hmin]|(j & z & Hr & Hz & Hlt' & Hmin)].
      * right. exists 0%nat, x. split; [rewrite Hr; lia|]. split; [reflexivity|].
        split; [exact Hlt|]. intros y Hy. apply elem_of_cons in Hy as [->|Hy]; [lia|auto].
      * right. exists (S j), z. split; [rewrite Hr; lia|]. split; [exact Hz|].
        split; [lia|]. intros y Hy. apply elem_of_cons in Hy as [->|Hy]; [lia|auto].
    + destruct (IH (S i) best bestd) as [[Hr Hmin]|(j & z & Hr & Hz & Hlt' & Hmin)].
      * left. split; [exact Hr|]. intros y Hy.
        apply elem_of_cons in Hy as [->|Hy]; [lia|auto].
      * right. exists (S j), z. split; [rewrite Hr; lia|]. split; [exact Hz|].
        split; [exact Hlt'|]. intros y Hy. apply elem_of_cons in Hy as [->|Hy]; [lia|auto].
Qed.

(** [argmin] picks an element at the least distance. *)
Lemma argmin_absdiff_spec a v :
  a <> [] ->
  exists x, a !! argmin_absdiff a v = Some x /\
            forall y, y ∈ a -> (absdiff x v <= absdiff y v)%Z.
Proof.
  destruct a as [|x a]; [congruence|]. intros _. unfold argmin_absdiff.
  destruct (argmin_from_spec 1 0 (absdiff x v) a v)
    as [[Hr Hmin]|(j & z & Hr & Hz & Hlt & Hmin)].
  - exists x. rewrite Hr. split; [reflexivity|].
    intros y Hy. apply elem_of_cons in Hy as [->|Hy]; [lia|auto].
  - exists z. rewrite Hr. split; [exact Hz|].
    intros y Hy. apply elem_of_cons in Hy as [->|Hy]; [lia|auto].
Qed.

Lemma weights_form r0 r1 f0 f1 f :
  vdivs (vadd (vscale (float_of_Z (Z.of_nat f1 - Z.of_nat f)) r0)
              (vscale (float_of_Z (Z.of_nat f - Z.of_nat f0)) r1))
        (float_of_Z (Z.of_nat f - Z.of_nat f0)
         + float_of_Z (Z.of_nat f1 - Z.of_nat f))
  =v= weighted_offset r0 r1 f0 f1 f.
Proof.
  destruct r0 as [[x y] z], r1 as [[u v] w]. unfold weighted_offset. simpl.
  unfold Qdiv. repeat split; ring.
Qed.

(** The two ways [relative_offset] obtains an offset. *)
Lemma relative_offset_inv af rel fr o :
  relative_offset af rel fr = Ok o ->
  (((searchsorted af fr = 0)%nat \/ (length af <= searchsorted af fr)%nat) /\
   rel !! argmin_absdiff af fr = Some o) \/
  (exists j f0 f1 r0 r1,
     searchsorted af fr = S j /\ (S j < length af)%nat /\
     af !! j = Some f0 /\ af !! S j = Some f1 /\
     rel !! j = Some r0 /\ rel !! S j = Some r1 /\
     o = vdivs (vadd (vscale (float_of_Z (Z.of_nat f1 - Z.of_nat fr)) r0)
                     (vscale (float_of_Z (Z.of_nat fr - Z.of_nat f0)) r1))
               (float_of_Z (Z.of_nat fr - Z.of_nat f0)
                + float_of_Z (Z.of_nat f1 - Z.of_nat fr))).
Proof.
  unfold relative_offset. intros H.
  destruct (Nat.leb_spec (length af) (searchsorted af fr)) as [Hge|Hlt]; simpl in H.
  { left. apply py_at_Ok in H. auto. }
  destruct (Nat.eqb_spec (searchsorted af fr) 0) as [H0|H0].
  { left. apply py_at_Ok in H. auto. }
  right. repeat ok_bind H. injection H as <-.
  destruct (searchsorted af fr) as [|j] eqn:Hk; [congruence|].
  repeat match goal with
  | E : py_at _ _ = Ok _ |- _ => apply py_at_Ok in E
  | E : py_get _ _ = Ok _ |- _ =>
      apply py_get_Ok_nonneg in E; [|lia];
      replace (Z.to_nat (Z.of_nat (S j) - 1)) with j in E by lia
  end.
  exists j. do 4 eexists. repeat (split; [eassumption || lia || reflexivity|]).
  reflexivity.
Qed.

Lemma relative_row_inv p0 mat_rot af rel fr y :
  relative_row p0 mat_rot af rel fr = Ok y ->
  exists o p M, relative_offset af rel fr = Ok o /\ p0 !! fr = Some p /\
                mat_rot !! fr = Some M /\ y = vadd p (mv M o).
Proof.
  unfold relative_row. intros H. repeat ok_bind H. injection H as <-.
  repeat match goal with E : py_at _ _ = Ok _ |- _ => apply py_at_Ok in E end.
  eauto 10.
Qed.

Lemma rel_lookup (c0 p0 : list V3) (mat_rot : list M33) amask i o :
  zip_with vm (mask_select (zip_with vsub c0 p0) amask)
              (mask_select mat_rot amask) !! i = Some o ->
  exists g, np_where amask !! i = Some g /\ local_offset c0 p0 mat_rot g o.
Proof.
  intros H. apply lookup_zip_with_Some in H as (x & M & -> & Hx & HM).
  apply mask_select_lookup in Hx as (g & Hg & Hx).
  apply mask_select_lookup in HM as (g' & Hg' & HM).
  assert (g' = g) as -> by congruence.
  apply lookup_zip_with_Some in Hx as (t & p & -> & Ht & Hp).
  exists g. split; [exact Hg|]. exists t, p, M. auto.
Qed.

(** The value relative recovery writes, read off a run that returned
    [updated = True]. *)
Lemma relative_recovery_value np_sqrt np_uninit itf tgt_mkr_name cl_mkr_names
    n itf' d d' :
  recover_marker_relative np_sqrt np_uninit itf tgt_mkr_name cl_mkr_names
    = (Ok (true, n), itf') ->
  get_marker_data itf tgt_mkr_name = Some d ->
  get_marker_data itf' tgt_mkr_name = Some d' ->
  exists dict cm p0 p1 p2,
    cluster_fetch itf (get_num_frames itf) cl_mkr_names = Ok (dict, cm) /\
    nearest_three np_sqrt dict (coords d) cl_mkr_names = Ok (p0, p1, p2) /\
    forall f,
      relative_frame_spec itf cl_mkr_names d d' p0
        (frame_rot np_sqrt np_uninit p0 p1 p2) f.
Proof.
  unfold recover_marker_relative, relative_frame_spec. intros H Hget Hget'. rewrite Hget in H.
  destruct (get_marker_data_Some _ _ _ Hget) as (HN2 & Hlc & Hlr).
  destruct (_ =? _)%nat; [discriminate|]. destruct (_ =? _)%Z; [discriminate|].
  destruct (cluster_fetch _ _ _) as [[dict cm]|] eqn:Hcf; [|discriminate].
  pose proof (cluster_fetch_spec _ _ _ _ Hcf) as (Hlm & _ & Hcm).
  destruct (negb _); [discriminate|]. destruct (negb _); [discriminate|].
  destruct (nearest_three _ _ _ _) as [[[p0 p1] p2]|] eqn:Hsel; [|discriminate].
  unfold mbind, result_bind in H.
  set (r0 := resid d) in *. set (c0 := coords d) in *.
  set (amask := logical_and cm (valid_mask r0)) in *.
  set (omask := logical_and cm (logical_not (valid_mask r0))) in *.
  set (mat_rot := frame_rot np_sqrt np_uninit p0 p1 p2) in *.
  set (rel := zip_with vm _ _) in H.
  destruct (map_result _ _) as [rec|] eqn:Hrun; [|discriminate].
  assert (Hlo : length omask = length r0).
  { unfold omask. rewrite length_logical_and. unfold logical_not.
    rewrite length_fmap, length_valid_mask. lia. }
  pose proof (get_after_write_back _ _ d _ _ Hget
                (length_mask_assign c0 omask rec)
                (length_mask_fill r0 omask 0 Hlo)) as Hw.
  rewrite H in Hw. cbn [snd] in Hw. rewrite Hw in Hget'. clear Hw H.
  injection Hget' as <-. cbn [coords resid].
  exists dict, cm, p0, p1, p2.
  split; [reflexivity || exact Hcf|]. split; [reflexivity || exact Hsel|].
  cbv zeta.
  set (anchor := fun g => valid_at r0 g /\ cluster_valid_at itf cl_mkr_names g).
  assert (Hanchor : forall g, amask !! g = Some true <-> anchor g).
  { intros g. unfold amask, anchor. rewrite logical_and_true, valid_mask_true, Hcm.
    split; [tauto|]. intros [Hv Hc]. split; [|exact Hv]. split; [|exact Hc].
    destruct Hv as (x & Hx & _). apply lookup_lt_Some in Hx. fold r0 in Hlr. lia. }
  assert (Haf : forall g, g ∈ np_where amask <-> anchor g).
  { intros g. now rewrite elem_of_np_where. }
  intros f. split.
  - intros Hinv Hcv.
    assert (Hf : omask !! f = Some true).
    { unfold omask. rewrite logical_and_true, logical_not_true, valid_mask_false, Hcm.
      split; [|exact Hinv]. split; [|exact Hcv].
      destruct Hinv as (x & Hx & _). apply lookup_lt_Some in Hx. fold r0 in Hlr. lia. }
    pose proof (proj2 (elem_of_np_where omask f) Hf) as Hk.
    apply list_elem_of_lookup in Hk as [k Hk].
    destruct (map_result_Ok _ _ _ Hrun) as [_ Hrows].
    destruct (Hrows _ _ Hk) as (y & Hy & Hrow).
    apply relative_row_inv in Hrow as (o & p & M & Hoff & Hp & HM & ->).
    exists p, M, o. split; [exact Hp|]. split; [exact HM|]. split.
    { rewrite mask_fill_lookup by exact Hlo. rewrite decide_True by exact Hf.
      destruct Hinv as (x & -> & _). reflexivity. }
    split.
    { apply (mask_assign_lookup _ _ _ k); [exact Hk | exact Hy|].
      destruct Hinv as (x & Hx & _). apply lookup_lt_Some in Hx.
      fold c0 in Hlc. fold r0 in Hlr. lia. }
    assert (Hnotanchor : ~ anchor f).
    { intros [Hv _]. eapply valid_invalid_excl; eauto. }
    apply relative_offset_inv in Hoff
      as [[Hside Hnear]|(j & f0 & f1 & o0 & o1 & Hss & Hj & Hf0 & Hf1 & Ho0 & Ho1 & ->)].
    + right.
      apply rel_lookup in Hnear as (fa & Hfa & Hloc).
      assert (Hne : np_where amask <> []) by (intros E; rewrite E in Hfa; discriminate).
      destruct (argmin_absdiff_spec _ f Hne) as (x & Hx & Hmin).
      assert (x = fa) as -> by congruence.
      split.
      * destruct Hside as [H0|Hge]; [left | right]; intros g Hg; apply Haf in Hg as Hin.
        -- apply list_elem_of_lookup in Hin as [i Hi].
           pose proof (searchsorted_after (np_where amask) f i g (np_where_sorted _)
                         ltac:(lia) Hi).
           destruct (decide (g = f)) as [->|]; [contradiction|lia].
        -- apply list_elem_of_lookup in Hin as [i Hi].
           apply (searchsorted_before (np_where amask) f i g); [|exact Hi].
           apply lookup_lt_Some in Hi. lia.
      * exists fa. split; [apply Haf; eapply list_elem_of_lookup_2; eauto|].
        split; [|exact Hloc]. intros g Hg. apply Hmin, Haf, Hg.
    + left.
      apply rel_lookup in Ho0 as (g0 & Hg0 & Hloc0).
      apply rel_lookup in Ho1 as (g1 & Hg1 & Hloc1).
      assert (g0 = f0) as -> by congruence. assert (g1 = f1) as -> by congruence.
      destruct (np_where_neighbours _ _ _ _ Hf0 Hf1) as (_ & Hm0 & Hm1 & Hbetween).
      exists f0, f1, o0, o1.
      assert (Hlt0 : (f0 < f)%nat).
      { apply (searchsorted_before (np_where amask) f j); [lia | exact Hf0]. }
      assert (Hle1 : (f <= f1)%nat).
      { apply (searchsorted_at (np_where amask)). now rewrite Hss. }
      assert (Hne1 : f <> f1).
      { intros ->. apply Hnotanchor, Hanchor, Hm1. }
      split; [lia|]. split; [now apply Hanchor|]. split; [now apply Hanchor|].
      split; [intros g Hg Ha; apply (Hbetween g Hg), Hanchor, Ha|].
      split; [exact Hloc0|]. split; [exact Hloc1|]. apply weights_form.
  - intros Hncv.
    assert (Hf : omask !! f <> Some true).
    { unfold omask. rewrite logical_and_true, Hcm. tauto. }
    split; [now apply mask_assign_outside|].
    rewrite mask_fill_lookup by exact Hlo. now rewrite decide_False.
Qed.

(** ** Relative recovery runs to completion *)

Lemma count_nonzero_pos mask i :
  mask !! i = Some true -> (0 < count_nonzero mask)%nat.
Proof.
  rewrite count_nonzero_where. intros H. apply elem_of_np_where in H.
  destruct (np_where mask); [inversion H | simpl; lia].
Qed.

Lemma length_where_from i mask :
  (length (where_from i mask) <= length mask)%nat.
Proof.
  revert i. induction mask as [|b m IH]; intros i; simpl; [lia|].
  destruct b; simpl; specialize (IH (S i)); lia.
Qed.

Lemma count_nonzero_lt mask i :
  mask !! i = Some false -> (count_nonzero mask < length mask)%nat.
Proof.
  rewrite count_nonzero_where. unfold np_where. generalize 0%nat. revert i.
  induction mask as [|b m IH]; intros i k; [discriminate|].
  destruct i as [|i]; simpl.
  - intros [= ->]. pose proof (length_where_from (S k) m). lia.
  - intros H. specialize (IH i (S k) H). destruct b; simpl; lia.
Qed.

Lemma length_mask_select {A} (a : list A) mask :
  length a = length mask ->
  length (mask_select a mask) = length (np_where mask).
Proof.
  unfold np_where. generalize 0%nat. revert mask.
  induction a as [|x a IH]; intros [|b mask] k; simpl; try discriminate; [reflexivity|].
  intros [= H]. destruct b; simpl; now rewrite (IH mask (S k)).
Qed.

Lemma map_result_total {A B} (f : A -> result B) l :
  (forall x, x ∈ l -> exists y, f x = Ok y) -> exists ys, map_result f l = Ok ys.
Proof.
  induction l as [|x l IH]; intros H; simpl; [eauto|].
  destruct (H x) as [y Hy]; [now left|]. rewrite Hy. simpl.
  destruct IH as [ys Hys]; [intros z Hz; apply H; now right|].
  rewrite Hys. simpl. eauto.
Qed.

Lemma py_at_lt {A} (a : list A) i : (i < length a)%nat -> exists x, py_at a i = Ok x.
Proof.
  intros H. destruct (lookup_lt_is_Some_2 a i H) as [x Hx].
  exists x. now apply py_at_Ok.
Qed.

Lemma argmin_absdiff_lt a v : a <> [] -> (argmin_absdiff a v < length a)%nat.
Proof.
  intros H. destruct (argmin_absdiff_spec a v H) as (x & Hx & _).
  now apply lookup_lt_Some in Hx.
Qed.

Lemma relative_offset_total af rel fr :
  af <> [] -> length rel = length af ->
  exists o, relative_offset af rel fr = Ok o.
Proof.
  intros Hne Hlen. unfold relative_offset.
  destruct (Nat.leb_spec (length af) (searchsorted af fr)) as [Hge|Hlt]; simpl.
  { apply py_at_lt. rewrite Hlen. now apply argmin_absdiff_lt. }
  destruct (Nat.eqb_spec (searchsorted af fr) 0) as [H0|H0].
  { apply py_at_lt. rewrite Hlen. now apply argmin_absdiff_lt. }
  destruct (py_at_lt af (searchsorted af fr) Hlt) as [f1 ->].
  destruct (py_at_lt rel (searchsorted af fr) ltac:(lia)) as [r1 Hr1].
  assert (Hprev : (searchsorted af fr - 1 < length af)%nat) by lia.
  replace (Z.of_nat (searchsorted af fr) - 1)%Z
    with (Z.of_nat (searchsorted af fr - 1)) by lia.
  fold (py_at af (searchsorted af fr - 1)). fold (py_at rel (searchsorted af fr - 1)).
  destruct (py_at_lt af _ Hprev) as [f0 ->].
  destruct (py_at_lt rel (searchsorted af fr - 1) ltac:(lia)) as [r0 ->].
  unfold mbind, result_bind. rewrite Hr1. eauto.
Qed.

Lemma length_unit_rows np_sqrt np_uninit call vec :
  length (unit_rows np_sqrt np_uninit call vec) = length vec.
Proof. unfold unit_rows. apply length_imap. Qed.

Lemma length_frame_rot np_sqrt np_uninit (p0 p1 p2 : list V3) n :
  length p0 = n -> length p1 = n -> length p2 = n ->
  length (frame_rot np_sqrt np_uninit p0 p1 p2) = n.
Proof.
  intros H0 H1 H2. unfold frame_rot.
  repeat (rewrite ?length_zip_with, ?length_unit_rows).
  lia.
Qed.

Lemma nearest_three_lengths np_sqrt itf names dict cm tgt_coords p0 p1 p2 :
  cluster_fetch itf (get_num_frames itf) names = Ok (dict, cm) ->
  nearest_three np_sqrt dict tgt_coords names = Ok (p0, p1, p2) ->
  length p0 = Z.to_nat (get_num_frames itf) /\
  length p1 = Z.to_nat (get_num_frames itf) /\
  length p2 = Z.to_nat (get_num_frames itf).
Proof.
  intros Hcf H. unfold nearest_three in H. repeat ok_bind H. injection H as <- <- <-.
  assert (Hlen : forall k c, dict_get dict k = Ok c ->
            length c = Z.to_nat (get_num_frames itf)).
  { intros k c Hk. unfold dict_get in Hk.
    destruct (dict !! k) as [c'|] eqn:Edict; [|discriminate]. injection Hk as ->.
    destruct (cluster_fetch_dict _ _ _ _ _ _ Hcf Edict) as (_ & dm & Hdm & ->).
    now destruct (get_marker_data_Some _ _ _ Hdm) as (_ & ? & _). }
  repeat split; eapply Hlen; eassumption.
Qed.

Lemma relative_recovery_succeeds np_sqrt np_uninit itf tgt cl d dict cm p0 p1 p2 :
  get_marker_data itf tgt = Some d ->
  cluster_fetch itf (get_num_frames itf) cl = Ok (dict, cm) ->
  nearest_three np_sqrt dict (coords d) cl = Ok (p0, p1, p2) ->
  (exists g, valid_at (resid d) g /\ cluster_valid_at itf cl g) ->
  (exists g, invalid_at (resid d) g /\ cluster_valid_at itf cl g) ->
  exists n itf',
    recover_marker_relative np_sqrt np_uninit itf tgt cl = (Ok (true, n), itf').
Proof.
  intros Hget Hcf Hsel (ga & Hga & Hgac) (gi & Hgi & Hgic).
  destruct (get_marker_data_Some _ _ _ Hget) as (HN2 & Hlc & Hlr).
  pose proof (cluster_fetch_spec _ _ _ _ Hcf) as (Hlm & _ & Hcm).
  destruct (nearest_three_lengths _ _ _ _ _ _ _ _ _ Hcf Hsel) as (Hl0 & Hl1 & Hl2).
  set (N := Z.to_nat (get_num_frames itf)) in *.
  assert (HgaN : (ga < N)%nat).
  { destruct Hga as (x & Hx & _). apply lookup_lt_Some in Hx. lia. }
  assert (HgiN : (gi < N)%nat).
  { destruct Hgi as (x & Hx & _). apply lookup_lt_Some in Hx. lia. }
  unfold recover_marker_relative. rewrite Hget.
  pose proof (count_nonzero_pos _ _ (proj2 (valid_mask_true _ _) Hga)) as Hpos.
  pose proof (count_nonzero_lt _ _ (proj2 (valid_mask_false _ _) Hgi)) as Hlt.
  rewrite length_valid_mask in Hlt.
  destruct (Nat.eqb_spec (count_nonzero (valid_mask (resid d))) 0); [lia|].
  destruct (Z.eqb_spec (Z.of_nat (count_nonzero (valid_mask (resid d))))
              (get_num_frames itf)); [lia|].
  rewrite Hcf.
  set (amask := logical_and cm (valid_mask (resid d))).
  set (omask := logical_and cm (logical_not (valid_mask (resid d)))).
  assert (Ha : amask !! ga = Some true).
  { unfold amask. rewrite logical_and_true, valid_mask_true, Hcm. fold N. auto. }
  assert (Ho : omask !! gi = Some true).
  { unfold omask. rewrite logical_and_true, logical_not_true, valid_mask_false, Hcm.
    fold N. auto. }
  rewrite (proj2 (np_any_true amask) (ex_intro _ ga Ha)).
  rewrite (proj2 (np_any_true omask) (ex_intro _ gi Ho)). cbn [negb].
  rewrite Hsel. unfold mbind at 1, result_bind at 1.
  set (mat_rot := frame_rot np_sqrt np_uninit p0 p1 p2).
  set (rel := zip_with vm _ _).
  assert (Hlmr : length mat_rot = N) by (now apply length_frame_rot).
  assert (Hlam : length amask = N).
  { unfold amask. rewrite length_logical_and, length_valid_mask. lia. }
  assert (Hlrel : length rel = length (np_where amask)).
  { unfold rel. rewrite length_zip_with, !length_mask_select.
    - lia.
    - lia.
    - rewrite length_zip_with. lia. }
  assert (Hne : np_where amask <> []).
  { intros E. apply elem_of_np_where in Ha. rewrite E in Ha. inversion Ha. }
  destruct (map_result_total
              (relative_row p0 mat_rot (np_where amask) rel) (np_where omask))
    as [rec Hrec].
  { intros fr Hfr. apply np_where_lt in Hfr.
    assert (HfrN : (fr < N)%nat).
    { unfold omask in Hfr. rewrite length_logical_and in Hfr. lia. }
    unfold relative_row.
    destruct (relative_offset_total (np_where amask) rel fr Hne Hlrel) as [o ->].
    destruct (py_at_lt p0 fr ltac:(lia)) as [p Hp].
    destruct (py_at_lt mat_rot fr ltac:(lia)) as [M HM].
    unfold mbind, result_bind. rewrite Hp, HM. eauto. }
  rewrite Hrec. unfold write_back. eauto.
Qed.


(** ** The statements at work on the example files *)

Ltac by_computation := vm_compute; reflexivity.

Lemma degenerate_target_is_noop_witness :
  recover_marker_relative q_sqrt zero_uninit file_all_valid "T" ["D"]
    = (Ok (false, 3%nat), file_all_valid) /\
  recover_marker_rigidbody q_sqrt zero_uninit file_all_valid "T" ["D"]
    = (Ok (false, 3%nat), file_all_valid) /\
  fill_marker_gap_rigidbody q_sqrt diag_svd file_all_valid "T" ["D"]
    = (Ok (false, 3%nat), file_all_valid) /\
  fill_marker_gap_pattern file_all_valid "T" "D"
    = (Ok (false, 3%nat), file_all_valid) /\
  fill_marker_gap_interp linear_spline file_all_valid "T" 1 5 10
    = (Ok (false, 3%nat), file_all_valid).
Proof.
  apply (degenerate_target_is_noop q_sqrt zero_uninit diag_svd linear_spline
           file_all_valid "T" (read file_all_valid "T")).
  - by_computation.
  - left. repeat constructor.
Defined.


Lemma pattern_fill_value_witness :
  let itf' := (fill_marker_gap_pattern file_pattern "T" "D").2 in
  repaired (read file_pattern "T") (read itf' "T") 1 /\
  pattern_filled (read file_pattern "T") (read file_pattern "D")
    (read itf' "T") 1.
Proof.
  intros itf'.
  assert (Hrep : repaired (read file_pattern "T") (read itf' "T") 1).
  { split; [exists (-1) | exists 0]; split; by_computation. }
  split; [exact Hrep|].
  apply (pattern_fill_value file_pattern "T" "D" (Ok (true, 4%nat)) itf').
  - by_computation.
  - by_computation.
  - by_computation.
  - by_computation.
  - exact Hrep.
Defined.

Lemma interp_gap_policy_witness :
  let run := fill_marker_gap_interp linear_spline file_gaps "T" 1 1 2 in
  exists d', get_marker_data run.2 "T" = Some d' /\
    boundary_runs_kept (read file_gaps "T") d' /\
    gap_policy (get_num_frames file_gaps) 1 2 (read file_gaps "T") d'.
Proof.
  intros run.
  apply (interp_gap_policy linear_spline file_gaps "T" 1 1 2
           (Ok (true, 8%nat)) run.2).
  - by_computation.
  - by_computation.
Defined.



Lemma updated_frame_effect_witness :
  (exists d', get_marker_data
                (recover_marker_relative q_sqrt zero_uninit file_cluster3 "T"
                   ["A"; "B"; "C"]).2 "T" = Some d' /\
              frame_effect (read file_cluster3 "T") d') /\
  (exists d', get_marker_data
                (recover_marker_rigidbody q_sqrt zero_uninit file_cluster3 "T"
                   ["A"; "B"; "C"]).2 "T" = Some d' /\
              frame_effect (read file_cluster3 "T") d') /\
  (exists d', get_marker_data
                (fill_marker_gap_rigidbody q_sqrt diag_svd file_cluster4 "T"
                   ["P"; "Q"; "R"; "S"]).2 "T" = Some d' /\
              frame_effect (read file_cluster4 "T") d') /\
  (exists d', get_marker_data
                (fill_marker_gap_pattern file_pattern "T" "D").2 "T" = Some d' /\
              frame_effect (read file_pattern "T") d') /\
  (exists d', get_marker_data
                (fill_marker_gap_interp linear_spline file_gaps "T" 1 1 2).2 "T"
              = Some d' /\
              frame_effect (read file_gaps "T") d').
Proof.
  split; [|split; [|split; [|split]]].
  - apply (updated_frame_effect q_sqrt zero_uninit diag_svd linear_spline
             file_cluster3 "T" ["A"; "B"; "C"] "D" 1 1 2 _ 4); [by_computation|].
    left. by_computation.
  - apply (updated_frame_effect q_sqrt zero_uninit diag_svd linear_spline
             file_cluster3 "T" ["A"; "B"; "C"] "D" 1 1 2 _ 4); [by_computation|].
    right; left. by_computation.
  - apply (updated_frame_effect q_sqrt zero_uninit diag_svd linear_spline
             file_cluster4 "T" ["P"; "Q"; "R"; "S"] "D" 1 1 2 _ 4); [by_computation|].
    right; right; left. by_computation.
  - apply (updated_frame_effect q_sqrt zero_uninit diag_svd linear_spline
             file_pattern "T" [] "D" 1 1 2 _ 4); [by_computation|].
    right; right; right; left. by_computation.
  - apply (updated_frame_effect q_sqrt zero_uninit diag_svd linear_spline
             file_gaps "T" [] "D" 1 1 2 _ 8); [by_computation|].
    right; right; right; right. by_computation.
Defined.


(** ** Where the code departs from the claims *)


(** C7 on [file_selection].  The code averages the distance over all
    frames, the blocked frame of the target included, and selects "B",
    "C", "D"; averaged over the frames at which marker and target are both
    valid, the three nearest markers are "A", "B", "C". *)
Lemma selection_averages_blocked_frames :
  let cl := ["A"; "B"; "C"; "D"] in
  selected_names q_sqrt file_selection "T" cl = Ok ["B"; "C"; "D"] /\
  selected_names_common_valid q_sqrt file_selection "T" cl = Ok ["A"; "B"; "C"] /\
  (recover_marker_relative q_sqrt zero_uninit file_selection "T" cl).1
    = Ok (true, 2%nat).
Proof. repeat split; by_computation. Qed.

(** C8 on [file_one_anchor].  The target has a valid and a blocked frame
    and shares exactly one valid frame, frame 1, with the donor (with the
    cluster); the blocked frame 0 precedes it.  Both gap fillers raise
    [IndexError] on reading the second bracket. *)
Lemma gap_fill_raises_with_one_anchor :
  let d := read file_one_anchor "T" in
  let dd := read file_one_anchor "D" in
  valid_mask (resid d) = [false; true] /\
  np_where (logical_and (valid_mask (resid d)) (valid_mask (resid dd))) = [1%nat] /\
  bracket_frames [1%nat] 0 = Raise IndexError /\
  fill_marker_gap_pattern file_one_anchor "T" "D"
    = (Raise IndexError, file_one_anchor) /\
  fill_marker_gap_rigidbody q_sqrt diag_svd file_one_anchor "T" ["D"]
    = (Raise IndexError, file_one_anchor).
Proof.
  repeat split; by_computation.
Qed.

(** C1 on [file_one_frame].  The file has one frame and the target is
    valid at it, so that every frame of the trajectory is valid.
    [check_frame_range_valid] rejects a range of one frame,
    [get_marker_data] answers [None], and each of the five routines raises
    [TypeError] on subscripting it, where the claim has them return
    [(False, 1)]. *)
Lemma one_frame_target_raises :
  let itf := file_one_frame in
  get_num_frames itf = 1%Z /\
  (fun p : Z -> V3 * Q => (p 1%Z).2) <$> points itf !! "T"%string = Some 0 /\
  isclose 0 (-1) = false /\
  get_marker_data itf "T" = None /\
  recover_marker_relative q_sqrt zero_uninit itf "T" ["D"]
    = (Raise TypeError, itf) /\
  recover_marker_rigidbody q_sqrt zero_uninit itf "T" ["D"]
    = (Raise TypeError, itf) /\
  fill_marker_gap_rigidbody q_sqrt diag_svd itf "T" ["D"]
    = (Raise TypeError, itf) /\
  fill_marker_gap_pattern itf "T" "D" = (Raise TypeError, itf) /\
  fill_marker_gap_interp linear_spline itf "T" 1 5 10 = (Raise TypeError, itf).
Proof. repeat split; by_computation. Qed.


(** C3 on [file_pattern_rounding].  Target minus donor is (1, 0, 0) at
    both brackets, frames 0 and 3, and the donor is valid throughout.  At
    the repaired frame 1 the donor is at the origin, and the x coordinate
    written is [1 - 2^-24], the single-precision result of the six
    operations, not 1. *)
Lemma pattern_offset_is_not_exact :
  let itf := file_pattern_rounding in
  let run := fill_marker_gap_pattern itf "T" "D" in
  let d := read itf "T" in
  let dd := read itf "D" in
  let d' := read run.2 "T" in
  let c := (1, 0, 0) in
  run.1 = Ok (true, 4%nat) /\
  repaired d d' 1 /\
  valid_mask (resid dd) = [true; true; true; true] /\
  valid_mask (resid d) = [true; false; false; true] /\
  (exists t0 d0, coords d !! 0%nat = Some t0 /\ coords dd !! 0%nat = Some d0 /\
                 vsub t0 d0 =v= c) /\
  (exists t1 d1, coords d !! 3%nat = Some t1 /\ coords dd !! 3%nat = Some d1 /\
                 vsub t1 d1 =v= c) /\
  coords dd !! 1%nat = Some (0, 0, 0) /\
  coords d' !! 1%nat = Some (16777215 # 16777216, 0, 0) /\
  ~ (16777215 # 16777216, 0, 0) =v= vadd (0, 0, 0) c.
Proof.
  cbv zeta. split; [by_computation|].
  split; [split; [exists (-1) | exists 0]; split; by_computation|].
  split; [by_computation|]. split; [by_computation|].
  split; [do 2 eexists; split; [by_computation|]; split; [by_computation|];
          vm_compute; repeat split|].
  split; [do 2 eexists; split; [by_computation|]; split; [by_computation|];
          vm_compute; repeat split|].
  split; [by_computation|]. split; [by_computation|].
  intros H. vm_compute in H. destruct H as [H _]. discriminate H.
Qed.


(** * Further properties of the repair routines *)

(** ** What a run leaves in the file *)

(** The write-back touches the target only: frame range, the other
    markers and the set of markers stay. *)
Lemma write_back_elsewhere itf name c r :
  let itf' := (write_back itf name c r).2 in
  video_first itf' = video_first itf /\
  video_last itf' = video_last itf /\
  (forall o, o <> name -> points itf' !! o = points itf !! o) /\
  (forall o, is_Some (points itf' !! o) <-> is_Some (points itf !! o)).
Proof.
  unfold write_back, update_marker_pos, update_marker_residual,
    get_num_frames, get_first_frame, get_last_frame. cbn [snd].
  destruct (points itf !! name) as [p|] eqn:Hp.
  2:{ rewrite Hp. repeat split; auto. }
  destruct (negb (Z.of_nat (length c) =? _)%Z); cbn [points video_first video_last set_calls].
  - rewrite Hp. destruct (negb _); cbn [points video_first video_last set_calls].
    + repeat split; auto.
    + repeat split.
      * intros o Ho. now rewrite lookup_insert_ne.
      * destruct (decide (o = name)) as [->|Ho].
        -- rewrite lookup_insert_eq. intros _. rewrite Hp. eauto.
        -- now rewrite lookup_insert_ne.
      * destruct (decide (o = name)) as [->|Ho].
        -- rewrite lookup_insert_eq. eauto.
        -- now rewrite lookup_insert_ne.
  - rewrite lookup_insert_eq.
    destruct (negb _); cbn [points video_first video_last set_calls].
    + repeat split.
      * intros o Ho. now rewrite lookup_insert_ne.
      * destruct (decide (o = name)) as [->|Ho].
        -- rewrite lookup_insert_eq. intros _. rewrite Hp. eauto.
        -- now rewrite lookup_insert_ne.
      * destruct (decide (o = name)) as [->|Ho].
        -- rewrite lookup_insert_eq. eauto.
        -- now rewrite lookup_insert_ne.
    + repeat split.
      * intros o Ho. now rewrite !lookup_insert_ne.
      * destruct (decide (o = name)) as [->|Ho].
        -- rewrite lookup_insert_eq. intros _. rewrite Hp. eauto.
        -- now rewrite !lookup_insert_ne.
      * destruct (decide (o = name)) as [->|Ho].
        -- rewrite lookup_insert_eq. eauto.
        -- now rewrite !lookup_insert_ne.
Qed.

(** Reading a marker depends on the frame range and on its own record. *)
Lemma get_marker_data_ext itf itf' name :
  video_first itf' = video_first itf -> video_last itf' = video_last itf ->
  points itf' !! name = points itf !! name ->
  get_marker_data itf' name = get_marker_data itf name.
Proof.
  intros H1 H2 H3.
  unfold get_marker_data, check_frame_range_valid, get_first_frame, get_last_frame.
  now rewrite H1, H2, H3.
Qed.

Lemma finish_ends_in itf name n0 rw :
  ends_in itf name (finish itf name n0 rw).
Proof.
  unfold finish, ends_in. destruct rw as [[[c r] [|]]|e].
  - right. eauto.
  - left. split; [reflexivity|]. intros n. discriminate.
  - left. split; [reflexivity|]. intros n. discriminate.
Qed.

Ltac stays := left; split; [reflexivity | intros ?; discriminate].

Lemma pattern_ends_in itf tgt dnr :
  ends_in itf tgt (fill_marker_gap_pattern itf tgt dnr).
Proof.
  unfold fill_marker_gap_pattern.
  destruct (get_marker_data itf tgt); [|stays].
  destruct (_ || _); [stays|].
  destruct (get_marker_data itf dnr); [|stays].
  destruct (negb _); [stays|]. destruct (negb _); [stays|].
  apply finish_ends_in.
Qed.

Lemma gap_rigidbody_ends_in np_sqrt np_svd itf tgt cl :
  ends_in itf tgt (fill_marker_gap_rigidbody np_sqrt np_svd itf tgt cl).
Proof.
  unfold fill_marker_gap_rigidbody.
  destruct (get_marker_data itf tgt); [|stays].
  destruct (_ =? _)%nat; [stays|]. destruct (_ =? _)%Z; [stays|].
  destruct (cluster_fetch _ _ _) as [[dict cm]|]; [|stays].
  destruct (negb _); [stays|]. destruct (negb _); [stays|].
  apply finish_ends_in.
Qed.

Lemma interp_ends_in spline itf tgt k off minf :
  ends_in itf tgt (fill_marker_gap_interp spline itf tgt k off minf).
Proof.
  unfold fill_marker_gap_interp.
  destruct (get_marker_data itf tgt); [|stays].
  destruct (_ || _); [stays|].
  apply finish_ends_in.
Qed.

Lemma rigidbody_ends_in np_sqrt np_uninit itf tgt cl :
  ends_in itf tgt (recover_marker_rigidbody np_sqrt np_uninit itf tgt cl).
Proof.
  unfold recover_marker_rigidbody.
  destruct (get_marker_data itf tgt); [|stays].
  destruct (_ =? _)%nat; [stays|]. destruct (_ =? _)%Z; [stays|].
  destruct (cluster_fetch _ _ _) as [[dict cm]|]; [|stays].
  destruct (negb _); [stays|]. destruct (negb _); [stays|].
  destruct (nearest_three _ _ _ _) as [[[p0 p1] p2]|]; [|stays].
  unfold mbind, result_bind.
  destruct (for_each _ _ _) as [[c r]|]; [|stays].
  right. eauto.
Qed.

Lemma relative_ends_in np_sqrt np_uninit itf tgt cl :
  ends_in itf tgt (recover_marker_relative np_sqrt np_uninit itf tgt cl).
Proof.
  unfold recover_marker_relative.
  destruct (get_marker_data itf tgt); [|stays].
  destruct (_ =? _)%nat; [stays|]. destruct (_ =? _)%Z; [stays|].
  destruct (cluster_fetch _ _ _) as [[dict cm]|]; [|stays].
  destruct (negb _); [stays|]. destruct (negb _); [stays|].
  destruct (nearest_three _ _ _ _) as [[[p0 p1] p2]|]; [|stays].
  unfold mbind, result_bind.
  destruct (map_result _ _) as [rec|]; [|stays].
  right. eauto.
Qed.

Lemma strategy_runs_end_in np_sqrt np_uninit np_svd spline itf tgt cl dnr k off minf
    run :
  run ∈ strategy_runs np_sqrt np_uninit np_svd spline itf tgt cl dnr k off minf ->
  ends_in itf tgt run.
Proof.
  unfold strategy_runs. intros H.
  repeat (apply elem_of_cons in H as [->|H]).
  - apply relative_ends_in.
  - apply rigidbody_ends_in.
  - apply gap_rigidbody_ends_in.
  - apply pattern_ends_in.
  - apply interp_ends_in.
  - inversion H.
Qed.

(** X1. A run of any of the five repair routines that does not return
    [updated = True] (it returns [False], or it raises) hands back the
    server state it was given: nothing is written before the routine has
    finished its loop. *)
Theorem run_without_update_writes_nothing np_sqrt np_uninit np_svd spline
    itf tgt_mkr_name cl_mkr_names dnr_mkr_name k search_span_offset
    min_needed_frs run :
  run ∈ strategy_runs np_sqrt np_uninit np_svd spline itf tgt_mkr_name
          cl_mkr_names dnr_mkr_name k search_span_offset min_needed_frs ->
  (forall n, run.1 <> Ok (true, n)) ->
  run.2 = itf.
Proof.
  intros Hrun Hno. destruct (strategy_runs_end_in _ _ _ _ _ _ _ _ _ _ _ _ Hrun)
    as [[H _]|(c & r & ->)]; [exact H|].
  exfalso. eapply Hno. reflexivity.
Qed.

(** X2. Whatever a run of the five repair routines returns, the file it
    leaves has the frame range it had, every marker other than the target
    reads back as before, and the target can be read afterwards exactly if
    it could be read before. *)
Theorem run_touches_target_only np_sqrt np_uninit np_svd spline
    itf tgt_mkr_name cl_mkr_names dnr_mkr_name k search_span_offset
    min_needed_frs run :
  run ∈ strategy_runs np_sqrt np_uninit np_svd spline itf tgt_mkr_name
          cl_mkr_names dnr_mkr_name k search_span_offset min_needed_frs ->
  get_first_frame run.2 = get_first_frame itf /\
  get_last_frame run.2 = get_last_frame itf /\
  (forall o, o <> tgt_mkr_name ->
     get_marker_data run.2 o = get_marker_data itf o) /\
  (get_marker_data run.2 tgt_mkr_name = None <->
   get_marker_data itf tgt_mkr_name = None).
Proof.
  intros Hrun. destruct (strategy_runs_end_in _ _ _ _ _ _ _ _ _ _ _ _ Hrun)
    as [[-> _]|(c & r & ->)].
  { repeat split; auto. }
  destruct (write_back_elsewhere itf tgt_mkr_name c r) as (H1 & H2 & H3 & H4).
  unfold get_first_frame, get_last_frame.
  split; [exact H1|]. split; [exact H2|]. split.
  - intros o Ho. apply get_marker_data_ext; auto.
  - specialize (H4 tgt_mkr_name).
    unfold get_marker_data, check_frame_range_valid, get_first_frame, get_last_frame.
    rewrite H1, H2.
    destruct (points (write_back itf tgt_mkr_name c r).2 !! tgt_mkr_name) as [p'|] eqn:E';
      destruct (points itf !! tgt_mkr_name) as [p|] eqn:E.
    + destruct (negb _); [tauto|split; discriminate].
    + exfalso. destruct (proj1 H4 ltac:(eauto)) as [? ?]. discriminate.
    + exfalso. destruct (proj2 H4 ltac:(eauto)) as [? ?]. discriminate.
    + tauto.
Qed.

(** ** Counting valid frames *)

Lemma count_nonzero_mono (m m' : list bool) :
  length m = length m' ->
  (forall i, m !! i = Some true -> m' !! i = Some true) ->
  (count_nonzero m <= count_nonzero m')%nat /\
  forall f, m !! f = Some false -> m' !! f = Some true ->
    (count_nonzero m < count_nonzero m')%nat.
Proof.
  unfold count_nonzero. revert m'.
  induction m as [|b m IH]; intros [|b' m'] Hlen Hle; try discriminate.
  - split; [lia|]. intros f H. discriminate.
  - injection Hlen as Hlen.
    destruct (IH m' Hlen (fun i => Hle (S i))) as [IH1 IH2].
    pose proof (Hle 0%nat) as H0. simpl in H0.
    destruct b.
    + rewrite (filter_cons_True _ true) by reflexivity.
      assert (b' = true) as -> by (specialize (H0 eq_refl); congruence).
      rewrite (filter_cons_True _ true) by reflexivity. simpl. split; [lia|].
      intros [|f] Hf Hf'; [discriminate|]. specialize (IH2 f Hf Hf'). lia.
    + rewrite (filter_cons_False _ false) by discriminate.
      destruct b'.
      * rewrite (filter_cons_True _ true) by reflexivity. simpl. split; [lia|].
        intros _ _ _. lia.
      * rewrite (filter_cons_False _ false) by discriminate. split; [lia|].
        intros [|f] Hf Hf'; [discriminate|]. exact (IH2 f Hf Hf').
Qed.

(** Under the frame effect, a repaired frame makes the count of valid
    frames grow. *)
Lemma valid_count_grows d d' f :
  frame_effect d d' -> repaired d d' f ->
  (count_nonzero (valid_mask (resid d)) < count_nonzero (valid_mask (resid d')))%nat.
Proof.
  intros (_ & Hlr & Hfe) [Hi Hv].
  refine (proj2 (count_nonzero_mono _ _ _ _) f _ _).
  - rewrite !length_valid_mask. lia.
  - intros i Hm. apply valid_mask_true in Hm. apply valid_mask_true.
    destruct (proj1 (Hfe i) Hm) as [_ Hr]. destruct Hm as (x & Hx & Hc).
    exists x. split; [congruence | exact Hc].
  - now apply valid_mask_false.
  - now apply valid_mask_true.
Qed.

(** ** Zeros written by the loops *)

Lemma zero_persists {S X} (arrs : S -> arrays) (W : X -> list nat)
    (body : S -> X -> result S) l st0 stf f :
  local_body arrs W body ->
  for_each body l st0 = Ok stf ->
  (arrs st0).2 !! f = Some 0 -> (arrs stf).2 !! f = Some 0.
Proof.
  intros Hloc Hrun H0.
  destruct (for_each_local _ _ _ _ _ _ Hloc Hrun) as [_ Hi].
  destruct (Hi f) as [_ [[_ Hu]|Hz]]; [congruence | exact Hz].
Qed.

Lemma loop_zeros {S X} (arrs : S -> arrays) (W : X -> list nat)
    (body : S -> X -> result S) l st0 stf :
  local_body arrs W body ->
  (forall st x st' f, body st x = Ok st' -> f ∈ W x -> (arrs st').2 !! f = Some 0) ->
  for_each body l st0 = Ok stf ->
  forall x f, x ∈ l -> f ∈ W x -> (arrs stf).2 !! f = Some 0.
Proof.
  intros Hloc Hz. revert st0. induction l as [|y l IH]; intros st0 Hrun x f Hx Hf.
  - inversion Hx.
  - simpl in Hrun. destruct (body st0 y) as [st1|] eqn:E; [|discriminate].
    simpl in Hrun. apply elem_of_cons in Hx as [->|Hx].
    + eapply zero_persists; eauto.
    + eapply IH; eauto.
Qed.

(** A loop that ends with [b_updated] set has written a zero residual. *)
Lemma flag_witness {X} (W : X -> list nat) (body : work -> X -> result work)
    l st0 stf :
  local_body work_arrays W body ->
  (forall st x st', body st x = Ok st' ->
     st'.2 = st.2 \/ exists f, f ∈ W x /\ (work_arrays st').2 !! f = Some 0) ->
  for_each body l st0 = Ok stf ->
  stf.2 = true ->
  st0.2 = true \/ exists x f, x ∈ l /\ f ∈ W x /\ (work_arrays stf).2 !! f = Some 0.
Proof.
  intros Hloc Hflag. revert st0. induction l as [|y l IH]; intros st0 Hrun Hb.
  - injection Hrun as <-. now left.
  - simpl in Hrun. destruct (body st0 y) as [st1|] eqn:E; [|discriminate].
    simpl in Hrun. destruct (IH _ Hrun Hb) as [H1|(x & f & Hx & Hf & Hz)].
    + destruct (Hflag _ _ _ E) as [Heq|(f & Hf & Hz)].
      * left. congruence.
      * right. exists y, f. split; [now left|]. split; [exact Hf|].
        eapply zero_persists; eauto.
    + right. exists x, f. split; [now right|]. auto.
Qed.

Lemma pattern_body_flag dc dm bf st fr st' :
  pattern_body dc dm bf st fr = Ok st' ->
  st'.2 = st.2 \/ exists f, f ∈ [fr] /\ (work_arrays st').2 !! f = Some 0.
Proof.
  destruct st as [[c r] b]. intros H. unfold pattern_body in H.
  repeat (ok_step H; try (injection H as <-; now left)).
  injection H as <-. right. exists fr. split; [now left|]. simpl.
  match goal with E : py_set r fr 0 = Ok _ |- _ => apply py_set_Ok in E as [Hl ->] end.
  now apply list_lookup_insert_eq.
Qed.

Lemma gap_rigidbody_body_flag np_sqrt np_svd dict names cm af st fr st' :
  gap_rigidbody_body np_sqrt np_svd dict names cm af st fr = Ok st' ->
  st'.2 = st.2 \/ exists f, f ∈ [fr] /\ (work_arrays st').2 !! f = Some 0.
Proof.
  destruct st as [[c r] b]. intros H. unfold gap_rigidbody_body in H.
  repeat (ok_step H; try (injection H as <-; now left)).
  injection H as <-. right. exists fr. split; [now left|]. simpl.
  match goal with E : py_set r fr 0 = Ok _ |- _ => apply py_set_Ok in E as [Hl ->] end.
  now apply list_lookup_insert_eq.
Qed.

Lemma write_frames_zero (f : nat -> V3) st fr st' g :
  (let '(c, r) := st in
   c' ← py_set c fr (f fr); r' ← py_set r fr 0; Ok (c', r')) = Ok st' ->
  g ∈ [fr] -> st'.2 !! g = Some 0.
Proof.
  destruct st as [c r]. intros H Hg. apply list_elem_of_singleton in Hg as ->.
  repeat ok_step H. injection H as <-. simpl.
  match goal with E : py_set r fr 0 = Ok _ |- _ => apply py_set_Ok in E as [Hl ->] end.
  now apply list_lookup_insert_eq.
Qed.

Lemma interp_body_flag spline n vm k off minf st g st' :
  interp_body spline n vm k off minf st g = Ok st' ->
  st'.2 = st.2 \/ exists f, f ∈ g /\ (work_arrays st').2 !! f = Some 0.
Proof.
  destruct st as [[c r] b]. intros H. unfold interp_body in H.
  repeat (ok_step H; try (injection H as <-; now left)).
  injection H as <-. right.
  destruct g as [|f0 g]; [discriminate|].
  exists f0. split; [now left|]. simpl.
  match goal with
  | E : for_each _ (f0 :: g) (c, r) = Ok _ |- _ =>
      refine (loop_zeros (fun st : arrays => st) (fun fr => [fr]) _ _ _ _
                (write_frames_local _) _ E f0 f0 _ _)
  end.
  - intros [c1 r1] x st1 f Hb Hf.
    match type of Hb with
    | context [py_set c1 x (?u x, ?v x, ?w x)] =>
        exact (write_frames_zero (fun fr => (u fr, v fr, w fr)) (c1, r1) x st1 f Hb Hf)
    end.
  - now left.
  - now left.
Qed.

Lemma rigidbody_body_zero p0 mat_rot vec3 af st fr st' f :
  rigidbody_body p0 mat_rot vec3 af st fr = Ok st' ->
  f ∈ [fr] -> st'.2 !! f = Some 0.
Proof.
  destruct st as [c r]. intros H Hf. apply list_elem_of_singleton in Hf as ->.
  unfold rigidbody_body in H. ok_step H. clear E. repeat ok_step H.
  injection H as <-. simpl.
  match goal with E : py_set r fr 0 = Ok _ |- _ => apply py_set_Ok in E as [Hl ->] end.
  now apply list_lookup_insert_eq.
Qed.

(** ** What a run reports *)

Lemma written_reports itf name d c r :
  get_marker_data itf name = Some d ->
  frame_effect d (mkData c r) ->
  (exists f, invalid_at (resid d) f /\ r !! f = Some 0) ->
  forall b n, (write_back itf name c r).1 = Ok (b, n) ->
  exists d', get_marker_data (write_back itf name c r).2 name = Some d' /\
             reports d d' b n.
Proof.
  intros Hget Hfe Hz b n [= <- <-]. exists (mkData c r). split.
  - destruct Hfe as (Hc & Hr & _). now apply (get_after_write_back _ _ d).
  - split; [reflexivity|]. split; [exact Hfe | exact Hz].
Qed.

Lemma skipped_reports itf name d b n :
  get_marker_data itf name = Some d ->
  Ok (false, count_nonzero (valid_mask (resid d))) = Ok (b, n) ->
  exists d', get_marker_data itf name = Some d' /\ reports d d' b n.
Proof. intros Hget [= <- <-]. exists d. split; [exact Hget|]. now split. Qed.

Lemma finish_reports {X} itf name d (W : X -> list nat) body l :
  get_marker_data itf name = Some d ->
  local_body work_arrays W body ->
  (forall st x st', body st x = Ok st' ->
     st'.2 = st.2 \/ exists f, f ∈ W x /\ (work_arrays st').2 !! f = Some 0) ->
  (forall x i, x ∈ l -> i ∈ W x -> invalid_at (resid d) i) ->
  let run := finish itf name (count_nonzero (valid_mask (resid d)))
               (for_each body l (coords d, resid d, false)) in
  forall b n, run.1 = Ok (b, n) ->
  exists d', get_marker_data run.2 name = Some d' /\ reports d d' b n.
Proof.
  intros Hget Hloc Hflag Hinv run b n. subst run. unfold finish.
  destruct (for_each body l _) as [[[c r] bu]|e] eqn:Hrun; [|discriminate].
  destruct bu; [|apply skipped_reports, Hget].
  apply written_reports; [exact Hget| |].
  - destruct d as [c0 r0].
    exact (loop_frame_effect work_arrays W body l (c0, r0, false) (c, r, true)
             Hloc Hinv Hrun).
  - destruct (flag_witness W body l _ _ Hloc Hflag Hrun eq_refl)
      as [Hb|(x & f & Hx & Hf & Hz)]; [discriminate|].
    exists f. split; [eapply Hinv; eauto | exact Hz].
Qed.

Lemma pattern_reports itf tgt dnr d :
  get_marker_data itf tgt = Some d ->
  let run := fill_marker_gap_pattern itf tgt dnr in
  forall b n, run.1 = Ok (b, n) ->
  exists d', get_marker_data run.2 tgt = Some d' /\ reports d d' b n.
Proof.
  intros Hget run b n. subst run. unfold fill_marker_gap_pattern. rewrite Hget.
  destruct (_ || _); [apply skipped_reports, Hget|].
  destruct (get_marker_data itf dnr) as [dd|]; [|discriminate].
  destruct (negb _); [apply skipped_reports, Hget|].
  destruct (negb _); [apply skipped_reports, Hget|].
  apply (finish_reports itf tgt d (fun fr => [fr])); [exact Hget| | |].
  - apply pattern_body_local.
  - apply pattern_body_flag.
  - intros x i Hx Hi. apply list_elem_of_singleton in Hi as ->.
    now apply elem_of_np_where, logical_not_true, valid_mask_false in Hx.
Qed.

Lemma gap_rigidbody_reports np_sqrt np_svd itf tgt cl d :
  get_marker_data itf tgt = Some d ->
  let run := fill_marker_gap_rigidbody np_sqrt np_svd itf tgt cl in
  forall b n, run.1 = Ok (b, n) ->
  exists d', get_marker_data run.2 tgt = Some d' /\ reports d d' b n.
Proof.
  intros Hget run b n. subst run. unfold fill_marker_gap_rigidbody. rewrite Hget.
  destruct (_ =? _)%nat; [apply skipped_reports, Hget|].
  destruct (_ =? _)%Z; [apply skipped_reports, Hget|].
  destruct (cluster_fetch _ _ _) as [[dict cm]|]; [|discriminate].
  destruct (negb _); [apply skipped_reports, Hget|].
  destruct (negb _); [apply skipped_reports, Hget|].
  apply (finish_reports itf tgt d (fun fr => [fr])); [exact Hget| | |].
  - apply gap_rigidbody_body_local.
  - apply gap_rigidbody_body_flag.
  - intros x i Hx Hi. apply list_elem_of_singleton in Hi as ->.
    eapply cl_only_invalid; eauto.
Qed.

Lemma interp_reports spline itf tgt k off minf d :
  get_marker_data itf tgt = Some d ->
  let run := fill_marker_gap_interp spline itf tgt k off minf in
  forall b n, run.1 = Ok (b, n) ->
  exists d', get_marker_data run.2 tgt = Some d' /\ reports d d' b n.
Proof.
  intros Hget run b n. subst run. unfold fill_marker_gap_interp. rewrite Hget.
  destruct (_ || _); [apply skipped_reports, Hget|].
  apply (finish_reports itf tgt d (fun g => g)); [exact Hget| | |].
  - apply interp_body_local.
  - apply interp_body_flag.
  - intros g i Hg Hi.
    pose proof (elem_of_invalid_gaps _ _ _ Hg Hi) as Hin.
    now apply elem_of_np_where, logical_not_true, valid_mask_false in Hin.
Qed.

Lemma rigidbody_reports np_sqrt np_uninit itf tgt cl d :
  get_marker_data itf tgt = Some d ->
  let run := recover_marker_rigidbody np_sqrt np_uninit itf tgt cl in
  forall b n, run.1 = Ok (b, n) ->
  exists d', get_marker_data run.2 tgt = Some d' /\ reports d d' b n.
Proof.
  intros Hget run b n. subst run. unfold recover_marker_rigidbody. rewrite Hget.
  destruct (_ =? _)%nat; [apply skipped_reports, Hget|].
  destruct (_ =? _)%Z; [apply skipped_reports, Hget|].
  destruct (cluster_fetch _ _ _) as [[dict cm]|]; [|discriminate].
  destruct (negb _); [apply skipped_reports, Hget|].
  destruct (negb (np_any _)) eqn:Hany; [apply skipped_reports, Hget|].
  destruct (nearest_three _ _ _ _) as [[[p0 p1] p2]|]; [|discriminate].
  unfold mbind, result_bind.
  destruct (for_each _ _ _) as [[c r]|] eqn:Hrun; [|discriminate].
  assert (Hinv : forall x, x ∈ np_where (logical_and cm (logical_not
                   (valid_mask (resid d)))) -> invalid_at (resid d) x)
    by (intros x; apply cl_only_invalid).
  apply written_reports; [exact Hget| |].
  - destruct d as [c0 r0].
    refine (loop_frame_effect (fun st : arrays => st) _ _ _ (c0, r0) (c, r)
              (rigidbody_body_local _ _ _ _) _ Hrun).
    intros x i Hx Hi. apply list_elem_of_singleton in Hi as ->. now apply Hinv.
  - apply negb_false_iff, np_any_true in Hany as [f Hf].
    apply elem_of_np_where in Hf. exists f. split; [now apply Hinv|].
    refine (loop_zeros (fun st : arrays => st) (fun fr => [fr]) _ _ _ _
              (rigidbody_body_local _ _ _ _) _ Hrun f f Hf _); [|now left].
    intros st x st' g. apply rigidbody_body_zero.
Qed.

Lemma relative_reports np_sqrt np_uninit itf tgt cl d :
  get_marker_data itf tgt = Some d ->
  let run := recover_marker_relative np_sqrt np_uninit itf tgt cl in
  forall b n, run.1 = Ok (b, n) ->
  exists d', get_marker_data run.2 tgt = Some d' /\ reports d d' b n.
Proof.
  intros Hget run b n. subst run. unfold recover_marker_relative. rewrite Hget.
  destruct (get_marker_data_Some _ _ _ Hget) as (_ & Hlc & Hlr).
  destruct (_ =? _)%nat; [apply skipped_reports, Hget|].
  destruct (_ =? _)%Z; [apply skipped_reports, Hget|].
  destruct (cluster_fetch _ _ _) as [[dict cm]|] eqn:Hcf; [|discriminate].
  apply cluster_fetch_spec in Hcf as (Hlm & _ & _).
  destruct (negb _); [apply skipped_reports, Hget|].
  destruct (negb (np_any _)) eqn:Hany; [apply skipped_reports, Hget|].
  destruct (nearest_three _ _ _ _) as [[[p0 p1] p2]|]; [|discriminate].
  unfold mbind, result_bind.
  destruct (map_result _ _) as [rec|] eqn:Hrun; [|discriminate].
  set (omask := logical_and cm (logical_not (valid_mask (resid d)))) in *.
  assert (Hlo : length omask = length (resid d)).
  { unfold omask. rewrite length_logical_and. unfold logical_not.
    rewrite length_fmap, length_valid_mask. lia. }
  assert (Hinv : forall i, omask !! i = Some true -> invalid_at (resid d) i).
  { intros i Hi. apply logical_and_true in Hi as [_ Hi].
    now apply logical_not_true, valid_mask_false in Hi. }
  apply written_reports; [exact Hget| |].
  - destruct d as [c0 r0]. simpl in *. now apply mask_write_frame_effect.
  - apply negb_false_iff, np_any_true in Hany as [f Hf].
    exists f. split; [now apply Hinv|].
    rewrite mask_fill_lookup by exact Hlo. rewrite decide_True by exact Hf.
    destruct (Hinv f Hf) as (x & -> & _). reflexivity.
Qed.

(** X3. When one of the five repair routines returns [(updated, n)], [n]
    is the number of valid frames of the target as the file holds it
    afterwards.  With [updated = True] some blocked frame has been given
    residual 0 and [n] exceeds the number of valid frames before the call;
    with [updated = False] the target reads back unchanged. *)
Theorem returned_count_is_valid_frames np_sqrt np_uninit np_svd spline
    itf tgt_mkr_name cl_mkr_names dnr_mkr_name k search_span_offset
    min_needed_frs run d (updated : bool) (n : nat) :
  run ∈ strategy_runs np_sqrt np_uninit np_svd spline itf tgt_mkr_name
          cl_mkr_names dnr_mkr_name k search_span_offset min_needed_frs ->
  get_marker_data itf tgt_mkr_name = Some d ->
  run.1 = Ok (updated, n) ->
  exists d',
    get_marker_data run.2 tgt_mkr_name = Some d' /\
    n = count_nonzero (valid_mask (resid d')) /\
    if updated then
      (exists f, repaired d d' f /\ resid d' !! f = Some 0) /\
      (count_nonzero (valid_mask (resid d)) < n)%nat
    else d' = d.
Proof.
  intros Hrun Hget Hres.
  assert (Hrep : exists d', get_marker_data run.2 tgt_mkr_name = Some d' /\
                            reports d d' updated n).
  { unfold strategy_runs in Hrun.
    repeat (apply elem_of_cons in Hrun as [->|Hrun]).
    - eapply relative_reports; eauto.
    - eapply rigidbody_reports; eauto.
    - eapply gap_rigidbody_reports; eauto.
    - eapply pattern_reports; eauto.
    - eapply interp_reports; eauto.
    - inversion Hrun. }
  destruct Hrep as (d' & Hget' & Hn & Hrest). exists d'.
  split; [exact Hget'|]. split; [exact Hn|].
  destruct updated; [|exact Hrest].
  destruct Hrest as (Hfe & f & Hi & Hz).
  assert (Hr : repaired d d' f) by (split; [exact Hi | now apply zero_is_valid]).
  split; [eauto|]. rewrite Hn. eapply valid_count_grows; eauto.
Qed.

(** ** Markers that cannot be read *)

Lemma get_marker_data_None itf name :
  get_marker_data itf name = None <->
  points itf !! name = None \/ (get_num_frames itf < 2)%Z.
Proof.
  unfold get_marker_data, check_frame_range_valid, get_num_frames,
    get_first_frame, get_last_frame.
  destruct (points itf !! name) as [p|].
  - destruct (Z.ltb_spec (video_first itf) (video_last itf)); simpl.
    + split; [discriminate|]. intros [H0|H0]; [discriminate|lia].
    + split; [intros _; right; lia|reflexivity].
  - split; auto.
Qed.

Lemma cluster_fetch_missing itf n names mkr :
  mkr ∈ names -> get_marker_data itf mkr = None ->
  cluster_fetch itf n names = Raise TypeError.
Proof.
  unfold cluster_fetch. generalize (replicate (Z.to_nat n) true).
  generalize (∅ : gmap string (list V3)).
  induction names as [|m names IH]; intros dict mask Hin Hnone; [inversion Hin|].
  simpl. destruct (get_marker_data itf m) as [dm|] eqn:Em; simpl; [|reflexivity].
  apply elem_of_cons in Hin as [->|Hin]; [congruence|]. now apply IH.
Qed.

(** The guards on the target do not fire when it has a valid and a
    blocked frame. *)
Lemma target_guards_pass itf tgt d fv fi :
  get_marker_data itf tgt = Some d ->
  valid_at (resid d) fv -> invalid_at (resid d) fi ->
  (count_nonzero (valid_mask (resid d)) =? 0)%nat = false /\
  (Z.of_nat (count_nonzero (valid_mask (resid d))) =? get_num_frames itf)%Z = false.
Proof.
  intros Hget Hv Hi.
  destruct (get_marker_data_Some _ _ _ Hget) as (HN2 & Hlc & Hlr).
  pose proof (count_nonzero_pos _ _ (proj2 (valid_mask_true _ _) Hv)) as Hpos.
  pose proof (count_nonzero_lt _ _ (proj2 (valid_mask_false _ _) Hi)) as Hlt.
  rewrite length_valid_mask in Hlt. split.
  - apply Nat.eqb_neq. lia.
  - apply Z.eqb_neq. lia.
Qed.

(** X5. Let the target have a valid and a blocked frame, so that the
    opening guards pass.  If a marker of [cl_mkr_names] cannot be read, the
    three cluster routines raise [TypeError] while fetching the cluster;
    if the donor cannot be read, so does the pattern fill.  The file is
    left as it was. *)
Theorem unreadable_helper_raises_TypeError np_sqrt np_uninit np_svd
    itf tgt_mkr_name cl_mkr_names dnr_mkr_name d fv fi :
  get_marker_data itf tgt_mkr_name = Some d ->
  valid_at (resid d) fv -> invalid_at (resid d) fi ->
  ((exists mkr, mkr ∈ cl_mkr_names /\ get_marker_data itf mkr = None) ->
     recover_marker_relative np_sqrt np_uninit itf tgt_mkr_name cl_mkr_names
       = (Raise TypeError, itf) /\
     recover_marker_rigidbody np_sqrt np_uninit itf tgt_mkr_name cl_mkr_names
       = (Raise TypeError, itf) /\
     fill_marker_gap_rigidbody np_sqrt np_svd itf tgt_mkr_name cl_mkr_names
       = (Raise TypeError, itf)) /\
  (get_marker_data itf dnr_mkr_name = None ->
     fill_marker_gap_pattern itf tgt_mkr_name dnr_mkr_name
       = (Raise TypeError, itf)).
Proof.
  intros Hget Hv Hi.
  destruct (target_guards_pass _ _ _ _ _ Hget Hv Hi) as [G0 GN].
  split.
  - intros (mkr & Hin & Hnone).
    pose proof (cluster_fetch_missing itf (get_num_frames itf) _ _ Hin Hnone) as Hcf.
    unfold recover_marker_relative, recover_marker_rigidbody,
      fill_marker_gap_rigidbody.
    rewrite Hget, G0, GN, Hcf. auto.
  - intros Hnone. unfold fill_marker_gap_pattern.
    rewrite Hget, G0, GN, Hnone. reflexivity.
Qed.

(** ** A target that is its own helper *)

Lemma own_cluster_mask itf tgt cl d dict cm :
  get_marker_data itf tgt = Some d -> tgt ∈ cl ->
  cluster_fetch itf (get_num_frames itf) cl = Ok (dict, cm) ->
  np_any (logical_and cm (logical_not (valid_mask (resid d)))) = false.
Proof.
  intros Hget Hin Hcf. apply cluster_fetch_spec in Hcf as (_ & _ & Hcm).
  apply np_any_false. intros i Hi.
  apply logical_and_true in Hi as [Hc Hn].
  apply logical_not_true, valid_mask_false in Hn.
  apply Hcm in Hc as [_ Hall]. destruct (Hall tgt Hin) as (dm & Hdm & Hv).
  rewrite Hget in Hdm. injection Hdm as <-.
  eapply valid_invalid_excl; eauto.
Qed.

Ltac no_update := split; [reflexivity | intros ?; discriminate].

(** X6. A target listed among its own cluster markers is never repaired:
    the cluster-only mask is empty, and the three cluster routines return
    without an update (or raise) and leave the file as it was.  Likewise
    the pattern fill with the target as its own donor never updates. *)
Theorem self_helped_target_is_not_repaired np_sqrt np_uninit np_svd
    itf tgt_mkr_name cl_mkr_names run :
  (tgt_mkr_name ∈ cl_mkr_names /\
   run ∈ [recover_marker_relative np_sqrt np_uninit itf tgt_mkr_name cl_mkr_names;
          recover_marker_rigidbody np_sqrt np_uninit itf tgt_mkr_name cl_mkr_names;
          fill_marker_gap_rigidbody np_sqrt np_svd itf tgt_mkr_name cl_mkr_names]) \/
  run = fill_marker_gap_pattern itf tgt_mkr_name tgt_mkr_name ->
  run.2 = itf /\ forall n, run.1 <> Ok (true, n).
Proof.
  intros [[Hin Hrun]| ->].
  - repeat (apply elem_of_cons in Hrun as [->|Hrun]); [| | |inversion Hrun].
    all: unfold recover_marker_relative, recover_marker_rigidbody,
           fill_marker_gap_rigidbody.
    all: destruct (get_marker_data itf tgt_mkr_name) as [d|] eqn:Hget; [|no_update].
    all: destruct (_ =? _)%nat; [no_update|].
    all: destruct (_ =? _)%Z; [no_update|].
    all: destruct (cluster_fetch _ _ _) as [[dict cm]|] eqn:Hcf; [|no_update].
    all: destruct (negb _); [no_update|].
    all: rewrite (own_cluster_mask _ _ _ _ _ _ Hget Hin Hcf); no_update.
  - destruct (pattern_ends_in itf tgt_mkr_name tgt_mkr_name)
      as [H|(c & r & Hrun)]; [exact H|exfalso].
    destruct (get_marker_data itf tgt_mkr_name) as [d|] eqn:Hget.
    2:{ unfold fill_marker_gap_pattern in Hrun. now rewrite Hget in Hrun. }
    destruct (pattern_reports itf tgt_mkr_name tgt_mkr_name d Hget true
                (count_nonzero (valid_mask r)))
      as (d' & Hget' & _ & _ & f & Hi & Hz).
    { now rewrite Hrun. }
    assert (Hrep : repaired d d' f) by (split; [exact Hi | now apply zero_is_valid]).
    assert (Hfill : pattern_filled d d d' f).
    { rewrite Hrun in Hget'.
      apply (pattern_fill_value_updated itf tgt_mkr_name tgt_mkr_name
               (count_nonzero (valid_mask r))
               (write_back itf tgt_mkr_name c r).2); auto. }
    destruct Hfill as (f0 & f1 & t0 & t1 & d0 & d1 & df & v & Hlt & _ & _ & _ &
                       Hspan & _).
    eapply valid_invalid_excl; [apply (Hspan f); lia | exact Hi].
Qed.

(** ** Rigid-body recovery *)

(** The three ways [rigidbody_body] obtains the vector it adds to the
    origin marker. *)
Lemma rigidbody_body_inv p0 mat_rot vec3 af c r fr c' r' :
  rigidbody_body p0 mat_rot vec3 af (c, r) fr = Ok (c', r') ->
  exists p vc Mfr,
    p0 !! fr = Some p /\ mat_rot !! fr = Some Mfr /\ (fr < length c)%nat /\
    c' = <[fr := vadd p vc]> c /\ r' = <[fr := 0]> r /\
    ((searchsorted af fr = 0%nat /\
      exists fr0 Mfr0 v0,
        af !! 0%nat = Some fr0 /\ mat_rot !! fr0 = Some Mfr0 /\
        vec3 !! fr0 = Some v0 /\ vc = mv (mm Mfr (mT Mfr0)) v0) \/
     (searchsorted af fr <> 0%nat /\ (length af <= searchsorted af fr)%nat /\
      exists fr1 Mfr1 v1,
        af !! (length af - 1)%nat = Some fr1 /\ mat_rot !! fr1 = Some Mfr1 /\
        vec3 !! fr1 = Some v1 /\ vc = mv (mm Mfr (mT Mfr1)) v1) \/
     (exists j fr0 fr1 Mfr0 Mfr1 v0 v1,
        searchsorted af fr = S j /\ (S j < length af)%nat /\
        af !! j = Some fr0 /\ af !! S j = Some fr1 /\
        mat_rot !! fr0 = Some Mfr0 /\ mat_rot !! fr1 = Some Mfr1 /\
        vec3 !! fr0 = Some v0 /\ vec3 !! fr1 = Some v1 /\
        vc = vdivs
               (vadd (vscale (float_of_Z (Z.of_nat fr1 - Z.of_nat fr))
                             (mv (mm Mfr (mT Mfr0)) v0))
                     (vscale (float_of_Z (Z.of_nat fr - Z.of_nat fr0))
                             (mv (mm Mfr (mT Mfr1)) v1)))
               (float_of_Z (Z.of_nat fr - Z.of_nat fr0)
                + float_of_Z (Z.of_nat fr1 - Z.of_nat fr)))).
Proof.
  unfold rigidbody_body. intros H.
  destruct (Nat.eqb_spec (searchsorted af fr) 0) as [H0|H0].
  - ok_bind H. rename E into Hvc. repeat ok_bind Hvc. injection Hvc as <-.
    repeat ok_bind H. injection H as <- <-.
    repeat match goal with
    | E : py_at _ _ = Ok _ |- _ => apply py_at_Ok in E
    | E : py_set _ _ _ = Ok _ |- _ => apply py_set_Ok in E as [? ->]
    | E : py_get _ 0 = Ok _ |- _ => apply (py_get_Ok_nonneg _ 0%Z) in E; [|lia]
    | E : Ok _ = Ok _ |- _ => injection E as <-
    end.
    do 3 eexists. repeat (split; [eassumption || reflexivity|]).
    left. split; [exact H0|]. do 3 eexists.
    repeat (split; [eassumption || reflexivity|]). reflexivity.
  - destruct (Nat.leb_spec (length af) (searchsorted af fr)) as [Hge|Hlt].
    + ok_bind H. rename E into Hvc. repeat ok_bind Hvc. injection Hvc as <-.
      repeat ok_bind H. injection H as <- <-.
      pose proof (searchsorted_le af fr) as Hle.
      repeat match goal with
      | E : py_at _ _ = Ok _ |- _ => apply py_at_Ok in E
      | E : py_set _ _ _ = Ok _ |- _ => apply py_set_Ok in E as [? ->]
      | E : py_get _ _ = Ok _ |- _ =>
          apply py_get_Ok_nonneg in E; [|lia];
          replace (Z.to_nat (Z.of_nat (length af) - 1)) with (length af - 1)%nat
            in E by lia
      | E : Ok _ = Ok _ |- _ => injection E as <-
      end.
      do 3 eexists. repeat (split; [eassumption || reflexivity|]).
      right; left. split; [exact H0|]. split; [exact Hge|]. do 3 eexists.
      repeat (split; [eassumption || reflexivity|]). reflexivity.
    + ok_bind H. rename E into Hvc. repeat ok_bind Hvc. injection Hvc as <-.
      repeat ok_bind H. injection H as <- <-.
      destruct (searchsorted af fr) as [|j] eqn:Hk; [congruence|].
      repeat match goal with
      | E : py_at _ _ = Ok _ |- _ => apply py_at_Ok in E
      | E : py_set _ _ _ = Ok _ |- _ => apply py_set_Ok in E as [? ->]
      | E : py_get _ _ = Ok _ |- _ =>
          apply py_get_Ok_nonneg in E; [|lia];
          replace (Z.to_nat (Z.of_nat (S j) - 1)) with j in E by lia
      | E : Ok _ = Ok _ |- _ => injection E as <-
      end.
      do 3 eexists. repeat (split; [eassumption || reflexivity|]).
      right; right. exists j. do 6 eexists.
      repeat (split; [eassumption || reflexivity || lia|]). reflexivity.
Qed.

Lemma for_each_total {S A} (body : S -> A -> result S) (I : S -> Prop) l st0 :
  (forall st x, I st -> x ∈ l -> exists st', body st x = Ok st' /\ I st') ->
  I st0 -> exists stf, for_each body l st0 = Ok stf /\ I stf.
Proof.
  revert st0. induction l as [|x l IH]; intros st0 Hstep H0; simpl; [eauto|].
  destruct (Hstep st0 x H0) as (st1 & -> & H1); [now left|]. simpl.
  apply IH; [|exact H1]. intros st y HI Hy. apply Hstep; [exact HI | now right].
Qed.

Lemma py_get_lt {A} (a : list A) (i : Z) :
  (0 <= i < Z.of_nat (length a))%Z -> exists x, py_get a i = Ok x /\ a !! Z.to_nat i = Some x.
Proof.
  intros Hi. destruct (lookup_lt_is_Some_2 a (Z.to_nat i)) as [x Hx]; [lia|].
  exists x. split; [|exact Hx].
  rewrite <- (Z2Nat.id i) by lia. now rewrite py_get_nat, Hx.
Qed.

Lemma py_set_lt {A} (a : list A) i x :
  (i < length a)%nat -> py_set a i x = Ok (<[i := x]> a).
Proof. intros H. apply py_set_Ok. auto. Qed.

Lemma rigidbody_body_total p0 mat_rot vec3 af c r fr N :
  length p0 = N -> length mat_rot = N -> length vec3 = N ->
  length c = N -> length r = N ->
  af <> [] -> (forall g, g ∈ af -> (g < N)%nat) -> (fr < N)%nat ->
  exists c' r', rigidbody_body p0 mat_rot vec3 af (c, r) fr = Ok (c', r') /\
                length c' = N /\ length r' = N.
Proof.
  intros Hp0 Hm Hv Hc Hr Hne Haf Hfr. unfold rigidbody_body.
  assert (Hidx : forall i : Z, (0 <= i < Z.of_nat (length af))%Z ->
            exists g M v, py_get af i = Ok g /\ py_at mat_rot g = Ok M /\
                          py_at vec3 g = Ok v).
  { intros i Hi. destruct (py_get_lt af i Hi) as (g & Hg & Hl).
    apply list_elem_of_lookup_2, Haf in Hl.
    destruct (py_at_lt mat_rot g ltac:(lia)) as [M HM].
    destruct (py_at_lt vec3 g ltac:(lia)) as [v Hv'].
    exists g, M, v. auto. }
  destruct (py_at_lt mat_rot fr ltac:(lia)) as [Mfr HMfr].
  destruct (py_at_lt p0 fr ltac:(lia)) as [p Hp].
  assert (Hlen : (0 < length af)%nat) by (destruct af; [congruence | simpl; lia]).
  pose proof (searchsorted_le af fr) as Hss.
  assert (Htail : forall vc,
    (p ← py_at p0 fr;
     tgt_mkr_coords' ← py_set c fr (vadd p vc);
     tgt_mkr_resid' ← py_set r fr 0;
     Ok (tgt_mkr_coords', tgt_mkr_resid')) =
    Ok (<[fr := vadd p vc]> c, <[fr := 0]> r)).
  { intros vc. unfold mbind, result_bind.
    rewrite Hp, !py_set_lt by lia. reflexivity. }
  destruct (Nat.eqb_spec (searchsorted af fr) 0) as [H0|H0].
  - destruct (Hidx 0%Z ltac:(lia)) as (g & M & v & Hg & HM & Hv').
    unfold mbind at 1, result_bind at 1. unfold mbind at 1, result_bind at 1.
    rewrite Hg. unfold mbind at 1, result_bind at 1. rewrite HMfr.
    unfold mbind at 1, result_bind at 1. rewrite HM.
    unfold mbind at 1, result_bind at 1. rewrite Hv'.
    rewrite Htail. do 2 eexists. split; [reflexivity|].
    rewrite !length_insert. auto.
  - destruct (Nat.leb_spec (length af) (searchsorted af fr)) as [Hge|Hlt].
    + destruct (Hidx (Z.of_nat (length af) - 1)%Z ltac:(lia))
        as (g & M & v & Hg & HM & Hv').
      unfold mbind at 1, result_bind at 1. unfold mbind at 1, result_bind at 1.
      rewrite Hg. unfold mbind at 1, result_bind at 1. rewrite HMfr.
      unfold mbind at 1, result_bind at 1. rewrite HM.
      unfold mbind at 1, result_bind at 1. rewrite Hv'.
      rewrite Htail. do 2 eexists. split; [reflexivity|].
      rewrite !length_insert. auto.
    + destruct (Hidx (Z.of_nat (searchsorted af fr) - 1)%Z ltac:(lia))
        as (g0 & M0 & v0 & Hg0 & HM0 & Hv0).
      destruct (Hidx (Z.of_nat (searchsorted af fr)) ltac:(lia))
        as (g1 & M1 & v1 & Hg1 & HM1 & Hv1).
      fold (py_at af (searchsorted af fr)) in Hg1.
      unfold mbind at 1, result_bind at 1. unfold mbind at 1, result_bind at 1.
      rewrite Hg0. unfold mbind at 1, result_bind at 1. rewrite Hg1.
      unfold mbind at 1, result_bind at 1. rewrite HMfr.
      unfold mbind at 1, result_bind at 1. rewrite HM0.
      unfold mbind at 1, result_bind at 1. rewrite HM1.
      unfold mbind at 1, result_bind at 1. rewrite Hv0.
      unfold mbind at 1, result_bind at 1. rewrite Hv1.
      rewrite Htail. do 2 eexists. split; [reflexivity|].
      rewrite !length_insert. auto.
Qed.

Lemma vec3_lookup (c0 p0 : list V3) g v :
  zip_with vsub c0 p0 !! g = Some v ->
  exists t p, c0 !! g = Some t /\ p0 !! g = Some p /\ v = vsub t p.
Proof.
  intros H. apply lookup_zip_with_Some in H as (t & p & -> & Ht & Hp). eauto.
Qed.

Lemma sorted_lt_lookup_le (l : list nat) i j x y :
  StronglySorted lt l -> l !! i = Some x -> l !! j = Some y ->
  (i <= j)%nat -> (x <= y)%nat.
Proof.
  intros Hs Hi Hj Hij. destruct (decide (i = j)) as [->|Hne].
  - assert (x = y) by congruence. lia.
  - pose proof (sorted_lt_lookup _ _ _ _ _ Hs Hi Hj ltac:(lia)). lia.
Qed.

(** The value rigid-body recovery writes, read off a run that returned
    [updated = True]. *)
Lemma rigidbody_recovery_value np_sqrt np_uninit itf tgt_mkr_name cl_mkr_names
    n itf' d d' :
  recover_marker_rigidbody np_sqrt np_uninit itf tgt_mkr_name cl_mkr_names
    = (Ok (true, n), itf') ->
  get_marker_data itf tgt_mkr_name = Some d ->
  get_marker_data itf' tgt_mkr_name = Some d' ->
  exists dict cm p0 p1 p2,
    cluster_fetch itf (get_num_frames itf) cl_mkr_names = Ok (dict, cm) /\
    nearest_three np_sqrt dict (coords d) cl_mkr_names = Ok (p0, p1, p2) /\
    forall f,
      rigidbody_frame_spec itf cl_mkr_names d d' p0
        (frame_rot np_sqrt np_uninit p0 p1 p2) f.
Proof.
  unfold recover_marker_rigidbody, rigidbody_frame_spec.
  intros H Hget Hget'. rewrite Hget in H.
  destruct (get_marker_data_Some _ _ _ Hget) as (HN2 & Hlc & Hlr).
  destruct (_ =? _)%nat; [discriminate|]. destruct (_ =? _)%Z; [discriminate|].
  destruct (cluster_fetch _ _ _) as [[dict cm]|] eqn:Hcf; [|discriminate].
  pose proof (cluster_fetch_spec _ _ _ _ Hcf) as (Hlm & _ & Hcm).
  destruct (negb _); [discriminate|]. destruct (negb _); [discriminate|].
  destruct (nearest_three _ _ _ _) as [[[p0 p1] p2]|] eqn:Hsel; [|discriminate].
  unfold mbind, result_bind in H.
  set (r0 := resid d) in *. set (c0 := coords d) in *.
  set (amask := logical_and cm (valid_mask r0)) in *.
  set (omask := logical_and cm (logical_not (valid_mask r0))) in *.
  set (mat_rot := frame_rot np_sqrt np_uninit p0 p1 p2) in *.
  destruct (for_each _ _ _) as [[c r]|] eqn:Hrun; [|discriminate].
  pose proof (rigidbody_body_local p0 mat_rot (zip_with vsub c0 p0) (np_where amask))
    as Hloc.
  destruct (for_each_local _ _ _ _ _ _ Hloc Hrun) as [[Hs1 Hs2] Hout].
  cbn [fst snd] in Hs1, Hs2.
  pose proof (get_after_write_back _ _ d c r Hget Hs1 Hs2) as Hw.
  rewrite H in Hw. cbn [snd] in Hw. rewrite Hw in Hget'. clear Hw H.
  injection Hget' as <-. cbn [coords resid].
  exists dict, cm, p0, p1, p2.
  split; [reflexivity || exact Hcf|]. split; [reflexivity || exact Hsel|].
  cbv zeta.
  set (anchor := fun g => valid_at r0 g /\ cluster_valid_at itf cl_mkr_names g).
  assert (Hanchor : forall g, amask !! g = Some true <-> anchor g).
  { intros g. unfold amask, anchor. rewrite logical_and_true, valid_mask_true, Hcm.
    split; [tauto|]. intros [Hv Hc]. split; [|exact Hv]. split; [|exact Hc].
    destruct Hv as (x & Hx & _). apply lookup_lt_Some in Hx. fold r0 in Hlr. lia. }
  assert (Haf : forall g, g ∈ np_where amask <-> anchor g).
  { intros g. now rewrite elem_of_np_where. }
  assert (Hcarried : forall f g Mf Mg v,
            mat_rot !! f = Some Mf -> mat_rot !! g = Some Mg ->
            zip_with vsub c0 p0 !! g = Some v ->
            carried_offset c0 p0 mat_rot f g (mv (mm Mf (mT Mg)) v)).
  { intros f g Mf Mg v HMf HMg Hv.
    apply vec3_lookup in Hv as (t & p & Ht & Hp & ->).
    exists t, p, Mf, Mg. auto. }
  intros f. split.
  - intros Hinv Hcv.
    assert (Hf : omask !! f = Some true).
    { unfold omask. rewrite logical_and_true, logical_not_true, valid_mask_false, Hcm.
      split; [|exact Hinv]. split; [|exact Hcv].
      destruct Hinv as (x & Hx & _). apply lookup_lt_Some in Hx. fold r0 in Hlr. lia. }
    pose proof (proj2 (elem_of_np_where omask f) Hf) as Hk.
    destruct (for_each_at (fun st : arrays => st) _ _ _ _ f Hloc
                (np_where_NoDup omask) Hk Hrun)
      as ([c1 r1] & [c2 r2] & Hbody & _ & _ & [Hu1 Hu2]).
    cbn [fst snd] in Hu1, Hu2.
    apply rigidbody_body_inv in Hbody
      as (p & vc & Mfr & Hp & HMfr & Hlt & -> & -> & Hvc).
    assert (Hlt2 : (f < length r1)%nat).
    { destruct Hinv as (x & Hx & _). apply lookup_lt_Some in Hx.
      destruct (lookup_lt_is_Some_2 r f ltac:(lia)) as [y Hy].
      rewrite Hu2 in Hy. apply lookup_lt_Some in Hy.
      now rewrite length_insert in Hy. }
    exists p, vc. split; [exact Hp|]. split.
    { rewrite Hu2. now apply list_lookup_insert_eq. }
    split.
    { rewrite Hu1. now apply list_lookup_insert_eq. }
    assert (Hnotanchor : ~ anchor f).
    { intros [Hv _]. eapply valid_invalid_excl; eauto. }
    pose proof (np_where_sorted amask) as Hsorted.
    destruct Hvc as [(Hss & fr0 & M0 & v0 & Hfr0 & HM0 & Hv0 & ->)
                    |[(Hss & Hge & fr1 & M1 & v1 & Hfr1 & HM1 & Hv1 & ->)
                     |(j & fr0 & fr1 & M0 & M1 & v0 & v1 & Hss & Hj & Hfr0 & Hfr1 &
                       HM0 & HM1 & Hv0 & Hv1 & ->)]].
    + right. exists fr0.
      assert (Ha0 : anchor fr0) by (apply Haf; eapply list_elem_of_lookup_2; eauto).
      split; [exact Ha0|]. split; [|now apply Hcarried].
      left. split.
      * assert (f <= fr0)%nat.
        { apply (searchsorted_at (np_where amask)). now rewrite Hss. }
        destruct (decide (f = fr0)) as [->|]; [contradiction|lia].
      * intros g Hg. apply Haf, list_elem_of_lookup in Hg as [i Hi].
        eapply (sorted_lt_lookup_le _ 0 i); eauto. lia.
    + right. exists fr1.
      assert (Ha1 : anchor fr1) by (apply Haf; eapply list_elem_of_lookup_2; eauto).
      split; [exact Ha1|]. split; [|now apply Hcarried].
      right. split.
      * apply (searchsorted_before (np_where amask) f (length (np_where amask) - 1));
          [|exact Hfr1]. apply lookup_lt_Some in Hfr1. lia.
      * intros g Hg. apply Haf, list_elem_of_lookup in Hg as [i Hi].
        eapply (sorted_lt_lookup_le _ i (length (np_where amask) - 1)); eauto.
        apply lookup_lt_Some in Hi. lia.
    + left.
      destruct (np_where_neighbours _ _ _ _ Hfr0 Hfr1) as (_ & Hm0 & Hm1 & Hbetween).
      exists fr0, fr1, (mv (mm Mfr (mT M0)) v0), (mv (mm Mfr (mT M1)) v1).
      assert (Hlt0 : (fr0 < f)%nat).
      { apply (searchsorted_before (np_where amask) f j); [lia | exact Hfr0]. }
      assert (Hle1 : (f <= fr1)%nat).
      { apply (searchsorted_at (np_where amask)). now rewrite Hss. }
      assert (Hne1 : f <> fr1).
      { intros ->. apply Hnotanchor, Hanchor, Hm1. }
      split; [lia|]. split; [now apply Hanchor|]. split; [now apply Hanchor|].
      split; [intros g Hg Ha; apply (Hbetween g Hg), Hanchor, Ha|].
      split; [now apply Hcarried|]. split; [now apply Hcarried|].
      apply weights_form.
  - intros Hncv. apply (Hout f). intros x Hx Hfx.
    apply list_elem_of_singleton in Hfx as ->.
    apply elem_of_np_where in Hx. unfold omask in Hx.
    rewrite logical_and_true, Hcm in Hx. tauto.
Qed.

Lemma rigidbody_recovery_succeeds np_sqrt np_uninit itf tgt cl d dict cm p0 p1 p2 :
  get_marker_data itf tgt = Some d ->
  cluster_fetch itf (get_num_frames itf) cl = Ok (dict, cm) ->
  nearest_three np_sqrt dict (coords d) cl = Ok (p0, p1, p2) ->
  (exists g, valid_at (resid d) g /\ cluster_valid_at itf cl g) ->
  (exists g, invalid_at (resid d) g /\ cluster_valid_at itf cl g) ->
  exists n itf',
    recover_marker_rigidbody np_sqrt np_uninit itf tgt cl = (Ok (true, n), itf').
Proof.
  intros Hget Hcf Hsel (ga & Hga & Hgac) (gi & Hgi & Hgic).
  destruct (get_marker_data_Some _ _ _ Hget) as (HN2 & Hlc & Hlr).
  pose proof (cluster_fetch_spec _ _ _ _ Hcf) as (Hlm & _ & Hcm).
  destruct (nearest_three_lengths _ _ _ _ _ _ _ _ _ Hcf Hsel) as (Hl0 & Hl1 & Hl2).
  set (N := Z.to_nat (get_num_frames itf)) in *.
  assert (HgaN : (ga < N)%nat).
  { destruct Hga as (x & Hx & _). apply lookup_lt_Some in Hx. lia. }
  assert (HgiN : (gi < N)%nat).
  { destruct Hgi as (x & Hx & _). apply lookup_lt_Some in Hx. lia. }
  unfold recover_marker_rigidbody. rewrite Hget.
  destruct (target_guards_pass _ _ _ _ _ Hget Hga Hgi) as [G0 GN].
  rewrite G0, GN, Hcf.
  set (amask := logical_and cm (valid_mask (resid d))).
  set (omask := logical_and cm (logical_not (valid_mask (resid d)))).
  assert (Ha : amask !! ga = Some true).
  { unfold amask. rewrite logical_and_true, valid_mask_true, Hcm. fold N. auto. }
  assert (Ho : omask !! gi = Some true).
  { unfold omask. rewrite logical_and_true, logical_not_true, valid_mask_false, Hcm.
    fold N. auto. }
  rewrite (proj2 (np_any_true amask) (ex_intro _ ga Ha)).
  rewrite (proj2 (np_any_true omask) (ex_intro _ gi Ho)). cbn [negb].
  rewrite Hsel. unfold mbind at 1, result_bind at 1.
  set (mat_rot := frame_rot np_sqrt np_uninit p0 p1 p2).
  assert (Hlmr : length mat_rot = N) by (now apply length_frame_rot).
  assert (Hlam : length amask = N).
  { unfold amask. rewrite length_logical_and, length_valid_mask. lia. }
  assert (Hlom : (length omask <= N)%nat).
  { unfold omask. rewrite length_logical_and. lia. }
  assert (Hne : np_where amask <> []).
  { intros E. apply elem_of_np_where in Ha. rewrite E in Ha. inversion Ha. }
  destruct (for_each_total
              (rigidbody_body p0 mat_rot (zip_with vsub (coords d) p0) (np_where amask))
              (fun st : arrays => length st.1 = N /\ length st.2 = N)
              (np_where omask) (coords d, resid d))
    as ([c r] & Hrun & _).
  { intros [c r] fr [Hc Hr] Hfr. cbn [fst snd] in Hc, Hr.
    apply np_where_lt in Hfr.
    destruct (rigidbody_body_total p0 mat_rot (zip_with vsub (coords d) p0)
                (np_where amask) c r fr N) as (c' & r' & Hb & Hc' & Hr'); auto.
    - rewrite length_zip_with. lia.
    - intros g Hg. apply np_where_lt in Hg. lia.
    - lia.
    - exists (c', r'). auto. }
  { split; [exact Hlc | exact Hlr]. }
  rewrite Hrun. unfold write_back. eauto.
Qed.


(** ** The number of cluster markers *)

Lemma cluster_fetch_total itf n names :
  (forall mkr, mkr ∈ names -> is_Some (get_marker_data itf mkr)) ->
  exists dict cm, cluster_fetch itf n names = Ok (dict, cm).
Proof.
  unfold cluster_fetch. generalize (replicate (Z.to_nat n) true).
  generalize (∅ : gmap string (list V3)).
  induction names as [|m names IH]; intros dict mask Hall; simpl; [eauto|].
  destruct (Hall m) as [dm ->]; [now left|]. simpl.
  apply IH. intros mkr Hm. apply Hall. now right.
Qed.

Lemma dict_update_fst (d : list (string * Q)) k v :
  (dict_update d k v).*1 = if decide (k ∈ d.*1) then d.*1 else d.*1 ++ [k].
Proof.
  induction d as [|[k' v'] d IH].
  - destruct (decide (k ∈ ([] : list (string * Q)).*1)) as [H|H];
      [inversion H | reflexivity].
  - cbn [dict_update]. rewrite !fmap_cons. cbn [fst].
    destruct (String.eqb_spec k' k) as [->|Hne].
    + rewrite decide_True by (now left). reflexivity.
    + rewrite fmap_cons, IH. cbn [fst].
      destruct (decide (k ∈ d.*1)) as [Hin|Hn].
      * rewrite decide_True by (now right). reflexivity.
      * rewrite decide_False; [reflexivity|].
        intros Hin. apply elem_of_cons in Hin as [->|Hin]; [congruence|contradiction].
Qed.

Lemma dict_update_keys (d : list (string * Q)) k v :
  NoDup d.*1 ->
  NoDup (dict_update d k v).*1 /\
  forall x, x ∈ (dict_update d k v).*1 <-> x ∈ d.*1 \/ x = k.
Proof.
  intros Hnd. rewrite dict_update_fst. destruct (decide (k ∈ d.*1)) as [Hin|Hn].
  - split; [exact Hnd|]. intros x. split; [auto|]. intros [H| ->]; assumption.
  - split.
    + apply NoDup_app. split; [exact Hnd|]. split; [|apply NoDup_singleton].
      intros x Hx Hk. apply list_elem_of_singleton in Hk as ->. contradiction.
    + intros x. rewrite elem_of_app, list_elem_of_singleton. reflexivity.
Qed.

Lemma cl_mkr_dist_keys np_sqrt (dict : gmap string (list V3)) c names :
  (forall m, m ∈ names -> is_Some (dict !! m)) ->
  exists dist, cl_mkr_dist np_sqrt dict c names = Ok dist /\
               NoDup dist.*1 /\ forall x, x ∈ dist.*1 <-> x ∈ names.
Proof.
  unfold cl_mkr_dist. intros Hall.
  enough (Hgen : forall d0 : list (string * Q), NoDup d0.*1 ->
            exists dist,
              for_each
                (fun dict_cl_mkr_dist mkr_name =>
                   c0 ← dict_get dict mkr_name;
                   let vec_diff := zip_with vsub c0 c in
                   Ok (dict_update dict_cl_mkr_dist mkr_name
                         (np_nanmean (norm np_sqrt <$> vec_diff))))
                names d0 = Ok dist /\
              NoDup dist.*1 /\
              forall x, x ∈ dist.*1 <-> x ∈ d0.*1 \/ x ∈ names).
  { destruct (Hgen [] (NoDup_nil_2)) as (dist & Hrun & Hnd & Hk).
    exists dist. split; [exact Hrun|]. split; [exact Hnd|].
    intros x. rewrite Hk. split; [intros [H|H]; [inversion H|exact H] | auto]. }
  induction names as [|m names IH]; intros d0 Hnd; simpl.
  - exists d0. split; [reflexivity|]. split; [exact Hnd|].
    intros x. split; [auto | intros [H|H]; [exact H|inversion H]].
  - destruct (Hall m) as [cm Hcm]; [now left|].
    assert (Hg : dict_get dict m = Ok cm) by (unfold dict_get; now rewrite Hcm).
    rewrite Hg. simpl.
    set (d1 := dict_update d0 m _).
    destruct (dict_update_keys d0 m (np_nanmean (norm np_sqrt <$> zip_with vsub cm c)) Hnd)
      as [Hnd1 Hk1]. fold d1 in Hnd1, Hk1.
    destruct (IH (fun x Hx => Hall x (proj2 (elem_of_cons _ _ _) (or_intror Hx))) d1 Hnd1)
      as (dist & Hrun & Hnd2 & Hk2).
    exists dist. split; [exact Hrun|]. split; [exact Hnd2|].
    intros x. rewrite Hk2, Hk1, elem_of_cons. tauto.
Qed.

Lemma insert_by_dist_perm x s : insert_by_dist x s ≡ₚ x :: s.
Proof.
  induction s as [|y s IH]; simpl; [reflexivity|].
  destruct (Qle_bool x.2 y.2); [reflexivity|].
  rewrite IH. apply Permutation_swap.
Qed.

Lemma sorted_by_dist_perm items : sorted_by_dist items ≡ₚ items.
Proof.
  unfold sorted_by_dist. induction items as [|x items IH]; simpl; [reflexivity|].
  now rewrite insert_by_dist_perm, IH.
Qed.

(** The selection succeeds exactly if the cluster names at least three
    different markers; otherwise the subscript [cl_mkr_dist_sorted[2]] (or
    an earlier one) is out of range. *)
Lemma nearest_three_cases np_sqrt (dict : gmap string (list V3)) c names :
  (forall m, m ∈ names -> is_Some (dict !! m)) ->
  ((length (remove_dups names) < 3)%nat /\
   nearest_three np_sqrt dict c names = Raise IndexError) \/
  ((3 <= length (remove_dups names))%nat /\
   exists p0 p1 p2, nearest_three np_sqrt dict c names = Ok (p0, p1, p2)).
Proof.
  intros Hall. unfold nearest_three.
  destruct (cl_mkr_dist_keys np_sqrt dict c names Hall) as (dist & -> & Hnd & Hk).
  unfold mbind at 1, result_bind at 1.
  pose proof (sorted_by_dist_perm dist) as Hperm.
  assert (Hlen : length (sorted_by_dist dist) = length (remove_dups names)).
  { rewrite Hperm, <- (length_fmap fst dist). apply Permutation_length.
    apply NoDup_Permutation; [exact Hnd | apply NoDup_remove_dups|].
    intros x. rewrite Hk. symmetry. apply elem_of_remove_dups. }
  assert (Hkey : forall kv, kv ∈ sorted_by_dist dist -> exists p, dict_get dict kv.1 = Ok p).
  { intros kv Hkv. rewrite Hperm in Hkv.
    assert (Hin : kv.1 ∈ names) by (apply Hk, list_elem_of_fmap; eauto).
    destruct (Hall _ Hin) as [p Hp]. exists p. unfold dict_get. now rewrite Hp. }
  rewrite <- Hlen. clear Hlen Hperm.
  unfold mbind, result_bind.
  pose proof (py_get_nat (sorted_by_dist dist) 0) as G0.
  pose proof (py_get_nat (sorted_by_dist dist) 1) as G1.
  pose proof (py_get_nat (sorted_by_dist dist) 2) as G2.
  change (Z.of_nat 0) with 0%Z in G0. change (Z.of_nat 1) with 1%Z in G1.
  change (Z.of_nat 2) with 2%Z in G2.
  rewrite G0. clear G0.
  destruct (sorted_by_dist dist) as [|kv0 [|kv1 [|kv2 s]]]; cbn [lookup list_lookup].
  - left. split; [simpl; lia | reflexivity].
  - left. split; [simpl; lia|].
    destruct (Hkey kv0) as [q0 Hq0]; [now left|].
    rewrite Hq0, G1. reflexivity.
  - left. split; [simpl; lia|].
    destruct (Hkey kv0) as [q0 Hq0]; [now left|].
    destruct (Hkey kv1) as [q1 Hq1]; [right; now left|].
    rewrite Hq0, G1. cbn [lookup list_lookup]. rewrite Hq1, G2. reflexivity.
  - right. split; [simpl; lia|].
    destruct (Hkey kv0) as [q0 Hq0]; [now left|].
    destruct (Hkey kv1) as [q1 Hq1]; [right; now left|].
    destruct (Hkey kv2) as [q2 Hq2]; [right; right; now left|].
    rewrite Hq0, G1. cbn [lookup list_lookup]. rewrite Hq1, G2.
    cbn [lookup list_lookup]. rewrite Hq2. eauto.
Qed.

(** X8. Let the target have an anchor and a frame at which every cluster
    marker is valid and it is blocked, so that all guards pass.  The two
    recovery routines then subscript the three nearest cluster markers:
    with fewer than three different names in [cl_mkr_names] both raise
    [IndexError] and leave the file as it was; with three or more both
    return [updated = True]. *)
Theorem recovery_needs_three_cluster_markers np_sqrt np_uninit
    itf tgt_mkr_name cl_mkr_names d :
  get_marker_data itf tgt_mkr_name = Some d ->
  (exists g, valid_at (resid d) g /\ cluster_valid_at itf cl_mkr_names g) ->
  (exists g, invalid_at (resid d) g /\ cluster_valid_at itf cl_mkr_names g) ->
  let relative :=
    recover_marker_relative np_sqrt np_uninit itf tgt_mkr_name cl_mkr_names in
  let rigidbody :=
    recover_marker_rigidbody np_sqrt np_uninit itf tgt_mkr_name cl_mkr_names in
  ((length (remove_dups cl_mkr_names) < 3)%nat /\
   relative = (Raise IndexError, itf) /\ rigidbody = (Raise IndexError, itf)) \/
  ((3 <= length (remove_dups cl_mkr_names))%nat /\
   (exists n itf', relative = (Ok (true, n), itf')) /\
   (exists n itf', rigidbody = (Ok (true, n), itf'))).
Proof.
  intros Hget Ha Hi relative rigidbody.
  destruct Ha as (ga & Hga & Hgac). destruct Hi as (gi & Hgi & Hgic).
  destruct (cluster_fetch_total itf (get_num_frames itf) cl_mkr_names)
    as (dict & cm & Hcf).
  { intros mkr Hm. destruct (Hgac mkr Hm) as (dm & -> & _). eauto. }
  pose proof (cluster_fetch_spec _ _ _ _ Hcf) as (Hlm & Hdict & Hcm).
  destruct (nearest_three_cases np_sqrt dict (coords d) cl_mkr_names)
    as [[Hlt Hsel]|(Hge & p0 & p1 & p2 & Hsel)].
  { intros m Hm. destruct (Hdict m Hm) as (dm & _ & ->). eauto. }
  - left. split; [exact Hlt|].
    destruct (get_marker_data_Some _ _ _ Hget) as (HN2 & Hlc & Hlr).
    destruct (target_guards_pass _ _ _ _ _ Hget Hga Hgi) as [G0 GN].
    assert (HgaN : (ga < Z.to_nat (get_num_frames itf))%nat).
    { destruct Hga as (x & Hx & _). apply lookup_lt_Some in Hx. lia. }
    assert (HgiN : (gi < Z.to_nat (get_num_frames itf))%nat).
    { destruct Hgi as (x & Hx & _). apply lookup_lt_Some in Hx. lia. }
    assert (Hany1 : np_any (logical_and cm (valid_mask (resid d))) = true).
    { apply np_any_true. exists ga.
      rewrite logical_and_true, valid_mask_true, Hcm. auto. }
    assert (Hany2 : np_any (logical_and cm (logical_not (valid_mask (resid d))))
                    = true).
    { apply np_any_true. exists gi.
      rewrite logical_and_true, logical_not_true, valid_mask_false, Hcm. auto. }
    subst relative rigidbody.
    unfold recover_marker_relative, recover_marker_rigidbody.
    rewrite Hget, G0, GN, Hcf, Hany1, Hany2, Hsel. cbn. auto.
  - right. split; [exact Hge|]. split.
    + eapply relative_recovery_succeeds; eauto.
    + eapply rigidbody_recovery_succeeds; eauto.
Qed.

(** ** Running a recovery a second time *)

Lemma for_each_ext {S A} (body1 body2 : S -> A -> result S) l st :
  (forall s x, x ∈ l -> body1 s x = body2 s x) ->
  for_each body1 l st = for_each body2 l st.
Proof.
  revert st. induction l as [|x l IH]; intros st H; simpl; [reflexivity|].
  rewrite (H st x) by now left. destruct (body2 st x); simpl; [|reflexivity].
  apply IH. intros s y Hy. apply H. now right.
Qed.

Lemma cluster_fetch_ext itf itf' n names :
  (forall mkr, mkr ∈ names -> get_marker_data itf' mkr = get_marker_data itf mkr) ->
  cluster_fetch itf' n names = cluster_fetch itf n names.
Proof.
  intros H. unfold cluster_fetch. apply for_each_ext.
  intros [dict cm] mkr Hm. now rewrite (H mkr Hm).
Qed.

(** After a write-back to a target outside the cluster, the cluster reads
    as before. *)
Lemma cluster_after_write_back itf tgt c r cl :
  tgt ∉ cl ->
  let itf' := (write_back itf tgt c r).2 in
  get_num_frames itf' = get_num_frames itf /\
  cluster_fetch itf' (get_num_frames itf') cl
  = cluster_fetch itf (get_num_frames itf) cl.
Proof.
  intros Hn itf'.
  destruct (write_back_elsewhere itf tgt c r) as (H1 & H2 & H3 & _).
  fold itf' in H1, H2, H3.
  assert (HN : get_num_frames itf' = get_num_frames itf).
  { unfold get_num_frames, get_first_frame, get_last_frame. now rewrite H1, H2. }
  split; [exact HN|]. rewrite HN. apply cluster_fetch_ext.
  intros mkr Hm. apply get_marker_data_ext; auto.
  apply H3. intros ->. contradiction.
Qed.

(** Once the target is valid wherever the cluster is, the cluster-only
    mask is empty. *)
Lemma repaired_cluster_mask itf cl dict cm d d' :
  cluster_fetch itf (get_num_frames itf) cl = Ok (dict, cm) ->
  frame_effect d d' ->
  length (resid d) = Z.to_nat (get_num_frames itf) ->
  (forall f, invalid_at (resid d) f -> cluster_valid_at itf cl f ->
             resid d' !! f = Some 0) ->
  np_any (logical_and cm (logical_not (valid_mask (resid d')))) = false.
Proof.
  intros Hcf (_ & Hlr' & Hfe) Hlr Hz.
  apply cluster_fetch_spec in Hcf as (_ & _ & Hcm).
  apply np_any_false. intros i Hi.
  apply logical_and_true in Hi as [Hc Hn].
  apply logical_not_true, valid_mask_false in Hn.
  apply Hcm in Hc as [HiN Hall].
  destruct (valid_or_invalid (resid d) i ltac:(lia)) as [Hv|Hinv].
  - destruct (proj1 (Hfe i) Hv) as [_ Hr]. destruct Hv as (x & Hx & Hc).
    eapply valid_invalid_excl; [|exact Hn]. exists x. split; [congruence|exact Hc].
  - eapply valid_invalid_excl; [|exact Hn]. apply zero_is_valid. now apply Hz.
Qed.

Lemma second_run_facts itf tgt cl c r d d' dict cm :
  get_marker_data itf tgt = Some d ->
  frame_effect d d' ->
  cluster_fetch itf (get_num_frames itf) cl = Ok (dict, cm) ->
  (forall f, invalid_at (resid d) f -> cluster_valid_at itf cl f ->
             resid d' !! f = Some 0) ->
  (forall f, ~ cluster_valid_at itf cl f -> resid d' !! f = resid d !! f) ->
  (exists f, invalid_at (resid d) f /\ resid d' !! f = Some 0) ->
  let itf' := (write_back itf tgt c r).2 in
  cluster_fetch itf' (get_num_frames itf') cl = Ok (dict, cm) /\
  np_any (logical_and cm (logical_not (valid_mask (resid d')))) = false.
Proof.
  intros Hget Hfe Hcf Hz Hu (f & Hfi & Hf0) itf'.
  destruct (get_marker_data_Some _ _ _ Hget) as (_ & _ & Hlr).
  assert (Hn : tgt ∉ cl).
  { intros Hin.
    assert (Hcv : cluster_valid_at itf cl f).
    { destruct (decide (cm !! f = Some true)) as [Hc|Hc].
      - apply (cluster_fetch_spec _ _ _ _ Hcf) in Hc as [_ Hc]. exact Hc.
      - exfalso. assert (Hncv : ~ cluster_valid_at itf cl f).
        { intros Hcv. apply Hc. apply (cluster_fetch_spec _ _ _ _ Hcf).
          split; [|exact Hcv]. destruct Hfi as (x & Hx & _).
          apply lookup_lt_Some in Hx. lia. }
        specialize (Hu f Hncv). rewrite Hf0 in Hu.
        destruct Hfi as (x & Hx & Hc'). rewrite Hx in Hu. injection Hu as <-.
        vm_compute in Hc'. discriminate. }
    destruct (Hcv tgt Hin) as (dm & Hdm & Hv).
    rewrite Hget in Hdm. injection Hdm as <-.
    eapply valid_invalid_excl; eauto. }
  subst itf'. split.
  - destruct (cluster_after_write_back itf tgt c r cl Hn) as [_ ->]. exact Hcf.
  - eapply repaired_cluster_mask; eauto.
Qed.

(** X9. The two recovery routines are idempotent: run again on the file
    a successful run has left, with the same target and cluster, each
    returns [(False, n)] with the count [n] the first run reported, and
    changes nothing. *)
Theorem recovery_is_idempotent np_sqrt np_uninit itf tgt_mkr_name cl_mkr_names
    n itf' :
  (recover_marker_relative np_sqrt np_uninit itf tgt_mkr_name cl_mkr_names
     = (Ok (true, n), itf') ->
   recover_marker_relative np_sqrt np_uninit itf' tgt_mkr_name cl_mkr_names
     = (Ok (false, n), itf')) /\
  (recover_marker_rigidbody np_sqrt np_uninit itf tgt_mkr_name cl_mkr_names
     = (Ok (true, n), itf') ->
   recover_marker_rigidbody np_sqrt np_uninit itf' tgt_mkr_name cl_mkr_names
     = (Ok (false, n), itf')).
Proof.
  split; intros H.
  - destruct (get_marker_data itf tgt_mkr_name) as [d|] eqn:Hget.
    2:{ unfold recover_marker_relative in H. now rewrite Hget in H. }
    destruct (relative_ends_in np_sqrt np_uninit itf tgt_mkr_name cl_mkr_names)
      as [[_ Hno]|(c & r & Hwb)]; [rewrite H in Hno; now destruct (Hno n)|].
    destruct (relative_reports np_sqrt np_uninit itf tgt_mkr_name cl_mkr_names d
                Hget true n) as (d' & Hget' & Hn & Hfe & Hex);
      [now rewrite H|].
    rewrite H in Hget'. cbn [snd] in Hget'.
    destruct (relative_recovery_value _ _ _ _ _ _ _ _ _ H Hget Hget')
      as (dict & cm & p0 & p1 & p2 & Hcf & _ & Hspec).
    destruct (second_run_facts itf tgt_mkr_name cl_mkr_names c r d d' dict cm
                Hget Hfe Hcf) as [Hcf' Hany]; [| |exact Hex|].
    { intros f Hi Hcv. destruct (proj1 (Hspec f) Hi Hcv) as (p & M & o & _ & _ & Hr & _).
      exact Hr. }
    { intros f Hncv. apply (proj2 (Hspec f) Hncv). }
    rewrite <- Hwb, H in Hcf'. cbn [snd] in Hcf'.
    unfold recover_marker_relative. rewrite Hget', <- Hn.
    destruct (_ =? _)%nat; [reflexivity|]. destruct (_ =? _)%Z; [reflexivity|].
    rewrite Hcf'. destruct (negb _); [reflexivity|]. rewrite Hany. reflexivity.
  - destruct (get_marker_data itf tgt_mkr_name) as [d|] eqn:Hget.
    2:{ unfold recover_marker_rigidbody in H. now rewrite Hget in H. }
    destruct (rigidbody_ends_in np_sqrt np_uninit itf tgt_mkr_name cl_mkr_names)
      as [[_ Hno]|(c & r & Hwb)]; [rewrite H in Hno; now destruct (Hno n)|].
    destruct (rigidbody_reports np_sqrt np_uninit itf tgt_mkr_name cl_mkr_names d
                Hget true n) as (d' & Hget' & Hn & Hfe & Hex);
      [now rewrite H|].
    rewrite H in Hget'. cbn [snd] in Hget'.
    destruct (rigidbody_recovery_value _ _ _ _ _ _ _ _ _ H Hget Hget')
      as (dict & cm & p0 & p1 & p2 & Hcf & _ & Hspec).
    destruct (second_run_facts itf tgt_mkr_name cl_mkr_names c r d d' dict cm
                Hget Hfe Hcf) as [Hcf' Hany]; [| |exact Hex|].
    { intros f Hi Hcv. destruct (proj1 (Hspec f) Hi Hcv) as (p & vc & _ & Hr & _).
      exact Hr. }
    { intros f Hncv. apply (proj2 (Hspec f) Hncv). }
    rewrite <- Hwb, H in Hcf'. cbn [snd] in Hcf'.
    unfold recover_marker_rigidbody. rewrite Hget', <- Hn.
    destruct (_ =? _)%nat; [reflexivity|]. destruct (_ =? _)%Z; [reflexivity|].
    rewrite Hcf'. destruct (negb _); [reflexivity|]. rewrite Hany. reflexivity.
Qed.

(** ** A single anchor *)

Lemma bracket_single_before a fr :
  (fr <= a)%nat -> bracket_frames [a] fr = Raise IndexError.
Proof.
  intros H. unfold bracket_frames. simpl searchsorted.
  destruct (Nat.ltb_spec a fr); [lia|]. reflexivity.
Qed.

Lemma bracket_single_after a fr :
  (a < fr)%nat -> bracket_frames [a] fr = Ok (a, a).
Proof.
  intros H. unfold bracket_frames. simpl searchsorted.
  destruct (Nat.ltb_spec a fr); [|lia]. reflexivity.
Qed.

Lemma for_each_skips {S A} (body : S -> A -> result S) l st :
  (forall x, x ∈ l -> body st x = Ok st) -> for_each body l st = Ok st.
Proof.
  induction l as [|x l IH]; intros H; simpl; [reflexivity|].
  rewrite (H x) by now left. simpl. apply IH. intros y Hy. apply H. now right.
Qed.

Lemma for_each_raises_first {S A} (body : S -> A -> result S) l st e x :
  head l = Some x -> body st x = Raise e -> for_each body l st = Raise e.
Proof. destruct l as [|y l]; [discriminate|]. intros [= ->] H. simpl. now rewrite H. Qed.

Lemma sorted_head_least (l : list nat) f :
  StronglySorted lt l -> f ∈ l -> exists x, head l = Some x /\ (x <= f)%nat.
Proof.
  intros Hs Hf. destruct l as [|x l]; [inversion Hf|].
  exists x. split; [reflexivity|]. apply StronglySorted_inv in Hs as [_ Hall].
  apply elem_of_cons in Hf as [->|Hf]; [lia|].
  rewrite Forall_forall in Hall. specialize (Hall f Hf). lia.
Qed.

(** An ascending index array whose only member is [a]. *)
Lemma np_where_single mask a :
  (forall g, mask !! g = Some true <-> g = a) -> np_where mask = [a].
Proof.
  intros H. pose proof (np_where_sorted mask) as Hs.
  assert (Hin : forall g, g ∈ np_where mask <-> g = a)
    by (intros g; now rewrite elem_of_np_where).
  destruct (np_where mask) as [|x l].
  - exfalso. specialize (proj2 (Hin a) eq_refl). inversion 1.
  - assert (x = a) as -> by (apply Hin; now left).
    destruct l as [|y l]; [reflexivity|exfalso].
    assert (y = a) as -> by (apply Hin; right; now left).
    apply StronglySorted_inv in Hs as [_ Hall].
    apply Forall_cons in Hall as [Hlt _]. lia.
Qed.

(** X10. Let target and donor have exactly one frame [a] at which both
    are valid.  [fill_marker_gap_pattern] then raises [IndexError], on
    reading the second bracket, as soon as some blocked target frame lies
    before [a]; when every blocked target frame lies after [a] the
    bracket read wraps around to the pair [(a, a)], every frame is
    skipped and the routine returns [(False, n)].  In both cases the file
    is left as it was. *)
Theorem pattern_fill_with_one_common_frame itf tgt_mkr_name dnr_mkr_name d dd a :
  get_marker_data itf tgt_mkr_name = Some d ->
  get_marker_data itf dnr_mkr_name = Some dd ->
  (forall g, valid_at (resid d) g /\ valid_at (resid dd) g <-> g = a) ->
  ((exists f, (f < a)%nat /\ invalid_at (resid d) f) ->
   fill_marker_gap_pattern itf tgt_mkr_name dnr_mkr_name
     = (Raise IndexError, itf)) /\
  ((forall f, invalid_at (resid d) f -> (a < f)%nat) ->
   fill_marker_gap_pattern itf tgt_mkr_name dnr_mkr_name
     = (Ok (false, count_nonzero (valid_mask (resid d))), itf)).
Proof.
  intros Hget Hdnr Hone.
  destruct (proj2 (Hone a) eq_refl) as [Hva Hvda].
  assert (Hboth : np_where (logical_and (valid_mask (resid d)) (valid_mask (resid dd)))
                  = [a]).
  { apply np_where_single. intros g.
    now rewrite logical_and_true, !valid_mask_true. }
  assert (Hanyd : np_any (valid_mask (resid dd)) = true).
  { apply np_any_true. exists a. now apply valid_mask_true. }
  assert (Hanyb : np_any (logical_and (valid_mask (resid d)) (valid_mask (resid dd)))
                  = true).
  { apply np_any_true. exists a. rewrite logical_and_true, !valid_mask_true. auto. }
  unfold fill_marker_gap_pattern. rewrite Hget, Hdnr, Hanyd, Hanyb, Hboth.
  cbn [negb]. split.
  - intros (f & Hfa & Hfi).
    destruct (target_guards_pass _ _ _ _ _ Hget Hva Hfi) as [-> ->]. cbn [orb].
    apply elem_of_invalid_frames in Hfi.
    destruct (sorted_head_least _ f (invalid_frames_sorted _) Hfi) as (x & Hx & Hle).
    erewrite for_each_raises_first; [reflexivity | exact Hx|].
    unfold pattern_body. rewrite bracket_single_before by lia. reflexivity.
  - intros Hafter.
    destruct (_ || _); [reflexivity|].
    rewrite for_each_skips; [reflexivity|].
    intros fr Hfr. apply elem_of_invalid_frames, Hafter in Hfr.
    unfold pattern_body. rewrite bracket_single_after by lia.
    unfold mbind, result_bind.
    destruct (Nat.leb_spec a fr); [|lia]. now rewrite orb_true_r.
Qed.

(** X11. Let the target have exactly one anchor [a], a frame at which it
    and every cluster marker are valid.  [fill_marker_gap_rigidbody] then
    raises [IndexError] as soon as some frame at which the cluster is
    valid and the target is blocked lies before [a]; when every such frame
    lies after [a] it returns [(False, n)].  In both cases the file is
    left as it was. *)
Theorem rigid_fill_with_one_anchor np_sqrt np_svd itf tgt_mkr_name cl_mkr_names
    d a :
  get_marker_data itf tgt_mkr_name = Some d ->
  (forall g, valid_at (resid d) g /\ cluster_valid_at itf cl_mkr_names g <-> g = a) ->
  ((exists f, (f < a)%nat /\ invalid_at (resid d) f /\
              cluster_valid_at itf cl_mkr_names f) ->
   fill_marker_gap_rigidbody np_sqrt np_svd itf tgt_mkr_name cl_mkr_names
     = (Raise IndexError, itf)) /\
  ((forall f, invalid_at (resid d) f -> cluster_valid_at itf cl_mkr_names f ->
              (a < f)%nat) ->
   fill_marker_gap_rigidbody np_sqrt np_svd itf tgt_mkr_name cl_mkr_names
     = (Ok (false, count_nonzero (valid_mask (resid d))), itf)).
Proof.
  intros Hget Hone.
  destruct (proj2 (Hone a) eq_refl) as [Hva Hca].
  destruct (get_marker_data_Some _ _ _ Hget) as (_ & _ & Hlr).
  destruct (cluster_fetch_total itf (get_num_frames itf) cl_mkr_names)
    as (dict & cm & Hcf).
  { intros mkr Hm. destruct (Hca mkr Hm) as (dm & -> & _). eauto. }
  pose proof (cluster_fetch_spec _ _ _ _ Hcf) as (Hlm & _ & Hcm).
  assert (Hcv : forall g, (g < length (resid d))%nat ->
            (cm !! g = Some true <-> cluster_valid_at itf cl_mkr_names g)).
  { intros g Hg. rewrite Hcm. split; [tauto|]. intros H. split; [lia | exact H]. }
  assert (Hall : np_where (logical_and cm (valid_mask (resid d))) = [a]).
  { apply np_where_single. intros g. rewrite logical_and_true, valid_mask_true.
    rewrite <- Hone. split.
    - intros [Hc Hv]. split; [exact Hv|]. apply Hcv; [|exact Hc].
      destruct Hv as (x & Hx & _). now apply lookup_lt_Some in Hx.
    - intros [Hv Hc]. split; [|exact Hv]. apply Hcv; [|exact Hc].
      destruct Hv as (x & Hx & _). now apply lookup_lt_Some in Hx. }
  assert (Hany : np_any (logical_and cm (valid_mask (resid d))) = true).
  { apply np_any_true. exists a. apply elem_of_np_where. rewrite Hall. now left. }
  assert (Honly : forall f,
            f ∈ np_where (logical_and cm (logical_not (valid_mask (resid d)))) <->
            invalid_at (resid d) f /\ cluster_valid_at itf cl_mkr_names f).
  { intros f. rewrite elem_of_np_where, logical_and_true, logical_not_true,
      valid_mask_false. split.
    - intros [Hc Hi]. split; [exact Hi|]. apply Hcv; [|exact Hc].
      destruct Hi as (x & Hx & _). now apply lookup_lt_Some in Hx.
    - intros [Hi Hc]. split; [|exact Hi]. apply Hcv; [|exact Hc].
      destruct Hi as (x & Hx & _). now apply lookup_lt_Some in Hx. }
  unfold fill_marker_gap_rigidbody. rewrite Hget, Hcf, Hany, Hall. cbn [negb].
  split.
  - intros (f & Hfa & Hfi & Hfc).
    destruct (target_guards_pass _ _ _ _ _ Hget Hva Hfi) as [-> ->].
    assert (Hin : f ∈ np_where (logical_and cm (logical_not (valid_mask (resid d)))))
      by (now apply Honly).
    rewrite (proj2 (np_any_true _) (ex_intro _ f (proj1 (elem_of_np_where _ _) Hin))).
    cbn [negb].
    destruct (sorted_head_least _ f (np_where_sorted _) Hin) as (x & Hx & Hle).
    erewrite for_each_raises_first; [reflexivity | exact Hx|].
    unfold gap_rigidbody_body. rewrite bracket_single_before by lia. reflexivity.
  - intros Hafter.
    destruct (_ =? _)%nat; [reflexivity|]. destruct (_ =? _)%Z; [reflexivity|].
    destruct (negb _); [reflexivity|].
    rewrite for_each_skips; [reflexivity|].
    intros fr Hfr. apply Honly in Hfr as [Hi Hc]. specialize (Hafter fr Hi Hc).
    unfold gap_rigidbody_body. rewrite bracket_single_after by lia.
    unfold mbind, result_bind.
    destruct (Nat.leb_spec a fr); [|lia]. now rewrite orb_true_r.
Qed.

(** * The accessors in full *)

(** ** Frame ranges *)

Lemma frame_range_check_iff itf start_frame end_frame a b :
  Itf.check_frame_range_valid itf start_frame end_frame = Some (a, b) <->
  (start_frame = None /\ a = Itf.get_first_frame itf \/
   start_frame = Some a /\ (Itf.get_first_frame itf <= a)%Z) /\
  (end_frame = None /\ b = Itf.get_last_frame itf \/
   end_frame = Some b /\ (b <= Itf.get_last_frame itf)%Z) /\
  (a < b)%Z.
Proof.
  set (first_fr := Itf.get_first_frame itf). set (last_fr := Itf.get_last_frame itf).
   unfold Itf.check_frame_range_valid. fold first_fr last_fr.
    destruct start_frame as [s|], end_frame as [e|].
    - destruct (Z.ltb_spec s first_fr), (Z.ltb_spec last_fr e);
        try (split; [discriminate | intros ([[? ?]|[[= ->] ?]] & [[? ?]|[[= ->] ?]] & ?);
                                    discriminate || lia]).
      destruct (Z.ltb_spec s e); cbn [negb].
      + split.
        * intros [= <- <-]. repeat split; auto; lia.
        * intros ([[? ?]|[[= ->] ?]] & [[? ?]|[[= ->] ?]] & ?); try discriminate.
          reflexivity.
      + split; [discriminate|].
        intros ([[? ?]|[[= ->] ?]] & [[? ?]|[[= ->] ?]] & ?); discriminate || lia.
    - destruct (Z.ltb_spec s first_fr);
        try (split; [discriminate | intros ([[? ?]|[[= ->] ?]] & [[? ?]|[? ?]] & ?);
                                    discriminate || lia]).
      destruct (Z.ltb_spec s last_fr); cbn [negb].
      + split.
        * intros [= <- <-]. repeat split; auto; lia.
        * intros ([[? ?]|[[= ->] ?]] & [[? ->]|[? ?]] & ?); try discriminate.
          reflexivity.
      + split; [discriminate|].
        intros ([[? ?]|[[= ->] ?]] & [[? ->]|[? ?]] & ?); discriminate || lia.
    - destruct (Z.ltb_spec last_fr e);
        try (split; [discriminate | intros ([[? ?]|[? ?]] & [[? ?]|[[= ->] ?]] & ?);
                                    discriminate || lia]).
      destruct (Z.ltb_spec first_fr e); cbn [negb].
      + split.
        * intros [= <- <-]. repeat split; auto; lia.
        * intros ([[? ->]|[? ?]] & [[? ?]|[[= ->] ?]] & ?); try discriminate.
          reflexivity.
      + split; [discriminate|].
        intros ([[? ->]|[? ?]] & [[? ?]|[[= ->] ?]] & ?); discriminate || lia.
    - destruct (Z.ltb_spec first_fr last_fr); cbn [negb].
      + split.
        * intros [= <- <-]. repeat split; auto; lia.
        * intros ([[? ->]|[? ?]] & [[? ->]|[? ?]] & ?); try discriminate.
          reflexivity.
      + split; [discriminate|].
        intros ([[? ->]|[? ?]] & [[? ->]|[? ?]] & ?); discriminate || lia.
Qed.

(** X12. [check_frame_range_valid] accepts a request exactly if the start
    frame, where given, is not before the first frame of the file, the end
    frame, where given, is not after the last one, and the resulting start
    lies strictly before the resulting end; a missing bound is the file's
    own.  An accepted range therefore lies inside the file and spans at
    least two frames: a single frame cannot be requested, and a file of
    one frame has no valid range at all. *)
Theorem frame_range_check itf start_frame end_frame a b :
  let first_fr := Itf.get_first_frame itf in
  let last_fr := Itf.get_last_frame itf in
  (Itf.check_frame_range_valid itf start_frame end_frame = Some (a, b) <->
   (start_frame = None /\ a = first_fr \/
    start_frame = Some a /\ (first_fr <= a)%Z) /\
   (end_frame = None /\ b = last_fr \/
    end_frame = Some b /\ (b <= last_fr)%Z) /\
   (a < b)%Z) /\
  (Itf.check_frame_range_valid itf start_frame end_frame = Some (a, b) ->
   (first_fr <= a)%Z /\ (a < b)%Z /\ (b <= last_fr)%Z).
Proof.
  intros first_fr last_fr.
  pose proof (frame_range_check_iff itf start_frame end_frame a b) as Hiff.
  fold first_fr last_fr in Hiff.
  split; [exact Hiff|].
  intros H. apply Hiff in H as ([[_ ->]|[_ ?]] & [[_ ->]|[_ ?]] & ?); lia.
Qed.

(** ** Marker names and indices *)

Lemma names_from_take i labels used :
  Itf.names_from i labels used = take (Z.to_nat (used - i)) labels.
Proof.
  revert i. induction labels as [|l labels IH]; intros i; simpl.
  - now rewrite take_nil.
  - rewrite IH. destruct (Z.ltb_spec i used).
    + replace (Z.to_nat (used - i)) with (S (Z.to_nat (used - (i + 1)))) by lia.
      reflexivity.
    + replace (Z.to_nat (used - (i + 1))) with 0%nat by lia.
      replace (Z.to_nat (used - i)) with 0%nat by lia. reflexivity.
Qed.

(** The search returns -1 when the name is not among the used labels, and
    else the position of its first occurrence. *)
Lemma index_from_spec i labels used name :
  (0 <= i)%Z ->
  let names := take (Z.to_nat (used - i)) labels in
  let r := Itf.index_from i labels used name in
  (r = (-1)%Z /\ name ∉ names) \/
  (exists k : nat, r = (i + Z.of_nat k)%Z /\ names !! k = Some name /\
                   forall j, (j < k)%nat -> names !! j <> Some name).
Proof.
  revert i. induction labels as [|l labels IH]; intros i Hi; simpl.
  - left. rewrite take_nil. split; [reflexivity | inversion 1].
  - destruct (Z.ltb_spec i used) as [Hlt|Hge]; simpl.
    + replace (Z.to_nat (used - i)) with (S (Z.to_nat (used - (i + 1)))) by lia.
      simpl. destruct (String.eqb_spec l name) as [->|Hne].
      * right. exists 0%nat. split; [lia|]. split; [reflexivity|]. intros j Hj. lia.
      * destruct (IH (i + 1)%Z ltac:(lia)) as [[Hr Hn]|(k & Hr & Hk & Hfirst)].
        -- left. split; [exact Hr|]. intros Hin.
           apply elem_of_cons in Hin as [->|Hin]; [congruence|contradiction].
        -- right. exists (S k). split; [lia|]. split; [exact Hk|].
           intros [|j] Hj; simpl; [congruence | apply Hfirst; lia].
    + replace (Z.to_nat (used - i)) with 0%nat by lia.
      destruct (IH (i + 1)%Z ltac:(lia)) as [[Hr Hn]|(k & Hr & Hk & Hfirst)].
      * left. split; [exact Hr | rewrite take_0; inversion 1].
      * exfalso. replace (Z.to_nat (used - (i + 1))) with 0%nat in Hk by lia.
        rewrite take_0 in Hk. discriminate.
Qed.

(** X13. [get_marker_names] and [get_marker_index] agree.  Both answer
    [None] in the same files (no POINT:LABELS or POINT:USED, no label, or a
    count below 1).  Otherwise the names are the first POINT:USED labels,
    at least one, and the index of a name is the position of its first
    occurrence among them, or -1 if it does not occur: looking the index
    up in the list of names gives the name back. *)
Theorem marker_index_is_first_position itf mkr_name :
  match Itf.get_marker_names itf with
  | None => Itf.get_marker_index itf mkr_name = None
  | Some mkr_names =>
      mkr_names <> [] /\
      (exists labels n_pt_used,
         Itf.point_labels itf = Some labels /\
         Itf.point_used itf = Some n_pt_used /\
         mkr_names = take (Z.to_nat n_pt_used) labels) /\
      exists mkr_idx,
        Itf.get_marker_index itf mkr_name = Some mkr_idx /\
        ((mkr_idx = (-1)%Z /\ mkr_name ∉ mkr_names) \/
         ((0 <= mkr_idx)%Z /\
          mkr_names !! Z.to_nat mkr_idx = Some mkr_name /\
          forall j, (j < Z.to_nat mkr_idx)%nat -> mkr_names !! j <> Some mkr_name))
  end.
Proof.
  unfold Itf.get_marker_names, Itf.get_marker_index.
  destruct (Itf.point_labels itf) as [labels|]; [|reflexivity].
  destruct (Z.ltb_spec (Z.of_nat (length labels)) 1) as [|Hlab]; [reflexivity|].
  destruct (Itf.point_used itf) as [used|]; [|reflexivity].
  destruct (Z.ltb_spec used 1) as [|Hused]; [reflexivity|].
  rewrite names_from_take. replace (used - 0)%Z with used by lia.
  split; [|split].
  - destruct labels as [|l labels]; [simpl in Hlab; lia|].
    replace (Z.to_nat used) with (S (Z.to_nat (used - 1))) by lia. discriminate.
  - exists labels, used. auto.
  - eexists. split; [reflexivity|].
    destruct (index_from_spec 0 labels used mkr_name ltac:(lia))
      as [[Hr Hn]|(k & Hr & Hk & Hfirst)];
      replace (used - 0)%Z with used in * by lia.
    + left. auto.
    + right. rewrite Hr. replace (Z.to_nat (0 + Z.of_nat k)) with k by lia.
      split; [lia|]. auto.
Qed.

(** ** Marker data *)

Lemma marker_index_of itf mkr_name mkr_names :
  Itf.get_marker_names itf = Some mkr_names ->
  (mkr_name ∉ mkr_names -> Itf.get_marker_index itf mkr_name = Some (-1)%Z) /\
  (forall i, mkr_names !! i = Some mkr_name ->
             (forall j, (j < i)%nat -> mkr_names !! j <> Some mkr_name) ->
             Itf.get_marker_index itf mkr_name = Some (Z.of_nat i)).
Proof.
  unfold Itf.get_marker_names, Itf.get_marker_index.
  destruct (Itf.point_labels itf) as [labels|]; [|discriminate].
  destruct (Z.ltb_spec (Z.of_nat (length labels)) 1) as [|Hlab]; [discriminate|].
  destruct (Itf.point_used itf) as [used|]; [|discriminate].
  destruct (Z.ltb_spec used 1) as [|Hused]; [discriminate|].
  rewrite names_from_take. replace (used - 0)%Z with used by lia.
  intros [= <-].
  destruct (index_from_spec 0 labels used mkr_name ltac:(lia))
    as [[Hr Hn]|(k & Hr & Hk & Hfirst)];
    replace (used - 0)%Z with used in * by lia.
  - split; [intros _; now rewrite Hr|].
    intros i Hi _. exfalso. apply Hn. eapply list_elem_of_lookup_2; eauto.
  - split.
    + intros Hn. exfalso. apply Hn. eapply list_elem_of_lookup_2; eauto.
    + intros i Hi Hleast. rewrite Hr. do 2 f_equal.
      destruct (Nat.lt_trichotomy i k) as [Hlt|[->|Hgt]]; [|lia|].
      * exfalso. exact (Hfirst i Hlt Hi).
      * exfalso. exact (Hleast k Hgt Hk).
Qed.

Lemma blocked_to_nan_lookup xyz resid k :
  Itf.blocked_to_nan xyz resid !! k =
  match xyz !! k, resid !! k with
  | Some v, Some r => Some (if isclose r (-1) then None else Some v)
  | _, _ => None
  end.
Proof.
  unfold Itf.blocked_to_nan. rewrite lookup_zip_with.
  destruct (xyz !! k); simpl; [|reflexivity]. now destruct (resid !! k).
Qed.

Lemma get_marker_data_spec itf mkr_name blocked_nan start_frame end_frame
    mkr_names :
  Itf.get_marker_names itf = Some mkr_names ->
  let data :=
    Itf.get_marker_data itf mkr_name blocked_nan start_frame end_frame in
  (mkr_name ∉ mkr_names -> data = Itf.Return None) /\
  (Itf.check_frame_range_valid itf start_frame end_frame = None ->
   data = Itf.Return None) /\
  (forall i a b,
     first_position mkr_names mkr_name i ->
     Itf.check_frame_range_valid itf start_frame end_frame = Some (a, b) ->
     exists d,
       data = Itf.Return (Some d) /\
       length (Itf.pos d) = Z.to_nat (b - a + 1) /\
       length (Itf.res d) = Z.to_nat (b - a + 1) /\
       forall k, (k < Z.to_nat (b - a + 1))%nat ->
         let sample := Itf.point itf (Z.of_nat i) (a + Z.of_nat k) in
         Itf.res d !! k = Some sample.2 /\
         Itf.pos d !! k = Some (masked blocked_nan sample)).
Proof.
  intros Hnames data. subst data.
  destruct (marker_index_of itf mkr_name mkr_names Hnames) as [Hout Hin].
  split; [|split].
  - intros Hn. unfold Itf.get_marker_data. rewrite (Hout Hn).
    now rewrite decide_True.
  - intros Hno. unfold Itf.get_marker_data. rewrite Hno.
    now destruct (decide _).
  - intros i a b [Hi Hleast] Hrange. unfold Itf.get_marker_data.
    rewrite (Hin i Hi Hleast), Hrange.
    rewrite decide_False by (intros [= H]; lia).
    cbn [Itf.point_of mbind Itf.outcome_bind].
    eexists. split; [reflexivity|]. cbn [Itf.pos Itf.res].
    set (n := Z.to_nat (b - a + 1)).
    assert (Hres : forall k, (k < n)%nat ->
              ((fun fr => (Itf.point itf (Z.of_nat i) fr).2) <$>
               ((fun i0 : nat => (a + Z.of_nat i0)%Z) <$> seq 0 n)) !! k
              = Some (Itf.point itf (Z.of_nat i) (a + Z.of_nat k)).2).
    { intros k Hk. rewrite !list_lookup_fmap, lookup_seq_lt by exact Hk.
      reflexivity. }
    assert (Hxyz : forall k, (k < n)%nat ->
              ((fun fr => (Itf.point itf (Z.of_nat i) fr).1) <$>
               ((fun i0 : nat => (a + Z.of_nat i0)%Z) <$> seq 0 n)) !! k
              = Some (Itf.point itf (Z.of_nat i) (a + Z.of_nat k)).1).
    { intros k Hk. rewrite !list_lookup_fmap, lookup_seq_lt by exact Hk.
      reflexivity. }
    split; [|split].
    + destruct blocked_nan.
      * unfold Itf.blocked_to_nan.
        rewrite length_zip_with, !length_fmap, length_seq. lia.
      * now rewrite !length_fmap, length_seq.
    + now rewrite !length_fmap, length_seq.
    + intros k Hk. cbv zeta. split; [apply Hres, Hk|].
      unfold masked. destruct blocked_nan; simpl.
      * rewrite blocked_to_nan_lookup, Hxyz, Hres by exact Hk. reflexivity.
      * rewrite list_lookup_fmap, Hxyz by exact Hk. reflexivity.
Qed.

(** X14. In a file that names its markers, [get_marker_data] answers
    [None] for a name that is not among them and for a frame range that
    [check_frame_range_valid] rejects.  Otherwise it returns one row per
    frame of the accepted range [a..b], taken from the point whose index
    is the first position of the name: row [k] holds the residual of frame
    [a + k] and its coordinates, or NaN in their place if [blocked_nan] is
    set and the residual is (close to) -1. *)
Theorem marker_data_rows itf mkr_name blocked_nan start_frame end_frame
    mkr_names :
  Itf.get_marker_names itf = Some mkr_names ->
  let data :=
    Itf.get_marker_data itf mkr_name blocked_nan start_frame end_frame in
  (mkr_name ∉ mkr_names -> data = Itf.Return None) /\
  (Itf.check_frame_range_valid itf start_frame end_frame = None ->
   data = Itf.Return None) /\
  (forall i a b,
     first_position mkr_names mkr_name i ->
     Itf.check_frame_range_valid itf start_frame end_frame = Some (a, b) ->
     exists d,
       data = Itf.Return (Some d) /\
       length (Itf.pos d) = Z.to_nat (b - a + 1) /\
       length (Itf.res d) = Z.to_nat (b - a + 1) /\
       forall k, (k < Z.to_nat (b - a + 1))%nat ->
         let sample := Itf.point itf (Z.of_nat i) (a + Z.of_nat k) in
         Itf.res d !! k = Some sample.2 /\
         Itf.pos d !! k = Some (masked blocked_nan sample)).
Proof. exact (get_marker_data_spec itf mkr_name blocked_nan start_frame end_frame mkr_names). Qed.

Lemma slice_fmap {A B} (f : A -> B) (a : list A) lo hi :
  slice (f <$> a) lo hi = f <$> slice a lo hi.
Proof. unfold slice. now rewrite fmap_take, fmap_drop. Qed.

Lemma slice_frames first_fr a b n :
  (first_fr <= a)%Z -> (a < b)%Z -> (b - first_fr + 1 <= Z.of_nat n)%Z ->
  slice ((fun i : nat => (first_fr + Z.of_nat i)%Z) <$> seq 0 n)
        (Z.to_nat (a - first_fr)) (Z.to_nat (b - first_fr + 1))
  = (fun i : nat => (a + Z.of_nat i)%Z) <$> seq 0 (Z.to_nat (b - a + 1)).
Proof.
  intros H1 H2 H3. apply list_eq. intros k.
  rewrite lookup_slice, !list_lookup_fmap.
  destruct (decide (k < Z.to_nat (b - first_fr + 1) - Z.to_nat (a - first_fr))%nat)
    as [Hk|Hk].
  - rewrite !lookup_seq_lt by lia. simpl. f_equal. lia.
  - rewrite lookup_seq_ge by lia. reflexivity.
Qed.

Lemma slice_zip_with {A B C} (f : A -> B -> C) (a : list A) (b : list B) lo hi :
  slice (zip_with f a b) lo hi = zip_with f (slice a lo hi) (slice b lo hi).
Proof.
  apply list_eq. intros k. rewrite lookup_zip_with, !lookup_slice.
  case_decide; [|reflexivity]. now rewrite lookup_zip_with.
Qed.

(** X15. Asking [get_marker_data] for the frames [a..b] of a file gives
    the rows [a - first .. b - first] of what it returns for the whole
    file, with or without [blocked_nan]. *)
Theorem marker_data_subrange itf mkr_name blocked_nan a b d :
  Itf.get_marker_data itf mkr_name blocked_nan None None = Itf.Return (Some d) ->
  (Itf.get_first_frame itf <= a)%Z -> (a < b)%Z ->
  (b <= Itf.get_last_frame itf)%Z ->
  let lo := Z.to_nat (a - Itf.get_first_frame itf) in
  let hi := Z.to_nat (b - Itf.get_first_frame itf + 1) in
  Itf.get_marker_data itf mkr_name blocked_nan (Some a) (Some b)
  = Itf.Return (Some (Itf.mkRows (slice (Itf.pos d) lo hi)
                                 (slice (Itf.res d) lo hi))).
Proof.
  intros H Ha Hab Hb lo hi. unfold Itf.get_marker_data in *.
  destruct (decide _); [discriminate|].
  assert (Hsub : Itf.check_frame_range_valid itf (Some a) (Some b) = Some (a, b)).
  { apply frame_range_check_iff. split; [right; auto|]. split; [right; auto|]. exact Hab. }
  rewrite Hsub.
  destruct (Itf.check_frame_range_valid itf None None) as [[s e]|] eqn:Hfull;
    [|discriminate].
  apply frame_range_check_iff in Hfull as ([[_ ->]|[[=] _]] & [[_ ->]|[[=] _]] & Hlt).
  destruct (Itf.point_of itf _) as [p| |]; [|discriminate|discriminate].
  cbn [mbind Itf.outcome_bind] in *. injection H as <-. cbn [Itf.pos Itf.res].
  set (N := Z.to_nat (Itf.get_last_frame itf - Itf.get_first_frame itf + 1)).
  pose proof (slice_frames (Itf.get_first_frame itf) a b N Ha Hab ltac:(lia)) as Hfr.
  fold lo hi in Hfr. do 3 f_equal.
  - destruct blocked_nan.
    + unfold Itf.blocked_to_nan.
      rewrite slice_zip_with, (slice_fmap (fun fr => (p fr).1)),
        (slice_fmap (fun fr => (p fr).2)), Hfr.
      reflexivity.
    + rewrite (slice_fmap Some), (slice_fmap (fun fr => (p fr).1)), Hfr. reflexivity.
  - rewrite (slice_fmap (fun fr => (p fr).2)), Hfr. reflexivity.
Qed.

(** ** The positions of all markers *)

Lemma marker_names_nonempty itf mkr_names :
  Itf.get_marker_names itf = Some mkr_names -> mkr_names <> [].
Proof.
  unfold Itf.get_marker_names.
  destruct (Itf.point_labels itf) as [labels|]; [|discriminate].
  destruct (Z.ltb_spec (Z.of_nat (length labels)) 1) as [|Hlab]; [discriminate|].
  destruct (Itf.point_used itf) as [used|]; [|discriminate].
  destruct (Z.ltb_spec used 1) as [|Hused]; [discriminate|].
  rewrite names_from_take. intros [= <-].
  destruct labels as [|l labels]; [simpl in Hlab; lia|].
  replace (Z.to_nat (used - 0)) with (S (Z.to_nat (used - 1))) by lia. discriminate.
Qed.

Lemma first_position_exists (mkr_names : list string) mkr_name :
  mkr_name ∈ mkr_names -> exists i, first_position mkr_names mkr_name i.
Proof.
  unfold first_position. induction mkr_names as [|x l IH]; [inversion 1|].
  intros Hin. destruct (decide (x = mkr_name)) as [->|Hne].
  - exists 0%nat. split; [reflexivity|]. intros j Hj. lia.
  - apply elem_of_cons in Hin as [->|Hin]; [congruence|].
    destruct (IH Hin) as (i & Hi & Hleast). exists (S i). split; [exact Hi|].
    intros [|j] Hj; simpl; [congruence | apply Hleast; lia].
Qed.

(** The range check for [start_frame = False], [end_frame = None]. *)
Lemma check_from_false itf :
  Itf.check_frame_range_valid itf (Some 0%Z) None =
  if ((0 <? Itf.get_first_frame itf) || negb (0 <? Itf.get_last_frame itf))%Z
  then None else Some (0%Z, Itf.get_last_frame itf).
Proof.
  unfold Itf.check_frame_range_valid.
  destruct (0 <? Itf.get_first_frame itf)%Z; [reflexivity|].
  now destruct (0 <? Itf.get_last_frame itf)%Z.
Qed.

Lemma enumerate_from {A} (j : nat) (x : A) l :
  imap (fun i y => ((j + i)%nat, y)) (x :: l)
  = (j, x) :: imap (fun i y => ((S j + i)%nat, y)) l.
Proof.
  simpl. f_equal; [f_equal; lia|]. apply imap_ext. intros i y _. simpl. f_equal. lia.
Qed.

Section AllMarkerPos.

Context {R : Type}.
Variable row0 : nat -> R.
Variable upd : nat -> R -> option V3 -> R.

Lemma all_marker_pos_TypeError itf blocked_nan mkr_names :
  Itf.get_marker_names itf = Some mkr_names ->
  (0 <= Itf.get_num_frames itf)%Z ->
  (0 < Itf.get_first_frame itf)%Z \/ (Itf.get_last_frame itf <= 0)%Z ->
  Itf.all_marker_pos row0 upd itf blocked_nan = Itf.Throw TypeError.
Proof.
  intros Hnames Hn Hfr. unfold Itf.all_marker_pos. rewrite Hnames.
  destruct (Z.ltb_spec (Itf.get_num_frames itf) 0); [lia|].
  pose proof (marker_names_nonempty _ _ Hnames) as Hne.
  destruct mkr_names as [|x l]; [congruence|].
  unfold Itf.enumerate. simpl.
  destruct (get_marker_data_spec itf x blocked_nan (Some 0%Z) None _ Hnames)
    as (_ & Hnone & _).
  rewrite Hnone; [reflexivity|].
  rewrite check_from_false.
  destruct (Z.ltb_spec 0 (Itf.get_first_frame itf)); [reflexivity|].
  destruct (Z.ltb_spec 0 (Itf.get_last_frame itf)); [lia|reflexivity].
Qed.

Lemma all_marker_pos_ValueError itf blocked_nan mkr_names :
  Itf.get_marker_names itf = Some mkr_names ->
  (Itf.get_first_frame itf < 0)%Z -> (0 < Itf.get_last_frame itf)%Z ->
  Itf.all_marker_pos row0 upd itf blocked_nan = Itf.Throw ValueError.
Proof.
  intros Hnames Hf Hl. unfold Itf.all_marker_pos. rewrite Hnames.
  unfold Itf.get_num_frames.
  destruct (Z.ltb_spec (Itf.get_last_frame itf - Itf.get_first_frame itf + 1) 0);
    [lia|].
  pose proof (marker_names_nonempty _ _ Hnames) as Hne.
  destruct mkr_names as [|x l]; [congruence|].
  unfold Itf.enumerate. simpl.
  destruct (get_marker_data_spec itf x blocked_nan (Some 0%Z) None _ Hnames)
    as (_ & _ & Hdata).
  destruct (Hdata 0%nat 0%Z (Itf.get_last_frame itf)) as (d & -> & Hlp & _).
  { split; [reflexivity|]. intros j Hj. lia. }
  { rewrite check_from_false.
    destruct (Z.ltb_spec 0 (Itf.get_first_frame itf)); [lia|].
    destruct (Z.ltb_spec 0 (Itf.get_last_frame itf)); [reflexivity|lia]. }
  cbn [mbind Itf.outcome_bind]. unfold Itf.assign_rows.
  rewrite length_replicate, Hlp.
  destruct (Nat.eqb_spec (Z.to_nat (Itf.get_last_frame itf - 0 + 1))
              (Z.to_nat (Itf.get_last_frame itf - Itf.get_first_frame itf + 1)));
    [lia|].
  destruct (Itf.pos d) as [|v [|w p]]; simpl in Hlp; [reflexivity|lia|reflexivity].
Qed.

Variable wf : nat -> R -> Prop.
Variable holds : nat -> R -> option V3 -> Prop.
Hypothesis wf_row0 : forall m, wf m (row0 m).
Hypothesis wf_upd : forall m idx row v, wf m row -> wf m (upd idx row v).
Hypothesis holds_upd :
  forall m idx row v, wf m row -> (idx < m)%nat -> holds idx (upd idx row v) v.
Hypothesis holds_other :
  forall idx idx' row v v',
    idx <> idx' -> holds idx' row v' -> holds idx' (upd idx row v) v'.

Lemma all_marker_pos_layout itf blocked_nan mkr_names :
  Itf.get_marker_names itf = Some mkr_names ->
  Itf.get_first_frame itf = 0%Z -> (0 < Itf.get_last_frame itf)%Z ->
  exists A,
    Itf.all_marker_pos row0 upd itf blocked_nan = Itf.Return A /\
    length A = Z.to_nat (Itf.get_num_frames itf) /\
    forall r row, A !! r = Some row ->
      wf (length mkr_names) row /\
      forall idx mkr_name, mkr_names !! idx = Some mkr_name ->
        exists i, first_position mkr_names mkr_name i /\
          holds idx row
            (masked blocked_nan (Itf.point itf (Z.of_nat i) (Z.of_nat r))).
Proof.
  intros Hnames Hf Hl. unfold Itf.all_marker_pos. rewrite Hnames.
  unfold Itf.get_num_frames. rewrite Hf.
  destruct (Z.ltb_spec (Itf.get_last_frame itf - 0 + 1) 0); [lia|].
  set (n := Z.to_nat (Itf.get_last_frame itf - 0 + 1)).
  set (m := length mkr_names).
  set (body := fun (mkr_coords_all : list R) '(idx, mkr_name) => _).
  set (Inv := fun (j : nat) (arr : list R) =>
    length arr = n /\
    forall r row, arr !! r = Some row ->
      wf m row /\
      forall idx mkr_name, (idx < j)%nat -> mkr_names !! idx = Some mkr_name ->
        exists i, first_position mkr_names mkr_name i /\
          holds idx row
            (masked blocked_nan (Itf.point itf (Z.of_nat i) (Z.of_nat r)))).
  assert (Hcheck : Itf.check_frame_range_valid itf (Some 0%Z) None
                   = Some (0%Z, Itf.get_last_frame itf)).
  { rewrite check_from_false, Hf.
    destruct (Z.ltb_spec 0 (Itf.get_last_frame itf)); [reflexivity|lia]. }
  assert (Hloop : forall rest j arr,
            drop j mkr_names = rest -> Inv j arr ->
            exists A, Itf.for_each body (imap (fun i y => ((j + i)%nat, y)) rest) arr
                      = Itf.Return A /\ Inv m A).
  { induction rest as [|x rest IH]; intros j arr Hdrop HI.
    - exists arr. split; [reflexivity|].
      assert (m <= j)%nat.
      { destruct (Nat.le_gt_cases m j) as [|Hlt]; [assumption|].
        apply (f_equal length) in Hdrop. rewrite length_drop in Hdrop.
        simpl in Hdrop. fold m in Hdrop. lia. }
      destruct HI as [Hlen Hrows]. split; [exact Hlen|].
      intros r row Hr. destruct (Hrows r row Hr) as [Hwf Hh]. split; [exact Hwf|].
      intros idx name Hidx Hname. apply Hh; [lia | exact Hname].
    - rewrite enumerate_from. cbn [Itf.for_each].
      assert (Hj : mkr_names !! j = Some x).
      { rewrite <- (Nat.add_0_r j), <- lookup_drop, Hdrop. reflexivity. }
      assert (Hjm : (j < m)%nat) by (apply lookup_lt_Some in Hj; exact Hj).
      destruct (first_position_exists mkr_names x) as [i Hi];
        [eapply list_elem_of_lookup_2; eauto|].
      destruct (get_marker_data_spec itf x blocked_nan (Some 0%Z) None _ Hnames)
        as (_ & _ & Hdata).
      destruct (Hdata i 0%Z (Itf.get_last_frame itf) Hi Hcheck)
        as (d & Hd & Hlp & _ & Hsample).
      fold n in Hlp, Hsample.
      destruct HI as [Hlen Hrows].
      assert (Hstep : body arr (j, x)
                      = Itf.Return (zip_with (upd j) arr (Itf.pos d))).
      { unfold body. rewrite Hd. cbn [mbind Itf.outcome_bind].
        unfold Itf.assign_rows. now rewrite Hlp, Hlen, Nat.eqb_refl. }
      rewrite Hstep. cbn [mbind Itf.outcome_bind].
      apply (IH (S j)).
      + replace (S j) with (j + 1)%nat by lia.
        rewrite <- drop_drop, Hdrop. reflexivity.
      + split; [rewrite length_zip_with; lia|].
        intros r row' Hr'.
        apply lookup_zip_with_Some in Hr' as (row & v & -> & Hrow & Hv).
        destruct (Hrows r row Hrow) as [Hwf Hh].
        split; [now apply wf_upd|].
        assert (Hrn : (r < n)%nat) by (apply lookup_lt_Some in Hv; lia).
        destruct (Hsample r Hrn) as [_ Hpos]. rewrite Hv in Hpos.
        injection Hpos as ->. rewrite Z.add_0_l.
        intros idx name Hidx Hname.
        destruct (decide (idx = j)) as [->|Hne].
        * assert (name = x) as -> by congruence.
          exists i. split; [exact Hi|]. now apply (holds_upd m).
        * destruct (Hh idx name ltac:(lia) Hname) as (i' & Hi' & Hold).
          exists i'. split; [exact Hi'|]. apply holds_other; [congruence|exact Hold]. }
  destruct (Hloop mkr_names 0%nat (replicate n (row0 m))) as (A & HA & Hlen & Hrows).
  { apply drop_0. }
  { split; [apply length_replicate|].
    intros r row Hr. apply lookup_replicate in Hr as [-> _].
    split; [apply wf_row0|]. intros idx name Hidx. lia. }
  exists A. split; [exact HA|]. split; [exact Hlen|].
  intros r row Hr. destruct (Hrows r row Hr) as [Hwf Hh]. split; [exact Hwf|].
  intros idx name Hname. apply Hh; [|exact Hname].
  apply lookup_lt_Some in Hname. exact Hname.
Qed.

End AllMarkerPos.

Lemma length_set_row row c0 v : length (Itf.set_row row c0 v) = length row.
Proof.
  unfold Itf.set_row. destruct (Itf.cells v) as [[x y] z].
  now rewrite !length_insert.
Qed.

Lemma lookup_window {A} (l : list A) c k :
  take 3 (drop c l) !! k = if decide (k < 3)%nat then l !! (c + k)%nat else None.
Proof.
  case_decide.
  - rewrite lookup_take_lt by assumption. apply lookup_drop.
  - apply lookup_take_ge. lia.
Qed.

Lemma set_row_window row c0 v :
  (c0 + 2 < length row)%nat ->
  take 3 (drop c0 (Itf.set_row row c0 v)) = cell_list v.
Proof.
  intros Hlen. unfold cell_list, Itf.set_row.
  destruct (Itf.cells v) as [[x y] z].
  apply list_eq. intros k. rewrite lookup_window.
  destruct k as [|[|[|k]]]; simpl.
  - rewrite Nat.add_0_r, !list_lookup_insert_ne by lia.
    apply list_lookup_insert_eq. lia.
  - rewrite list_lookup_insert_ne by lia.
    apply list_lookup_insert_eq. rewrite length_insert. lia.
  - apply list_lookup_insert_eq. rewrite !length_insert. lia.
  - reflexivity.
Qed.

Lemma set_row_elsewhere row idx idx' v :
  idx <> idx' ->
  take 3 (drop (3 * idx') (Itf.set_row row (3 * idx) v))
  = take 3 (drop (3 * idx') row).
Proof.
  intros Hne. unfold Itf.set_row. destruct (Itf.cells v) as [[x y] z].
  apply list_eq. intros k. rewrite !lookup_window.
  case_decide; [|reflexivity].
  rewrite !list_lookup_insert_ne by lia. reflexivity.
Qed.

(** X16. [get_all_marker_pos_arr2d] and [get_all_marker_pos_arr3d] hand
    their [msg] argument to [get_marker_data] in the place of
    [start_frame].  With [msg] at its default [False], that is a start
    frame 0: in a file that names its markers and whose first frame
    number is positive (or whose last one is not), the range check fails,
    [get_marker_data] answers [None] and both functions raise [TypeError]
    on subscripting it; with a negative first frame number the rows
    fetched from frame 0 on do not fit the array and both raise
    [ValueError]. *)
Theorem all_marker_pos_fails_off_frame_zero itf blocked_nan mkr_names :
  Itf.get_marker_names itf = Some mkr_names ->
  (0 <= Itf.get_num_frames itf)%Z ->
  ((0 < Itf.get_first_frame itf)%Z \/ (Itf.get_last_frame itf <= 0)%Z ->
   Itf.get_all_marker_pos_arr2d itf blocked_nan = Itf.Throw TypeError /\
   Itf.get_all_marker_pos_arr3d itf blocked_nan = Itf.Throw TypeError) /\
  ((Itf.get_first_frame itf < 0)%Z /\ (0 < Itf.get_last_frame itf)%Z ->
   Itf.get_all_marker_pos_arr2d itf blocked_nan = Itf.Throw ValueError /\
   Itf.get_all_marker_pos_arr3d itf blocked_nan = Itf.Throw ValueError).
Proof.
  intros Hnames Hn. unfold Itf.get_all_marker_pos_arr2d, Itf.get_all_marker_pos_arr3d.
  split.
  - intros Hfr. split; eapply all_marker_pos_TypeError; eauto.
  - intros [Hf Hl]. split; eapply all_marker_pos_ValueError; eauto.
Qed.

(** X17. In a file that names its markers and whose frames are numbered
    from 0, both functions succeed.  The arrays have one row per frame;
    in the 2D array the cells [3*idx .. 3*idx+2] of row [r], in the 3D
    array the entry [idx] of row [r], hold the coordinates at frame [r]
    (NaN if [blocked_nan] is set and the frame is blocked) of the point
    whose index is the first position of the name [mkr_names[idx]]: a
    marker whose label repeats an earlier one shows the earlier marker's
    data. *)
Theorem all_marker_pos_layout_from_frame_zero itf blocked_nan mkr_names :
  Itf.get_marker_names itf = Some mkr_names ->
  Itf.get_first_frame itf = 0%Z -> (0 < Itf.get_last_frame itf)%Z ->
  (exists A,
     Itf.get_all_marker_pos_arr2d itf blocked_nan = Itf.Return A /\
     length A = Z.to_nat (Itf.get_num_frames itf) /\
     forall r row, A !! r = Some row ->
       length row = (length mkr_names * 3)%nat /\
       forall idx mkr_name, mkr_names !! idx = Some mkr_name ->
         exists i, first_position mkr_names mkr_name i /\
           take 3 (drop (3 * idx) row)
           = cell_list (masked blocked_nan
                          (Itf.point itf (Z.of_nat i) (Z.of_nat r)))) /\
  (exists B,
     Itf.get_all_marker_pos_arr3d itf blocked_nan = Itf.Return B /\
     length B = Z.to_nat (Itf.get_num_frames itf) /\
     forall r row, B !! r = Some row ->
       length row = length mkr_names /\
       forall idx mkr_name, mkr_names !! idx = Some mkr_name ->
         exists i, first_position mkr_names mkr_name i /\
           row !! idx
           = Some (masked blocked_nan
                     (Itf.point itf (Z.of_nat i) (Z.of_nat r)))).
Proof.
  intros Hnames Hf Hl. split.
  - apply (all_marker_pos_layout _ _
             (fun m row => length row = (m * 3)%nat)
             (fun idx row v => take 3 (drop (3 * idx) row) = cell_list v));
      auto.
    + intros m. apply length_replicate.
    + intros m idx row v Hw. now rewrite length_set_row.
    + intros m idx row v Hw Hidx. apply set_row_window. lia.
    + intros idx idx' row v v' Hne Hold. now rewrite set_row_elsewhere.
  - apply (all_marker_pos_layout _ _
             (fun m row => length row = m)
             (fun idx row v => row !! idx = Some v));
      auto.
    + intros m. apply length_replicate.
    + intros m idx row v Hw. now rewrite length_insert.
    + intros m idx row v Hw Hidx. apply list_lookup_insert_eq. lia.
    + intros idx idx' row v v' Hne Hold. now rewrite list_lookup_insert_ne.
Qed.

(** * Files of labelled servers *)

Lemma labelled_keys {V} (f : nat -> V) (names : list string) :
  (imap (fun i name => (name, f i)) names).*1 = names.
Proof.
  revert f. induction names as [|x l IH]; intros f; [reflexivity|].
  simpl. f_equal. apply (IH (f ∘ S)).
Qed.

Lemma labelled_lookup_None {V} (f : nat -> V) (names : list string) name :
  name ∉ names ->
  (list_to_map (imap (fun i name => (name, f i)) names) : gmap string V) !! name
  = None.
Proof.
  intros Hn. apply not_elem_of_list_to_map_1. now rewrite labelled_keys.
Qed.

Lemma labelled_lookup_first {V} (f : nat -> V) (names : list string) name i :
  first_position names name i ->
  (list_to_map (imap (fun i name => (name, f i)) names) : gmap string V) !! name
  = Some (f i).
Proof.
  revert f i. induction names as [|x l IH]; intros f i [Hi Hleast].
  { destruct i; discriminate. }
  simpl. destruct (decide (x = name)) as [->|Hne].
  - assert (i = 0%nat) as ->.
    { destruct i; [reflexivity|]. exfalso. apply (Hleast 0%nat); [lia|reflexivity]. }
    now rewrite lookup_insert_eq.
  - rewrite lookup_insert_ne by exact Hne.
    destruct i as [|i]; [simpl in Hi; congruence|].
    apply (IH (f ∘ S) i). split; [exact Hi|].
    intros j Hj. apply (Hleast (S j)). lia.
Qed.

Lemma file_of_frames s itf :
  file_of s = Some itf ->
  video_first itf = Itf.get_first_frame s /\
  video_last itf = Itf.get_last_frame s /\
  get_num_frames itf = Itf.get_num_frames s.
Proof.
  unfold file_of. destruct (Itf.get_marker_names s); [|discriminate].
  intros [= <-]. repeat split.
Qed.

(** For a server that names its markers, [get_marker_data] with its
    optional arguments at their defaults is the reading of the file. *)
Lemma file_of_read s itf mkr_name :
  file_of s = Some itf ->
  Itf.get_marker_data s mkr_name false None None
  = Itf.Return (rows_of <$> get_marker_data itf mkr_name).
Proof.
  unfold file_of. destruct (Itf.get_marker_names s) as [names|] eqn:Hnames;
    [|discriminate].
  intros [= <-].
  destruct (marker_index_of s mkr_name names Hnames) as [Hout Hin].
  unfold get_marker_data, check_frame_range_valid, get_first_frame, get_last_frame.
  cbn [points video_first video_last].
  unfold Itf.get_marker_data, Itf.check_frame_range_valid.
  destruct (decide (mkr_name ∈ names)) as [Hel|Hnel].
  - destruct (first_position_exists names mkr_name Hel) as (i & Hi).
    rewrite (labelled_lookup_first _ names mkr_name i Hi).
    destruct Hi as [Hi Hleast]. rewrite (Hin i Hi Hleast).
    rewrite decide_False by (intros [= H]; lia).
    destruct (Itf.get_first_frame s <? Itf.get_last_frame s)%Z; [|reflexivity].
    reflexivity.
  - rewrite (labelled_lookup_None _ names mkr_name Hnel), (Hout Hnel).
    now rewrite decide_True.
Qed.

(** X4. Let a server name its markers, and let [itf] be the file it stands
    for.  Reading a marker of the file is [get_marker_data] with its
    optional arguments at their defaults.  When the target is not among
    the names, or the file has fewer than two frames, [get_marker_data]
    answers [None] and each of the five repair routines raises [TypeError]
    on subscripting it; the file is left as it was. *)
Theorem unreadable_target_raises_TypeError np_sqrt np_uninit np_svd spline
    s mkr_names itf tgt_mkr_name cl_mkr_names dnr_mkr_name k search_span_offset
    min_needed_frs run :
  Itf.get_marker_names s = Some mkr_names ->
  file_of s = Some itf ->
  tgt_mkr_name ∉ mkr_names \/ (Itf.get_num_frames s < 2)%Z ->
  run ∈ strategy_runs np_sqrt np_uninit np_svd spline itf tgt_mkr_name
          cl_mkr_names dnr_mkr_name k search_span_offset min_needed_frs ->
  (forall mkr_name,
     Itf.get_marker_data s mkr_name false None None
     = Itf.Return (rows_of <$> get_marker_data itf mkr_name)) /\
  Itf.get_marker_data s tgt_mkr_name false None None = Itf.Return None /\
  run = (Raise TypeError, itf).
Proof.
  intros Hnames Hfile Hno Hrun.
  assert (Hnone : get_marker_data itf tgt_mkr_name = None).
  { apply get_marker_data_None. destruct Hno as [Hn|Hn].
    - left. unfold file_of in Hfile. rewrite Hnames in Hfile.
      injection Hfile as <-. cbn [points]. now apply labelled_lookup_None.
    - right. destruct (file_of_frames _ _ Hfile) as (_ & _ & ->). exact Hn. }
  split; [intros mkr_name; now apply file_of_read|].
  split; [rewrite (file_of_read _ _ _ Hfile), Hnone; reflexivity|].
  unfold strategy_runs in Hrun.
  repeat (apply elem_of_cons in Hrun as [->|Hrun]); [| | | | |inversion Hrun].
  all: unfold recover_marker_relative, recover_marker_rigidbody,
         fill_marker_gap_rigidbody, fill_marker_gap_pattern,
         fill_marker_gap_interp; now rewrite Hnone.
Qed.

(** * The spline fill, gap by gap *)

(** The inner loop leaves the spline values and residual 0 on every frame
    it visits. *)
Lemma write_frames_value (f : nat -> V3) l c r c' r' :
  for_each (fun '(c, r) fr => c' ← py_set c fr (f fr); r' ← py_set r fr 0; Ok (c', r'))
           l (c, r) = Ok (c', r') ->
  forall x, x ∈ l \/ (c !! x = Some (f x) /\ r !! x = Some 0) ->
            c' !! x = Some (f x) /\ r' !! x = Some 0.
Proof.
  revert c r. induction l as [|fr l IH]; intros c r Hrun x Hx.
  - injection Hrun as <- <-. destruct Hx as [Hx|Hx]; [inversion Hx | exact Hx].
  - simpl in Hrun. ok_bind Hrun. rename E into Hb.
    repeat ok_step Hb. injection Hb as <-.
    match goal with E : py_set c fr _ = Ok _ |- _ => apply py_set_Ok in E as [Hlc ->] end.
    match goal with E : py_set r fr _ = Ok _ |- _ => apply py_set_Ok in E as [Hlr ->] end.
    apply (IH _ _ Hrun).
    destruct (decide (x = fr)) as [->|Hne].
    + right. split; now apply list_lookup_insert_eq.
    + destruct Hx as [Hx|[Hx1 Hx2]].
      * apply elem_of_cons in Hx as [->|Hx]; [congruence | now left].
      * right. split; rewrite list_lookup_insert_ne by congruence; assumption.
Qed.

Lemma for_each_cons {S A} (body : S -> A -> result S) x l st :
  for_each body (x :: l) st =
  match body st x with Ok st1 => for_each body l st1 | Raise e => Raise e end.
Proof. reflexivity. Qed.

(** What one iteration that does not skip its gap does. *)
Lemma interp_body_fills spline n vm k off minf c r b g st' :
  interp_body spline n vm k off minf (c, r, b) g = Ok st' ->
  interp_skips n vm off minf g = false ->
  let cand := np_where (itpl_cand_frs_mask n vm (search_span_of g off) g) in
  st'.2 = true /\
  exists xyz fx fy fz,
    gather c cand = Ok xyz /\
    spline k cand ((fun v : V3 => v.1.1) <$> xyz) = Ok fx /\
    spline k cand ((fun v : V3 => v.1.2) <$> xyz) = Ok fy /\
    spline k cand ((fun v : V3 => v.2) <$> xyz) = Ok fz /\
    forall x, x ∈ g ->
      st'.1.2 !! x = Some 0 /\ st'.1.1 !! x = Some (fx x, fy x, fz x).
Proof.
  intros H Hskip cand. unfold interp_skips in Hskip.
  apply orb_false_iff in Hskip as [Hskip H3].
  apply orb_false_iff in Hskip as [H1 H2].
  unfold interp_body in H. rewrite H1, H2, H3 in H. fold cand in H.
  repeat ok_step H. injection H as <-. cbn [fst snd].
  split; [reflexivity|].
  do 4 eexists. split; [reflexivity|]. do 3 (split; [eassumption|]).
  intros x Hx.
  match goal with
  | E : for_each _ g (c, r) = Ok _ |- _ =>
      match type of E with
      | context [py_set _ _ (?u _, ?v _, ?w _)] =>
          destruct (write_frames_value (fun fr => (u fr, v fr, w fr)) g c r _ _ E x
                      (or_introl Hx)) as [Hcx Hrx]
      end
  end.
  auto.
Qed.

(** X21. When [fill_marker_gap_interp] reports an update, it has worked gap
    by gap on the runs of blocked frames of the trajectory as read: a gap
    that the loop skips (empty, touching the first or last frame, or with
    too few candidate frames) keeps position and residual at every frame;
    every other gap is filled as a whole: the three splines through its
    candidate frames and the coordinates read at entry were constructed,
    and each frame of the gap carries residual 0 and the splines' values
    at that frame. *)
Theorem spline_fill_is_gapwise spline itf tgt_mkr_name
    (k search_span_offset min_needed_frs : Z) n itf' d :
  fill_marker_gap_interp spline itf tgt_mkr_name k search_span_offset
    min_needed_frs = (Ok (true, n), itf') ->
  get_marker_data itf tgt_mkr_name = Some d ->
  exists d', get_marker_data itf' tgt_mkr_name = Some d' /\
    forall g, g ∈ invalid_gaps (np_where (logical_not (valid_mask (resid d)))) ->
      if interp_skips (get_num_frames itf) (valid_mask (resid d))
           search_span_offset min_needed_frs g
      then forall f, f ∈ g ->
             coords d' !! f = coords d !! f /\ resid d' !! f = resid d !! f
      else gap_filled spline (get_num_frames itf) k search_span_offset d d' g.
Proof.
  unfold fill_marker_gap_interp. intros H Hget. rewrite Hget in H.
  destruct (_ || _); [discriminate|].
  apply finish_updated in H as (c & r & Hrun & ->).
  set (frs := np_where (logical_not (valid_mask (resid d)))) in *.
  destruct (for_each_local _ _ _ _ _ _ (interp_body_local _ _ _ _ _ _) Hrun)
    as [[Hs1 Hs2] _].
  unfold work_arrays in Hs1, Hs2; cbn [fst snd] in Hs1, Hs2.
  exists (mkData c r). split; [apply (get_after_write_back _ _ d); assumption|].
  intros g Hg.
  assert (Hnd : NoDup (concat (invalid_gaps frs))).
  { destruct (decide (frs = [])) as [E|Hne].
    - rewrite E. vm_compute. constructor.
    - rewrite (gaps_concat _ _ (invalid_gaps_ok frs Hne (np_where_sorted _))).
      apply np_where_NoDup. }
  destruct (interp_skips _ _ _ _ g) eqn:Hs.
  - intros f Hf.
    apply (interp_loop_unchanged _ _ _ _ _ _ _ _ _ f Hrun). intros g' Hg' Hf'.
    now rewrite <- (NoDup_concat_unique _ g g' f Hnd Hg Hg' Hf Hf').
  - pose proof Hg as Hg0.
    apply list_elem_of_split in Hg as (gs1 & gs2 & Hsplit).
    rewrite Hsplit in Hrun, Hnd. rewrite for_each_app in Hrun.
    destruct (for_each _ gs1 _) as [[[c1 r1] b1]|] eqn:H1; [|discriminate].
    rewrite for_each_cons in Hrun.
    destruct (interp_body _ _ _ _ _ _ (c1, r1, b1) g) as [[[c2 r2] b2]|] eqn:H2;
      [|discriminate].
    destruct (interp_body_fills _ _ _ _ _ _ _ _ _ _ _ H2 Hs)
      as (_ & xyz & fx & fy & fz & Hga & Hx & Hy & Hz & Hval).
    cbn [fst snd] in Hval.
    exists xyz, fx, fy, fz. split.
    { rewrite <- Hga. symmetry. apply gather_ext. intros i Hi.
      destruct (for_each_local _ _ _ _ _ _ (interp_body_local _ _ _ _ _ _) H1)
        as [_ Hloc].
      apply (Hloc i). intros g' Hg' Hig'.
      apply (valid_invalid_excl (resid d) i (cand_valid _ _ _ _ _ Hi)).
      apply elem_of_invalid_frames.
      apply (elem_of_invalid_gaps _ g'); [|exact Hig'].
      fold frs. rewrite Hsplit. apply elem_of_app. now left. }
    do 3 (split; [assumption|]).
    intros f Hf. destruct (Hval f Hf) as [Hr0 Hc0].
    destruct (for_each_local _ _ _ _ _ _ (interp_body_local _ _ _ _ _ _) Hrun)
      as [_ Hloc].
    destruct (proj1 (Hloc f)) as [Hc Hr].
    { intros g' Hg' Hfg'. rewrite concat_app in Hnd. simpl in Hnd.
      apply NoDup_app in Hnd as (_ & _ & Hnd).
      apply NoDup_app in Hnd as (_ & Hdisj & _).
      apply (Hdisj f Hf). apply elem_of_concat. eauto. }
    unfold work_arrays in Hc, Hr; cbn [fst snd] in Hc, Hr.
    split; [exact (eq_trans Hr Hr0) | exact (eq_trans Hc Hc0)].
Qed.

(** * The further properties at work on the example files *)

(** Position of a run in [strategy_runs]. *)
Tactic Notation "is_run" integer(k) :=
  do k apply list_elem_of_further; apply list_elem_of_here.

(** Validity of a frame of a marker of an example file. *)
Ltac frame_is x := exists x; split; by_computation.
Ltac marker_frame_is x := eexists; split; [by_computation | frame_is x].

Lemma run_without_update_writes_nothing_witness :
  (fill_marker_gap_pattern file_one_anchor "T" "D").2 = file_one_anchor.
Proof.
  apply (run_without_update_writes_nothing q_sqrt zero_uninit diag_svd
           linear_spline file_one_anchor "T" ["D"] "D" 1 1 2
           (fill_marker_gap_pattern file_one_anchor "T" "D")).
  - is_run 3.
  - intros n H. vm_compute in H. discriminate H.
Defined.

Lemma run_touches_target_only_witness :
  let run := fill_marker_gap_pattern file_pattern "T" "D" in
  get_first_frame run.2 = get_first_frame file_pattern /\
  get_last_frame run.2 = get_last_frame file_pattern /\
  (forall o, o <> "T"%string ->
     get_marker_data run.2 o = get_marker_data file_pattern o) /\
  (get_marker_data run.2 "T" = None <-> get_marker_data file_pattern "T" = None).
Proof.
  intros run.
  apply (run_touches_target_only q_sqrt zero_uninit diag_svd linear_spline
           file_pattern "T" ["D"] "D" 1 1 2 run).
  is_run 3.
Defined.

Lemma returned_count_is_valid_frames_witness :
  let run := fill_marker_gap_pattern file_pattern "T" "D" in
  let d := read file_pattern "T" in
  exists d',
    get_marker_data run.2 "T" = Some d' /\
    4%nat = count_nonzero (valid_mask (resid d')) /\
    ((exists f, repaired d d' f /\ resid d' !! f = Some 0) /\
     (count_nonzero (valid_mask (resid d)) < 4)%nat).
Proof.
  intros run d.
  apply (returned_count_is_valid_frames q_sqrt zero_uninit diag_svd
           linear_spline file_pattern "T" ["D"] "D" 1 1 2 run d true 4%nat).
  - is_run 3.
  - by_computation.
  - by_computation.
Defined.

Lemma unreadable_target_raises_TypeError_witness :
  let s := server_from_one in
  let itf := default file_all_valid (file_of s) in
  (forall mkr_name,
     Itf.get_marker_data s mkr_name false None None
     = Itf.Return (rows_of <$> get_marker_data itf mkr_name)) /\
  Itf.get_marker_data s "Z" false None None = Itf.Return None /\
  fill_marker_gap_interp linear_spline itf "Z" 1 1 2 = (Raise TypeError, itf).
Proof.
  intros s itf.
  apply (unreadable_target_raises_TypeError q_sqrt zero_uninit diag_svd
           linear_spline s ["T"; "D"; "T"]%string itf "Z" ["D"]%string "D" 1 1 2).
  - by_computation.
  - reflexivity.
  - left. intros H. repeat (apply elem_of_cons in H as [H|H]; [discriminate H|]).
    inversion H.
  - is_run 4.
Defined.

Lemma unreadable_helper_raises_TypeError_witness :
  let itf := file_cluster3 in
  (recover_marker_relative q_sqrt zero_uninit itf "T" ["A"; "Z"]
     = (Raise TypeError, itf) /\
   recover_marker_rigidbody q_sqrt zero_uninit itf "T" ["A"; "Z"]
     = (Raise TypeError, itf) /\
   fill_marker_gap_rigidbody q_sqrt diag_svd itf "T" ["A"; "Z"]
     = (Raise TypeError, itf)) /\
  fill_marker_gap_pattern itf "T" "Z" = (Raise TypeError, itf).
Proof.
  intros itf.
  destruct (unreadable_helper_raises_TypeError q_sqrt zero_uninit diag_svd
              itf "T" ["A"; "Z"]%string "Z" (read itf "T") 0 1) as [Hcl Hdnr].
  - by_computation.
  - frame_is 0.
  - frame_is (-1).
  - split.
    + apply Hcl. exists "Z"%string. split; [is_run 1 | by_computation].
    + apply Hdnr. by_computation.
Defined.

Lemma self_helped_target_is_not_repaired_witness :
  let run :=
    recover_marker_relative q_sqrt zero_uninit file_cluster3 "T" ["A"; "T"; "B"] in
  run.2 = file_cluster3 /\ forall n, run.1 <> Ok (true, n).
Proof.
  intros run.
  apply (self_helped_target_is_not_repaired q_sqrt zero_uninit diag_svd
           file_cluster3 "T" ["A"; "T"; "B"]%string run).
  left. split; [is_run 1 | is_run 0].
Defined.


Lemma recovery_needs_three_cluster_markers_witness :
  let itf := file_cluster3 in
  let cl := ["A"; "B"; "A"]%string in
  let relative := recover_marker_relative q_sqrt zero_uninit itf "T" cl in
  let rigidbody := recover_marker_rigidbody q_sqrt zero_uninit itf "T" cl in
  ((length (remove_dups cl) < 3)%nat /\
   relative = (Raise IndexError, itf) /\ rigidbody = (Raise IndexError, itf)) \/
  ((3 <= length (remove_dups cl))%nat /\
   (exists n itf', relative = (Ok (true, n), itf')) /\
   (exists n itf', rigidbody = (Ok (true, n), itf'))).
Proof.
  intros itf cl.
  assert (Hcl : forall g, (g < 4)%nat -> cluster_valid_at itf cl g).
  { intros g Hg mkr Hm.
    repeat (apply elem_of_cons in Hm as [->|Hm]); [| | | inversion Hm];
      (eexists; split; [by_computation|]; exists 0;
       do 4 (destruct g as [|g]; [split; by_computation|]); lia). }
  apply (recovery_needs_three_cluster_markers q_sqrt zero_uninit itf "T" cl
           (read itf "T")).
  - by_computation.
  - exists 0%nat. split; [frame_is 0 | apply Hcl; lia].
  - exists 1%nat. split; [frame_is (-1) | apply Hcl; lia].
Defined.

Lemma recovery_is_idempotent_witness :
  let cl := ["A"; "B"; "C"]%string in
  let itf' := (recover_marker_relative q_sqrt zero_uninit file_cluster3 "T" cl).2 in
  let itf'' := (recover_marker_rigidbody q_sqrt zero_uninit file_cluster3 "T" cl).2 in
  recover_marker_relative q_sqrt zero_uninit itf' "T" cl = (Ok (false, 4%nat), itf') /\
  recover_marker_rigidbody q_sqrt zero_uninit itf'' "T" cl = (Ok (false, 4%nat), itf'').
Proof.
  intros cl itf' itf''. split.
  - apply (proj1 (recovery_is_idempotent q_sqrt zero_uninit file_cluster3 "T" cl
                    4%nat itf')).
    by_computation.
  - apply (proj2 (recovery_is_idempotent q_sqrt zero_uninit file_cluster3 "T" cl
                    4%nat itf'')).
    by_computation.
Defined.

Lemma one_common_frame :
  forall g, valid_at (resid (read file_one_anchor "T")) g /\
            valid_at (resid (read file_one_anchor "D")) g <-> g = 1%nat.
Proof.
  intros g. split.
  - intros [(x & Hx & Hv) _]. destruct g as [|[|g]]; [|reflexivity|].
    + vm_compute in Hx. injection Hx as <-. vm_compute in Hv. discriminate Hv.
    + vm_compute in Hx. discriminate Hx.
  - intros ->. split; frame_is 0.
Defined.

Lemma pattern_fill_with_one_common_frame_witness :
  fill_marker_gap_pattern file_one_anchor "T" "D"
    = (Raise IndexError, file_one_anchor).
Proof.
  apply (proj1 (pattern_fill_with_one_common_frame file_one_anchor "T" "D"
                  (read file_one_anchor "T") (read file_one_anchor "D") 1
                  ltac:(by_computation) ltac:(by_computation) one_common_frame)).
  exists 0%nat. split; [lia | frame_is (-1)].
Defined.

Lemma one_anchor :
  forall g, valid_at (resid (read file_one_anchor "T")) g /\
            cluster_valid_at file_one_anchor ["D"] g <-> g = 1%nat.
Proof.
  intros g. split.
  - intros [(x & Hx & Hv) _]. destruct g as [|[|g]]; [|reflexivity|].
    + vm_compute in Hx. injection Hx as <-. vm_compute in Hv. discriminate Hv.
    + vm_compute in Hx. discriminate Hx.
  - intros ->. split; [frame_is 0|].
    intros mkr Hm. apply list_elem_of_singleton in Hm as ->. marker_frame_is 0.
Defined.

Lemma rigid_fill_with_one_anchor_witness :
  fill_marker_gap_rigidbody q_sqrt diag_svd file_one_anchor "T" ["D"]
    = (Raise IndexError, file_one_anchor).
Proof.
  apply (proj1 (rigid_fill_with_one_anchor q_sqrt diag_svd file_one_anchor "T"
                  ["D"]%string (read file_one_anchor "T") 1
                  ltac:(by_computation) one_anchor)).
  exists 0%nat. split; [lia|]. split; [frame_is (-1)|].
  intros mkr Hm. apply list_elem_of_singleton in Hm as ->. marker_frame_is 0.
Defined.

Lemma marker_data_rows_witness :
  let itf := server_from_one in
  let mkr_names := ["T"; "D"; "T"]%string in
  let data := Itf.get_marker_data itf "T" true None None in
  ("T"%string ∉ mkr_names -> data = Itf.Return None) /\
  (Itf.check_frame_range_valid itf None None = None -> data = Itf.Return None) /\
  (forall i a b,
     first_position mkr_names "T" i ->
     Itf.check_frame_range_valid itf None None = Some (a, b) ->
     exists d,
       data = Itf.Return (Some d) /\
       length (Itf.pos d) = Z.to_nat (b - a + 1) /\
       length (Itf.res d) = Z.to_nat (b - a + 1) /\
       forall k, (k < Z.to_nat (b - a + 1))%nat ->
         let sample := Itf.point itf (Z.of_nat i) (a + Z.of_nat k) in
         Itf.res d !! k = Some sample.2 /\
         Itf.pos d !! k = Some (masked true sample)).
Proof.
  intros itf mkr_names.
  apply (marker_data_rows itf "T" true None None mkr_names).
  by_computation.
Defined.

Lemma marker_data_subrange_witness :
  let itf := server_from_one in
  let d := rows_or_empty (Itf.get_marker_data itf "T" true None None) in
  Itf.get_marker_data itf "T" true (Some 2%Z) (Some 3%Z)
  = Itf.Return (Some (Itf.mkRows (slice (Itf.pos d) 1 3) (slice (Itf.res d) 1 3))).
Proof.
  intros itf d.
  apply (marker_data_subrange itf "T" true 2 3 d).
  - by_computation.
  - vm_compute. discriminate.
  - reflexivity.
  - vm_compute. discriminate.
Defined.

Lemma all_marker_pos_fails_off_frame_zero_witness :
  (Itf.get_all_marker_pos_arr2d server_from_one false = Itf.Throw TypeError /\
   Itf.get_all_marker_pos_arr3d server_from_one false = Itf.Throw TypeError) /\
  (Itf.get_all_marker_pos_arr2d server_from_minus_one true = Itf.Throw ValueError /\
   Itf.get_all_marker_pos_arr3d server_from_minus_one true = Itf.Throw ValueError).
Proof.
  split.
  - apply (proj1 (all_marker_pos_fails_off_frame_zero server_from_one false
                    ["T"; "D"; "T"]%string ltac:(by_computation)
                    ltac:(vm_compute; discriminate))).
    left. reflexivity.
  - apply (proj2 (all_marker_pos_fails_off_frame_zero server_from_minus_one true
                    ["T"; "D"; "T"]%string ltac:(by_computation)
                    ltac:(vm_compute; discriminate))).
    split; reflexivity.
Defined.

Lemma all_marker_pos_layout_from_frame_zero_witness :
  let itf := server_from_zero in
  let mkr_names := ["T"; "D"; "T"]%string in
  (exists A,
     Itf.get_all_marker_pos_arr2d itf true = Itf.Return A /\
     length A = Z.to_nat (Itf.get_num_frames itf) /\
     forall r row, A !! r = Some row ->
       length row = (length mkr_names * 3)%nat /\
       forall idx mkr_name, mkr_names !! idx = Some mkr_name ->
         exists i, first_position mkr_names mkr_name i /\
           take 3 (drop (3 * idx) row)
           = cell_list (masked true (Itf.point itf (Z.of_nat i) (Z.of_nat r)))) /\
  (exists B,
     Itf.get_all_marker_pos_arr3d itf true = Itf.Return B /\
     length B = Z.to_nat (Itf.get_num_frames itf) /\
     forall r row, B !! r = Some row ->
       length row = length mkr_names /\
       forall idx mkr_name, mkr_names !! idx = Some mkr_name ->
         exists i, first_position mkr_names mkr_name i /\
           row !! idx
           = Some (masked true (Itf.point itf (Z.of_nat i) (Z.of_nat r)))).
Proof.
  intros itf mkr_names.
  apply (all_marker_pos_layout_from_frame_zero itf true mkr_names).
  - by_computation.
  - reflexivity.
  - reflexivity.
Defined.

Lemma spline_fill_is_gapwise_witness :
  let itf := file_gaps in
  let d := read itf "T" in
  let itf' := (fill_marker_gap_interp linear_spline itf "T" 1 1 2).2 in
  exists d', get_marker_data itf' "T" = Some d' /\
    forall g, g ∈ invalid_gaps (np_where (logical_not (valid_mask (resid d)))) ->
      if interp_skips (get_num_frames itf) (valid_mask (resid d)) 1 2 g
      then forall f, f ∈ g ->
             coords d' !! f = coords d !! f /\ resid d' !! f = resid d !! f
      else gap_filled linear_spline (get_num_frames itf) 1 1 d d' g.
Proof.
  intros itf d itf'.
  apply (spline_fill_is_gapwise linear_spline itf "T" 1 1 2 8%nat itf' d).
  - by_computation.
  - by_computation.
Defined.
